(** * obsidian-sync: crypto envelope, match-and-buffer router, session
      protocol and reconciliation pass

    A shallow embedding of the Go packages [crypto], [api] and [sync].
    Go values are modelled as follows.
    - [[]byte] is a list of bytes (contents only; a slice whose capacity
      exceeds its length is not distinguished from one whose does not),
      [string] is [string], [int64] and [int] are [Z] (the code only
      compares and stores them).
    - A function returning [(T, error)] returns an [outcome T]:
      [Ok v], [Err msg] for a non-nil error, or [Panic msg] when the Go
      runtime aborts the call (slice bounds).
    - Go maps are [gmap string _]; the unspecified order of [range] over a
      map is an explicit argument of the functions that iterate.
    - The Go standard library and its extensions ([scrypt], [aes], [cipher],
      [sha256], [hex], [encoding/json]) are not code of this repository:
      they are taken as records of functions, and every theorem holds for
      each implementation of them (under the hypotheses it states).
    - The websocket, the random source, and standard output are fields of an
      explicit [World] threaded through the effectful functions. The peer is
      the finite list of frames it delivers before the connection closes; a
      read that would block for ever is not modelled.
    - A [for] loop without a bound of its own in the source runs for a number
      of turns computed from the frames at hand; the properties show that
      the number is never exhausted.

    Of [Sync], the state it builds from the handshake is modelled
    ([startup.initialState]); of [StartDaemon], the update that precedes
    each pass; of the package [cmd], the choice of the vault and of the
    password. Left out: the banners of [Sync], [WaitForPushMessage]
    (goroutines and timers), the earlier revision of the packages [api] and
    [sync] built on channels, the package [auth], and the HTTP calls. *)

From Stdlib Require Import ZArith Lia.
From Stdlib Require Import Init.Byte Strings.Byte Strings.Ascii.
From stdpp Require Import base list strings gmap fin_maps.

(** ** Outcomes of Go calls *)

Definition error := string.
Definition bytes := list byte.

(** What a library function returning [(T, error)] gives back. *)
Inductive result (A : Type) : Type :=
| Success (a : A)
| Failure (e : error).
Arguments Success {A} a.
Arguments Failure {A} e.

(** What a function of this repository gives back: a value, a non-nil
    error, or a run-time panic. *)
Inductive outcome (A : Type) : Type :=
| Ok (a : A)
| Err (e : error)
| Panic (msg : string).
Arguments Ok {A} a.
Arguments Err {A} e.
Arguments Panic {A} msg.

Definition of_result {A} (r : result A) : outcome A :=
  match r with Success a => Ok a | Failure e => Err e end.

Definition obind {A B} (o : outcome A) (k : A → outcome B) : outcome B :=
  match o with
  | Ok a => k a
  | Err e => Err e
  | Panic m => Panic m
  end.

(** [fmt.Errorf(prefix + "%v", err)] on the error path. *)
Definition owrap {A} (prefix : string) (o : outcome A) : outcome A :=
  match o with
  | Err e => Err (prefix +:+ e)
  | _ => o
  end.

Declare Scope outcome_scope.
Delimit Scope outcome_scope with outcome.
Notation "x <- m ;; k" := (obind m (fun x => k))
  (at level 20, m at level 99, k at level 200) : outcome_scope.

Definition is_Ok {A} (o : outcome A) : Prop := ∃ a, o = Ok a.
Definition is_Err {A} (o : outcome A) : Prop := ∃ e, o = Err e.
Definition is_Panic {A} (o : outcome A) : Prop := ∃ m, o = Panic m.

#[global] Instance byte_eq_dec : EqDecision byte := Byte.byte_eq_dec.

(** [[]byte(s)] and [string(b)] copy the same bytes. *)
Definition bytes_of (s : string) : bytes := String.list_byte_of_string s.
Definition string_of (b : bytes) : string := String.string_of_list_byte b.

(** Slice expressions. [s[n:]] panics when [n > len(s)]. [s[:n]] panics when
    [n > cap(s)]; with capacity equal to length that is [n > len(s)]. *)
Definition slice_to (s : bytes) (n : nat) : outcome bytes :=
  if decide (n ≤ length s) then Ok (take n s)
  else Panic "slice bounds out of range".

Definition slice_from (s : bytes) (n : nat) : outcome bytes :=
  if decide (n ≤ length s) then Ok (drop n s)
  else Panic "slice bounds out of range".

(** [make([]byte, n)] and the builtin [copy(dst, src)], which overwrites the
    first [min(len(dst), len(src))] bytes of [dst]. *)
Definition make (n : nat) : bytes := replicate n Byte.x00.

Definition copy (dst src : bytes) : bytes :=
  take (length dst) src ++ drop (length src) dst.

(** [io.ReadFull(rand.Reader, buf)] with [len(buf) = n]: the reader is the
    list of bytes it will still deliver. *)
Definition io_ReadFull (r : list byte) (n : nat) : result bytes * list byte :=
  if decide (n ≤ length r) then (Success (take n r), drop n r)
  else (Failure (match r with [] => "EOF" | _ => "unexpected EOF" end), []).

(** ** State passing *)

(** A function with effects on a state [St]. An error or a panic ends the
    run with the state reached so far. *)
Definition StM (St A : Type) : Type := St → outcome A * St.

Definition ret {St A} (a : A) : StM St A := fun w => (Ok a, w).
Definition fail {St A} (e : error) : StM St A := fun w => (Err e, w).
Definition lift {St A} (o : outcome A) : StM St A := fun w => (o, w).
Definition bind {St A B} (m : StM St A) (k : A → StM St B) : StM St B := fun w =>
  match m w with
  | (Ok a, w') => k a w'
  | (Err e, w') => (Err e, w')
  | (Panic p, w') => (Panic p, w')
  end.
(** [if err != nil { return fmt.Errorf(prefix + "%v", err) }] *)
Definition wrap {St A} (prefix : string) (m : StM St A) : StM St A := fun w =>
  let '(o, w') := m w in (owrap prefix o, w').
Definition call {St A} (prefix : string) (r : result A) : StM St A :=
  wrap prefix (lift (of_result r)).

Declare Scope M_scope.
Delimit Scope M_scope with M.
Notation "x <- m ;; k" := (bind m (fun x => k))
  (at level 20, m at level 99, k at level 200) : M_scope.
Notation "m ;; k" := (bind m (fun _ => k))
  (at level 100, k at level 200, right associativity) : M_scope.

(** [for _, x := range l { body }] over a slice. *)
Fixpoint forEach {St A} (l : list A) (body : A → StM St unit) : StM St unit :=
  match l with
  | [] => ret tt
  | x :: l' => bind (body x) (fun _ => forEach l' body)
  end.

(** [m] keeps [I]: whatever the outcome, the state it ends in satisfies [I]
    when the state it starts from does. *)
Definition preserves {St A} (I : St → Prop) (m : StM St A) : Prop :=
  ∀ st o st', m st = (o, st') → I st → I st'.

(** [m] respects [R]: whatever the outcome, the state it ends in is related
    by [R] to the state it starts from. *)
Definition respects {St A} (R : St → St → Prop) (m : StM St A) : Prop :=
  ∀ st o st', m st = (o, st') → R st st'.

(** ** Package crypto *)

(** The primitives the package calls. [gcm_Seal g nonce plaintext] is
    [g.Seal(nil, nonce, plaintext, nil)] and [gcm_Open g nonce ciphertext] is
    [g.Open(nil, nonce, ciphertext, nil)]. *)
Record CryptoLib : Type := {
  Block : Type;
  AEAD : Type;
  scrypt_Key : bytes → bytes → Z → Z → Z → Z → result bytes;
  aes_NewCipher : bytes → result Block;
  cipher_NewGCM : Block → result AEAD;
  gcm_Seal : AEAD → bytes → bytes → bytes;
  gcm_Open : AEAD → bytes → bytes → result bytes;
  sha256_Sum256 : bytes → bytes;
  hex_EncodeToString : bytes → string;
  hex_DecodeString : string → result bytes;
}.

Module crypto.
Section Crypto.
Context (C : CryptoLib).
Local Open Scope outcome_scope.

Definition nonceSize : nat := 12.

Definition deriveKey (password salt : bytes) : outcome bytes :=
  of_result (scrypt_Key C password salt 32768 8 1 32).


(** [Encrypt] reads its nonce from [rand.Reader]; the reader is passed in
    and what is left of it is returned. *)
Definition Encrypt (input password salt : bytes) (rand_Reader : list byte)
  : outcome bytes * list byte :=
  match deriveKey password salt with
  | Err e => (Err e, rand_Reader)
  | Panic m => (Panic m, rand_Reader)
  | Ok key =>
    match io_ReadFull rand_Reader nonceSize with
    | (Failure e, r) => (Err e, r)
    | (Success nonce, r) =>
      (block <- of_result (aes_NewCipher C key) ;;
       aesgcm <- of_result (cipher_NewGCM C block) ;;
       let ciphertext := gcm_Seal C aesgcm nonce input in
       let encrypted := make (nonceSize + length ciphertext) in
       let encrypted := copy encrypted nonce in
       let encrypted :=
         take nonceSize encrypted ++ copy (drop nonceSize encrypted) ciphertext in
       Ok encrypted,
       r)
    end
  end.

Definition Decrypt (encrypted password salt : bytes) : outcome bytes :=
  if decide (length encrypted = 0) then Ok []
  else
    key <- deriveKey password salt ;;
    block <- of_result (aes_NewCipher C key) ;;
    aesgcm <- of_result (cipher_NewGCM C block) ;;
    nonce <- slice_to encrypted nonceSize ;;
    ciphertext <- slice_from encrypted nonceSize ;;
    plaintext <- of_result (gcm_Open C aesgcm nonce ciphertext) ;;
    Ok plaintext.

Definition DecryptString (encryptedString : string) (password salt : bytes)
  : outcome string :=
  encrypted <- of_result (hex_DecodeString C encryptedString) ;;
  decrypted <- Decrypt encrypted password salt ;;
  Ok (string_of decrypted).

End Crypto.
End crypto.

(** ** Package api: messages, the socket, standard output *)

Module api.

(** A decoded JSON value, as [json.Unmarshal] stores it in an
    [interface{}]. The code compares such values with strings only, so the
    elements of arrays and nested objects are left out. *)
Inductive jval : Type :=
| JNull
| JBool (b : bool)
| JNumber (n : Z)
| JString (s : string)
| JArray
| JObject.

#[global] Instance jval_eq_dec : EqDecision jval.
Proof. solve_decision. Defined.

Record VaultInfo : Type := {
  Id : string;
  Name : string;
  Password : string;
  Salt : string;
  Host : string;
}.

Record IncomingPushMessage : Type := {
  Op : string;
  EncryptedPath : string;
  EncryptedHash : string;
  Size : Z;
  Ctime : Z;
  Mtime : Z;
  Folder : bool;
  Deleted : bool;
  Device : string;
  Uid : Z;
}.

Record OutgoingPushMessage : Type := {
  out_Op : string;
  out_Path : string;
  out_Ext : string;
  out_Hash : string;
  out_Ctime : Z;
  out_Mtime : Z;
  out_Folder : bool;
  out_Deleted : bool;
  out_Size : Z;
  out_Pieces : Z;
}.

Record PullHeaderMessage : Type := {
  hdr_Hash : string;
  hdr_Size : Z;
  hdr_Pieces : Z;
}.

Record InitResult : Type := {
  RemoteUid : Z;
  PushedFiles : list IncomingPushMessage;
}.

(** The values handed to [sendMessage], one constructor per anonymous or
    named struct of the package, and what goes on the wire. *)
Inductive message : Type :=
| MsgInit (ID Token Keyhash : string) (Version : Z) (Initial : bool) (Dev : string)
| MsgSize
| MsgPull (UID : Z)
| MsgPush (m : OutgoingPushMessage)
| MsgPing.

Inductive frame : Type :=
| JSONFrame (m : message)
| BinaryFrame (b : bytes).

(** [encoding/json], one decoder per target type the package unmarshals
    into. *)
Record JsonLib : Type := {
  Unmarshal_map : bytes → result (gmap string jval);
  Unmarshal_res : bytes → result string;
  Unmarshal_op : bytes → result string;
  Unmarshal_ready : bytes → result Z;
  Unmarshal_IncomingPushMessage : bytes → result IncomingPushMessage;
  Unmarshal_PullHeaderMessage : bytes → result PullHeaderMessage;
  Unmarshal_SizeResponse : bytes → result (Z * Z);
}.

(** The lines the program prints. [jsonOrBinary msg] is recorded as [msg];
    the three lines [PullFile] prints about a header are one [HeaderInfo],
    the five counts [SyncFiles] prints are one [Summary], and the two lines
    it prints about a pulled file are one [Contents]. *)
Inductive line : Type :=
| Sent (f : frame)                       (* sendMessage, sendBinary *)
| Received (msg : bytes)                 (* nextMessage *)
| Unqueued (msg : bytes)                 (* taken from the filtered queue *)
| Matched (msg : bytes)                  (* read from the socket and matching *)
| HeaderInfo (uid size pieces : Z)       (* PullFile *)
| Summary (del conflicts push pull folders : nat)
| Conflict (decryptedPath : string)
| Deleting (decryptedPath : string)
| CreatingFolder (decryptedPath : string)
| Pulling (decryptedPath : string) (uid : Z)
| Contents (decryptedPath : string) (content : bytes)
| Pushing (path : string)
| SyncComplete (at_ : Z).

(** The socket context together with the process environment it runs in.
    [ws_inbox] holds the frames the peer delivers, oldest first; reading
    from an empty inbox fails (the connection is closed). [ws_outbox] holds
    the frames written, oldest first, and [ws_quota] counts the writes the
    transport still accepts. *)
Record World : Type := {
  Vault : VaultInfo;
  authToken : string;
  keyhash : string;
  filteredQueue : list bytes;
  ws_inbox : list bytes;
  ws_outbox : list frame;
  ws_quota : nat;
  rand_Reader : list byte;
  stdout : list line;
}.

Definition set_filteredQueue (q : list bytes) (w : World) : World :=
  {| Vault := Vault w; authToken := authToken w; keyhash := keyhash w;
     filteredQueue := q; ws_inbox := ws_inbox w; ws_outbox := ws_outbox w;
     ws_quota := ws_quota w; rand_Reader := rand_Reader w; stdout := stdout w |}.

Definition set_ws_inbox (i : list bytes) (w : World) : World :=
  {| Vault := Vault w; authToken := authToken w; keyhash := keyhash w;
     filteredQueue := filteredQueue w; ws_inbox := i; ws_outbox := ws_outbox w;
     ws_quota := ws_quota w; rand_Reader := rand_Reader w; stdout := stdout w |}.

Definition ws_write (f : frame) (w : World) : World :=
  {| Vault := Vault w; authToken := authToken w; keyhash := keyhash w;
     filteredQueue := filteredQueue w; ws_inbox := ws_inbox w;
     ws_outbox := ws_outbox w ++ [f];
     ws_quota := pred (ws_quota w); rand_Reader := rand_Reader w; stdout := stdout w |}.

Definition set_rand_Reader (r : list byte) (w : World) : World :=
  {| Vault := Vault w; authToken := authToken w; keyhash := keyhash w;
     filteredQueue := filteredQueue w; ws_inbox := ws_inbox w; ws_outbox := ws_outbox w;
     ws_quota := ws_quota w; rand_Reader := r; stdout := stdout w |}.

Definition print (l : line) (w : World) : World :=
  {| Vault := Vault w; authToken := authToken w; keyhash := keyhash w;
     filteredQueue := filteredQueue w; ws_inbox := ws_inbox w; ws_outbox := ws_outbox w;
     ws_quota := ws_quota w; rand_Reader := rand_Reader w; stdout := stdout w ++ [l] |}.

(** Effectful functions: state passing over the world. *)
Definition M (A : Type) : Type := StM World A.

Definition printf (l : line) : M unit := fun w => (Ok tt, print l w).

Section Api.
Context (C : CryptoLib) (J : JsonLib).
Local Open Scope M_scope.

(** *** The socket *)

Definition ws_WriteJSON (msg : message) : M unit := fun w =>
  match ws_quota w with
  | O => (Err "write: connection closed", w)
  | S _ => (Ok tt, ws_write (JSONFrame msg) w)
  end.

Definition ws_WriteMessage (msg : bytes) : M unit := fun w =>
  match ws_quota w with
  | O => (Err "write: connection closed", w)
  | S _ => (Ok tt, ws_write (BinaryFrame msg) w)
  end.

Definition ws_ReadMessage : M bytes := fun w =>
  match ws_inbox w with
  | [] => (Err "read: connection closed", w)
  | msg :: rest => (Ok msg, set_ws_inbox rest w)
  end.

(** [json.Marshal] of a value [WriteJSON] has just encoded does not fail. *)
Definition sendMessage (msg : message) : M unit :=
  wrap "could not send message: " (ws_WriteJSON msg) ;;
  printf (Sent (JSONFrame msg)).

Definition sendBinary (msg : bytes) : M unit :=
  wrap "could not send message: " (ws_WriteMessage msg) ;;
  printf (Sent (BinaryFrame msg)).

Definition nextMessage : M bytes :=
  msg <- wrap "error reading message: " ws_ReadMessage ;;
  printf (Received msg) ;;
  ret msg.

(** *** filter.go *)

(** The first loop of [nextMessageMatching]: index and value of the first
    queued message the matcher accepts. *)
Fixpoint scanQueue (matcher : bytes → bool) (i : nat) (q : list bytes)
  : option (nat * bytes) :=
  match q with
  | [] => None
  | msg :: q' => if matcher msg then Some (i, msg) else scanQueue matcher (S i) q'
  end.

(** The three ways the loop body drops index [i] from the queue. *)
Definition removeQueued (i : nat) (q : list bytes) : list bytes :=
  if decide (i = 0) then drop 1 q
  else if decide (i = length q - 1) then take i q
  else take i q ++ drop (S i) q.

(** The second loop. Every turn reads one frame, so one turn more than
    there are frames in the inbox reaches the failing read. *)
Fixpoint readUntil (matcher : bytes → bool) (turns : nat) : M bytes :=
  match turns with
  | O => lift (Panic "unreachable: more turns than frames")
  | S turns' =>
    msg <- wrap "could not read message: " nextMessage ;;
    if matcher msg then
      printf (Matched msg) ;;
      ret msg
    else
      (fun w => (Ok tt, set_filteredQueue (filteredQueue w ++ [msg]) w)) ;;
      readUntil matcher turns'
  end.

Definition nextMessageMatching (matcher : bytes → bool) : M bytes := fun w =>
  match scanQueue matcher 0 (filteredQueue w) with
  | Some (i, msg) =>
    (Ok msg, print (Unqueued msg) (set_filteredQueue (removeQueued i (filteredQueue w)) w))
  | None => readUntil matcher (S (length (ws_inbox w))) w
  end.

(** The closure [nextMessageMatchingJson] hands to [nextMessageMatching]. *)
Definition jsonMatcher (matcher : gmap string jval → bool) (msg : bytes) : bool :=
  match Unmarshal_map J msg with
  | Failure _ => false
  | Success msgMap => matcher msgMap
  end.

Definition nextMessageMatchingJson (matcher : gmap string jval → bool) : M bytes :=
  nextMessageMatching (jsonMatcher matcher).

Definition nextMessageWithJsonKeys (keys : list string) : M bytes :=
  nextMessageMatchingJson (fun msgMap =>
    forallb (fun key => bool_decide (is_Some (msgMap !! key))) keys).

Definition nextMessageWithJsonValue (key : string) (value : string) : M bytes :=
  nextMessageMatchingJson (fun msgMap =>
    bool_decide (msgMap !! key = Some (JString value))).

Definition nextBinaryMessage : M bytes :=
  nextMessageMatching (fun msg =>
    match Unmarshal_map J msg with
    | Failure _ => true
    | Success _ => false
    end).

(** *** The session protocol *)

Definition password : M bytes := fun w => (Ok (bytes_of (Password (Vault w))), w).
Definition salt : M bytes := fun w => (Ok (bytes_of (Salt (Vault w))), w).

Definition opIs (op : string) (json : gmap string jval) : bool :=
  bool_decide (json !! "op" = Some (JString op)).

Definition pushOrReady (json : gmap string jval) : bool :=
  opIs "push" json || opIs "ready" json.

(** The [for] loop of [SendInit]. Every turn takes one frame from the
    queue or from the socket. *)
Fixpoint SendInit_loop (turns : nat) (pushedFiles : list IncomingPushMessage)
  : M InitResult :=
  match turns with
  | O => lift (Panic "unreachable: more turns than frames")
  | S turns' =>
    response <- wrap "error reading message: " (nextMessageMatchingJson pushOrReady) ;;
    data <- call "error unmarshalling message: " (Unmarshal_map J response) ;;
    if opIs "push" data then
      fileData <- call "error unmarshalling push message: "
                    (Unmarshal_IncomingPushMessage J response) ;;
      SendInit_loop turns' (pushedFiles ++ [fileData])
    else if opIs "ready" data then
      readyData <- call "error unmarshalling ready message: "
                     (Unmarshal_ready J response) ;;
      ret {| RemoteUid := readyData; PushedFiles := pushedFiles |}
    else
      fail ("expected push or ready message, got " +:+ string_of response)
  end.

Definition SendInit : M InitResult := fun w =>
  (wrap "could not send init message: "
     (sendMessage (MsgInit (Id (Vault w)) (authToken w) (keyhash w) 0 true "obsidian-sync")) ;;
   response <- wrap "error reading message: " (nextMessageWithJsonValue "res" "ok") ;;
   data <- call "error unmarshalling message: " (Unmarshal_res J response) ;;
   if negb (bool_decide (data = "ok")) then
     fail ("expected ok message, got " +:+ data)
   else
     fun w' => SendInit_loop (S (length (filteredQueue w') + length (ws_inbox w'))) [] w') w.

Definition GetSizeConfig : M (Z * Z) :=
  wrap "could not send size message: " (sendMessage MsgSize) ;;
  response <- wrap "error reading size message: " (nextMessageWithJsonKeys ["size"; "limit"]) ;;
  sizeResponse <- call "error unmarshalling size message: "
                    (Unmarshal_SizeResponse J response) ;;
  ret sizeResponse.

(** The piece loop of [PullFile]: [n] binary frames appended to [data]. *)
Fixpoint readPieces (n : nat) (data : bytes) : M bytes :=
  match n with
  | O => ret data
  | S n' =>
    message <- wrap "error reading piece: " nextBinaryMessage ;;
    readPieces n' (data ++ message)
  end.

Definition PullFile (uid : Z) (expectedEncryptedHash : string) : M bytes :=
  wrap "could not send pull message: " (sendMessage (MsgPull uid)) ;;
  header <- wrap "error reading header: "
              (nextMessageWithJsonKeys ["hash"; "size"; "pieces"]) ;;
  headerMessage <- call "could not unmarshal pull header message: "
                     (Unmarshal_PullHeaderMessage J header) ;;
  printf (HeaderInfo uid (hdr_Size headerMessage) (hdr_Pieces headerMessage)) ;;
  data <- readPieces (Z.to_nat (hdr_Pieces headerMessage)) [] ;;
  if negb (bool_decide (Z.of_nat (length data) = hdr_Size headerMessage)) then
    fail "decrypted data size does not match size in header"
  else
    pw <- password ;;
    slt <- salt ;;
    decryptedData <- wrap "could not decrypt data: " (lift (crypto.Decrypt C data pw slt)) ;;
    let contentSum := sha256_Sum256 C decryptedData in
    decryptedExpectedHash <- wrap "could not decrypt expected hash: "
                               (lift (crypto.DecryptString C expectedEncryptedHash pw slt)) ;;
    expectedHashBytes <- call "could not decode expected hash: "
                           (hex_DecodeString C decryptedExpectedHash) ;;
    if negb (bool_decide (contentSum = expectedHashBytes)) then
      fail "decrypted content hash does not match expected hash"
    else
      ret decryptedData.

Definition Encrypt (input pw slt : bytes) : M bytes := fun w =>
  let '(o, r) := crypto.Encrypt C input pw slt (rand_Reader w) in
  (o, set_rand_Reader r w).

Definition PushFile (path extension : string) (ctime mtime : Z)
    (folder deleted : bool) (content : bytes) : M unit :=
  pw <- password ;;
  slt <- salt ;;
  encryptedContent <- wrap "could not encrypt content: " (Encrypt content pw slt) ;;
  encryptedPath <- wrap "could not encrypt path: " (Encrypt (bytes_of path) pw slt) ;;
  let contentSum := sha256_Sum256 C content in
  encryptedContentSum <- wrap "could not encrypt content sum: " (Encrypt contentSum pw slt) ;;
  let message :=
    {| out_Op := "push";
       out_Path := hex_EncodeToString C encryptedPath;
       out_Ext := extension;
       out_Hash := hex_EncodeToString C encryptedContentSum;
       out_Ctime := ctime;
       out_Mtime := mtime;
       out_Folder := folder;
       out_Deleted := deleted;
       out_Size := Z.of_nat (length encryptedContent);
       out_Pieces := 1 |} in
  wrap "could not send push message: " (sendMessage (MsgPush message)) ;;
  response <- wrap "error reading next response: " (nextMessageWithJsonValue "res" "next") ;;
  nextResponse <- call "could not unmarshal next response: " (Unmarshal_res J response) ;;
  if negb (bool_decide (nextResponse = "next")) then
    fail "next response is not 'next'"
  else
    wrap "could not send encrypted content: " (sendBinary encryptedContent) ;;
    response <- wrap "error reading push response: " (nextMessageWithJsonValue "op" "push") ;;
    pushResponse <- call "could not unmarshal push response: "
                      (Unmarshal_IncomingPushMessage J response) ;;
    response <- wrap "error reading ok response: " (nextMessageWithJsonValue "op" "ok") ;;
    okResponse <- call "could not unmarshal ok response: " (Unmarshal_op J response) ;;
    if negb (bool_decide (okResponse = "ok")) then
      fail "ok response is not 'ok'"
    else
      ret tt.

(** *** Vocabulary of the properties *)

(** A frame the matcher turns down. *)
Definition rejected (matcher : bytes → bool) (msg : bytes) : Prop := matcher msg = false.

(** The world after the socket loop has read some frames: [queued] went to
    the end of the queue, [rest] is still in the inbox, [printed] was
    printed. *)
Definition afterReads (w : World) (queued rest : list bytes) (printed : list line)
  : World :=
  {| Vault := Vault w; authToken := authToken w; keyhash := keyhash w;
     filteredQueue := filteredQueue w ++ queued; ws_inbox := rest;
     ws_outbox := ws_outbox w; ws_quota := ws_quota w;
     rand_Reader := rand_Reader w; stdout := stdout w ++ printed |}.

(** A frame that does not parse as a JSON object. *)
Definition binary (msg : bytes) : Prop :=
  ∀ m, Unmarshal_map J msg ≠ Success m.

(** What [PullFile] does once the pieces are in: the size check, then
    decryption, then the hash check. *)
Definition verify (expectedEncryptedHash : string) (size : Z) (data : bytes) : M bytes :=
  (if negb (bool_decide (Z.of_nat (length data) = size)) then
     fail "decrypted data size does not match size in header"
   else
     pw <- password ;;
     slt <- salt ;;
     decryptedData <- wrap "could not decrypt data: " (lift (crypto.Decrypt C data pw slt)) ;;
     let contentSum := sha256_Sum256 C decryptedData in
     decryptedExpectedHash <- wrap "could not decrypt expected hash: "
                                (lift (crypto.DecryptString C expectedEncryptedHash pw slt)) ;;
     expectedHashBytes <- call "could not decode expected hash: "
                            (hex_DecodeString C decryptedExpectedHash) ;;
     if negb (bool_decide (contentSum = expectedHashBytes)) then
       fail "decrypted content hash does not match expected hash"
     else
       ret decryptedData)%M.

(** [w'] is reached from [w] by receiving only: nothing was written, no
    random byte was drawn, and standard output was only added to. *)
Definition onlyReads (w w' : World) : Prop :=
  Vault w' = Vault w ∧ ws_outbox w' = ws_outbox w ∧ ws_quota w' = ws_quota w ∧
  rand_Reader w' = rand_Reader w ∧ ∃ t, stdout w' = stdout w ++ t.

(** The frames the loop of [SendInit] waits for. *)
Definition awaited (msg : bytes) : bool := jsonMatcher pushOrReady msg.

(** A push frame the loop can decode. *)
Definition decodablePush (msg : bytes) : Prop :=
  ∃ m d, Unmarshal_map J msg = Success m ∧ opIs "push" m = true ∧
         Unmarshal_IncomingPushMessage J msg = Success d.

(** A ready frame carrying the version counter [v]. *)
Definition readyWith (v : Z) (msg : bytes) : Prop :=
  ∃ m, Unmarshal_map J msg = Success m ∧ opIs "push" m = false ∧
       opIs "ready" m = true ∧ Unmarshal_ready J msg = Success v.

(** The pushes of a burst, decoded, in arrival order; and the frames of
    the burst that are neither push nor ready. *)
Definition pushesOf (burst : list bytes) : list IncomingPushMessage :=
  omap (fun f =>
          if awaited f then
            match Unmarshal_IncomingPushMessage J f with
            | Success d => Some d
            | Failure _ => None
            end
          else None) burst.

Definition othersOf (burst : list bytes) : list bytes :=
  filter (fun f => awaited f = false) burst.

End Api.

(** *** Opening a session *)


End api.

(** ** Package sync *)

Module sync.

Record ObsidianRemoteEntry : Type := {
  Uid : Z;
  EncryptedPath : string;
  EncryptedHash : string;
  r_Created : Z;
  r_Modified : Z;
  r_IsFolder : bool;
}.

Record ObsidianLocalEntry : Type := {
  Path : string;
  Created : Z;
  Modified : Z;
  IsFolder : bool;
}.

Record State : Type := {
  LocalFiles : gmap string ObsidianLocalEntry;
  RemoteEntries : gmap string ObsidianRemoteEntry;
  LastSync : Z;
  Size : Z;
  Limit : Z;
}.

(** The zero values a missing map key reads as. *)
Definition zeroRemote : ObsidianRemoteEntry :=
  {| Uid := 0; EncryptedPath := ""; EncryptedHash := "";
     r_Created := 0; r_Modified := 0; r_IsFolder := false |}.

Definition zeroLocal : ObsidianLocalEntry :=
  {| Path := ""; Created := 0; Modified := 0; IsFolder := false |}.

Definition set_LocalFiles (m : gmap string ObsidianLocalEntry) (s : State) : State :=
  {| LocalFiles := m; RemoteEntries := RemoteEntries s;
     LastSync := LastSync s; Size := Size s; Limit := Limit s |}.

Definition set_RemoteEntries (m : gmap string ObsidianRemoteEntry) (s : State) : State :=
  {| LocalFiles := LocalFiles s; RemoteEntries := m;
     LastSync := LastSync s; Size := Size s; Limit := Limit s |}.

Definition set_LastSync (t : Z) (s : State) : State :=
  {| LocalFiles := LocalFiles s; RemoteEntries := RemoteEntries s;
     LastSync := t; Size := Size s; Limit := Limit s |}.

Definition UpdateWithPush (push : api.IncomingPushMessage) (s : State) : State :=
  if api.Deleted push then
    set_RemoteEntries (delete (api.EncryptedPath push) (RemoteEntries s)) s
  else
    set_RemoteEntries
      (<[api.EncryptedPath push :=
           {| EncryptedPath := api.EncryptedPath push;
              r_IsFolder := api.Folder push;
              EncryptedHash := api.EncryptedHash push;
              Uid := api.Uid push;
              r_Created := api.Ctime push;
              r_Modified := api.Mtime push |}]> (RemoteEntries s)) s.

(** *** The decision step of [SyncFiles] *)

(** The five slices the two [range] loops fill, each in append order. *)
Record Plan : Type := {
  pullPaths : list string;
  pushPaths : list string;
  newFolderPaths : list string;
  deletePaths : list string;
  conflictPaths : list string;
}.

Definition emptyPlan : Plan :=
  {| pullPaths := []; pushPaths := []; newFolderPaths := [];
     deletePaths := []; conflictPaths := [] |}.

Definition addPull (path : string) (p : Plan) : Plan :=
  {| pullPaths := pullPaths p ++ [path]; pushPaths := pushPaths p;
     newFolderPaths := newFolderPaths p; deletePaths := deletePaths p;
     conflictPaths := conflictPaths p |}.
Definition addPush (path : string) (p : Plan) : Plan :=
  {| pullPaths := pullPaths p; pushPaths := pushPaths p ++ [path];
     newFolderPaths := newFolderPaths p; deletePaths := deletePaths p;
     conflictPaths := conflictPaths p |}.
Definition addNewFolder (path : string) (p : Plan) : Plan :=
  {| pullPaths := pullPaths p; pushPaths := pushPaths p;
     newFolderPaths := newFolderPaths p ++ [path]; deletePaths := deletePaths p;
     conflictPaths := conflictPaths p |}.
Definition addDelete (path : string) (p : Plan) : Plan :=
  {| pullPaths := pullPaths p; pushPaths := pushPaths p;
     newFolderPaths := newFolderPaths p; deletePaths := deletePaths p ++ [path];
     conflictPaths := conflictPaths p |}.
Definition addConflict (path : string) (p : Plan) : Plan :=
  {| pullPaths := pullPaths p; pushPaths := pushPaths p;
     newFolderPaths := newFolderPaths p; deletePaths := deletePaths p;
     conflictPaths := conflictPaths p ++ [path] |}.

Definition when (b : bool) (f : Plan → Plan) (p : Plan) : Plan :=
  if b then f p else p.

(** Body of [for path, remoteFile := range s.RemoteEntries]. *)
Definition remoteStep (s : State) (p : Plan) (kv : string * ObsidianRemoteEntry) : Plan :=
  let '(path, remoteFile) := kv in
  match LocalFiles s !! path with
  | Some localFile =>
    let p :=
      if negb (eqb (IsFolder localFile) (r_IsFolder remoteFile)) then
        let p := addDelete path p in
        if IsFolder localFile then addPull path p else addNewFolder path p
      else p in
    if negb (IsFolder localFile) then
      let p := when (Modified localFile <? r_Modified remoteFile)%Z (addPull path) p in
      when (Modified localFile >? r_Modified remoteFile)%Z (addConflict path) p
    else p
  | None =>
    if r_IsFolder remoteFile then addNewFolder path p else addPull path p
  end.

(** Body of [for path, localFile := range s.LocalFiles]. *)
Definition localStep (s : State) (p : Plan) (kv : string * ObsidianLocalEntry) : Plan :=
  let '(path, localFile) := kv in
  match RemoteEntries s !! path with
  | None =>
    let remoteFile := zeroRemote in
    let p := when (Modified localFile >? r_Modified remoteFile)%Z (addPush path) p in
    when (Created localFile <? LastSync s)%Z (addDelete path) p
  | Some _ => p
  end.

(** [range] over a Go map visits every entry once, in an order the language
    leaves open: any permutation of the entries. *)
Definition rangeOrder {V} (m : gmap string V) (order : list (string * V)) : Prop :=
  order ≡ₚ map_to_list m.

Definition decide_ (s : State)
    (remoteOrder : list (string * ObsidianRemoteEntry))
    (localOrder : list (string * ObsidianLocalEntry)) : Plan :=
  foldl (localStep s) (foldl (remoteStep s) emptyPlan remoteOrder) localOrder.

(** *** Vocabulary of the properties *)

(** Every step only appends to the five slices. *)
Definition extends (step : Plan → Plan) : Prop :=
  ∀ p,
    pullPaths (step p) = pullPaths p ++ pullPaths (step emptyPlan) ∧
    pushPaths (step p) = pushPaths p ++ pushPaths (step emptyPlan) ∧
    newFolderPaths (step p) = newFolderPaths p ++ newFolderPaths (step emptyPlan) ∧
    deletePaths (step p) = deletePaths p ++ deletePaths (step emptyPlan) ∧
    conflictPaths (step p) = conflictPaths p ++ conflictPaths (step emptyPlan).

(** The paths a plan names. *)
Definition mentions (p : Plan) (x : string) : Prop :=
  x ∈ pullPaths p ∨ x ∈ pushPaths p ∨ x ∈ newFolderPaths p ∨
  x ∈ deletePaths p ∨ x ∈ conflictPaths p.

(** The four sets of C5 taken pairwise. *)
Definition pairwiseDisjoint (p : Plan) : Prop :=
  ∀ x,
    ¬ (x ∈ pullPaths p ∧ x ∈ pushPaths p) ∧
    ¬ (x ∈ pullPaths p ∧ x ∈ deletePaths p) ∧
    ¬ (x ∈ pullPaths p ∧ x ∈ conflictPaths p) ∧
    ¬ (x ∈ pushPaths p ∧ x ∈ deletePaths p) ∧
    ¬ (x ∈ pushPaths p ∧ x ∈ conflictPaths p) ∧
    ¬ (x ∈ deletePaths p ∧ x ∈ conflictPaths p).

(** A property of the receiver, read on the pair [SyncFiles] works on. *)
Definition onState (I : State → Prop) : State * api.World → Prop :=
  fun st => I st.1.

(** *** The execution step of [SyncFiles] *)

Section Sync.
Context (C : CryptoLib) (J : api.JsonLib).
(** [os.ReadFile] and the clock reading [time.Now().UnixNano()]. *)
Context (os_ReadFile : string → result bytes) (time_Now_UnixNano : Z).
Local Open Scope M_scope.

(** [SyncFiles] works on its receiver and on the socket context. *)
Definition SM (A : Type) : Type := StM (State * api.World) A.

Definition onSocket {A} (m : api.M A) : SM A := fun '(s, w) =>
  let '(o, w') := m w in (o, (s, w')).
Definition getState : SM State := fun '(s, w) => (Ok s, (s, w)).
Definition modify (f : State → State) : SM unit := fun '(s, w) => (Ok tt, (f s, w)).

Definition decryptPath (path : string) : SM string :=
  pw <- onSocket api.password ;;
  slt <- onSocket api.salt ;;
  wrap "error decrypting path: " (lift (crypto.DecryptString C path pw slt)).

Definition showConflict (path : string) : SM unit :=
  decryptedPath <- decryptPath path ;;
  onSocket (api.printf (api.Conflict decryptedPath)).

Definition doDelete (path : string) : SM unit :=
  decryptedPath <- decryptPath path ;;
  onSocket (api.printf (api.Deleting decryptedPath)) ;;
  modify (fun s => set_LocalFiles (delete path (LocalFiles s)) s).

Definition doNewFolder (path : string) : SM unit :=
  decryptedPath <- decryptPath path ;;
  onSocket (api.printf (api.CreatingFolder decryptedPath)) ;;
  modify (fun s => set_LocalFiles
    (<[path := {| Path := decryptedPath; Created := 0; Modified := 0;
                  IsFolder := true |}]> (LocalFiles s)) s).

Definition doPull (path : string) : SM unit :=
  decryptedPath <- decryptPath path ;;
  s <- getState ;;
  let pullEntry := default zeroRemote (RemoteEntries s !! path) in
  onSocket (api.printf (api.Pulling decryptedPath (Uid pullEntry))) ;;
  content <- wrap "error pulling file: "
               (onSocket (api.PullFile C J (Uid pullEntry) (EncryptedHash pullEntry))) ;;
  onSocket (api.printf (api.Contents decryptedPath content)) ;;
  modify (fun s => set_LocalFiles
    (<[path := {| Path := decryptedPath; Created := r_Created pullEntry;
                  Modified := r_Modified pullEntry;
                  IsFolder := r_IsFolder pullEntry |}]> (LocalFiles s)) s).

Definition doPush (path : string) : SM unit :=
  s <- getState ;;
  let pushEntry := default zeroLocal (LocalFiles s !! path) in
  onSocket (api.printf (api.Pushing path)) ;;
  contents <- call "error reading file from disk: " (os_ReadFile path) ;;
  wrap "error pushing file: "
    (onSocket (api.PushFile C J (Path pushEntry) "md" (Created pushEntry)
                 (Modified pushEntry) false false contents)).

Definition execute (p : Plan) : SM unit :=
  onSocket (api.printf (api.Summary (length (deletePaths p)) (length (conflictPaths p))
                      (length (pushPaths p)) (length (pullPaths p))
                      (length (newFolderPaths p)))) ;;
  forEach (conflictPaths p) showConflict ;;
  forEach (deletePaths p) doDelete ;;
  forEach (newFolderPaths p) doNewFolder ;;
  forEach (pullPaths p) doPull ;;
  forEach (pushPaths p) doPush ;;
  modify (set_LastSync (time_Now_UnixNano `quot` 1000000)) ;;
  s <- getState ;;
  onSocket (api.printf (api.SyncComplete (LastSync s))).

Definition SyncFiles
    (remoteOrder : list (string * ObsidianRemoteEntry))
    (localOrder : list (string * ObsidianLocalEntry)) : SM unit := fun '(s, w) =>
  execute (decide_ s remoteOrder localOrder) (s, w).

End Sync.
End sync.

(** ** An implementation of the library interfaces

    Small, executable stand-ins for the libraries, on which the model can
    be run on concrete frames. The cipher keeps the plaintext in clear and
    appends a 16-byte checksum tag; the digest is a checksum; the JSON
    decoder reads compact objects whose values are strings without escapes,
    integers, booleans and null. *)

Module instance.

(** *** Hex *)

Definition hexchar (n : N) : ascii :=
  if (n <? 10)%N then ascii_of_N (48 + n) else ascii_of_N (87 + n).

Definition hexval (c : ascii) : option N :=
  let n := N_of_ascii c in
  if ((48 <=? n) && (n <=? 57))%N then Some (n - 48)%N
  else if ((97 <=? n) && (n <=? 102))%N then Some (n - 87)%N
  else if ((65 <=? n) && (n <=? 70))%N then Some (n - 55)%N
  else None.

Fixpoint EncodeToString (b : bytes) : string :=
  match b with
  | [] => ""
  | x :: r =>
    String (hexchar (Byte.to_N x / 16)) (String (hexchar (Byte.to_N x mod 16))
      (EncodeToString r))
  end.

Fixpoint DecodeString (s : string) : result bytes :=
  match s with
  | EmptyString => Success []
  | String _ EmptyString => Failure "encoding/hex: odd length hex string"
  | String a (String b r) =>
    match hexval a, hexval b with
    | Some h, Some l =>
      match Byte.of_N (16 * h + l), DecodeString r with
      | Some x, Success t => Success (x :: t)
      | _, Failure e => Failure e
      | None, _ => Failure "encoding/hex: invalid byte"
      end
    | _, _ => Failure "encoding/hex: invalid byte"
    end
  end.

(** *** Cipher and digest *)

Definition checksum (l : bytes) : byte :=
  default Byte.x00
    (Byte.of_N (foldr (fun x acc => (Byte.to_N x + acc) mod 256)%N 0%N l)).

Definition Key (password salt : bytes) (N r p keyLen : Z) : result bytes :=
  Success (take (Z.to_nat keyLen) (password ++ salt ++ replicate (Z.to_nat keyLen) Byte.x00)).

Definition NewCipher (key : bytes) : result bytes :=
  if bool_decide (length key ∈ [16; 24; 32]) then Success key
  else Failure "crypto/aes: invalid key size".

Definition NewGCM (block : bytes) : result bytes := Success block.

Definition tag (g nonce plaintext : bytes) : bytes :=
  replicate 16 (checksum (g ++ nonce ++ plaintext)).

Definition Seal (g nonce plaintext : bytes) : bytes :=
  plaintext ++ tag g nonce plaintext.

Definition Open (g nonce ciphertext : bytes) : result bytes :=
  if decide (16 ≤ length ciphertext) then
    let plaintext := take (length ciphertext - 16) ciphertext in
    if decide (drop (length ciphertext - 16) ciphertext = tag g nonce plaintext)
    then Success plaintext
    else Failure "cipher: message authentication failed"
  else Failure "cipher: message authentication failed".

Definition Sum256 (l : bytes) : bytes := replicate 31 Byte.x00 ++ [checksum l].

Definition cryptoLib : CryptoLib :=
  {| Block := bytes; AEAD := bytes;
     scrypt_Key := Key; aes_NewCipher := NewCipher; cipher_NewGCM := NewGCM;
     gcm_Seal := Seal; gcm_Open := Open; sha256_Sum256 := Sum256;
     hex_EncodeToString := EncodeToString; hex_DecodeString := DecodeString |}.

(** *** JSON *)

Definition quote : ascii := ascii_of_nat 34.

(** Frames are written with [']  for the double quote. *)
Fixpoint jq (s : string) : string :=
  match s with
  | EmptyString => EmptyString
  | String c r => String (if Ascii.eqb c "'"%char then quote else c) (jq r)
  end.

Definition frameOf (s : string) : bytes := bytes_of (jq s).

Fixpoint strip (prefix s : string) : option string :=
  match prefix, s with
  | EmptyString, _ => Some s
  | String a p, String b r => if Ascii.eqb a b then strip p r else None
  | _, _ => None
  end.

(** The characters up to the closing quote, and what follows it. *)
Fixpoint untilQuote (s : string) : option (string * string) :=
  match s with
  | EmptyString => None
  | String c r =>
    if Ascii.eqb c quote then Some (EmptyString, r)
    else match untilQuote r with
         | Some (a, r') => Some (String c a, r')
         | None => None
         end
  end.

Definition isDigit (c : ascii) : bool :=
  let n := N_of_ascii c in ((48 <=? n) && (n <=? 57))%N.

Fixpoint digits (acc : Z) (s : string) : Z * string :=
  match s with
  | String c r =>
    if isDigit c then digits (10 * acc + Z.of_N (N_of_ascii c) - 48)%Z r
    else (acc, s)
  | EmptyString => (acc, s)
  end.

Definition value (s : string) : option (api.jval * string) :=
  match s with
  | EmptyString => None
  | String c r =>
    if Ascii.eqb c quote then
      match untilQuote r with
      | Some (v, r') => Some (api.JString v, r')
      | None => None
      end
    else if Ascii.eqb c "-"%char then
      match r with
      | String d _ =>
        if isDigit d then let '(n, r') := digits 0 r in Some (api.JNumber (- n), r')
        else None
      | EmptyString => None
      end
    else if isDigit c then
      let '(n, r') := digits 0 s in Some (api.JNumber n, r')
    else
      match strip "true" s, strip "false" s, strip "null" s with
      | Some r', _, _ => Some (api.JBool true, r')
      | _, Some r', _ => Some (api.JBool false, r')
      | _, _, Some r' => Some (api.JNull, r')
      | _, _, _ => None
      end
  end.

(** The members of an object after its opening brace. *)
Fixpoint members (fuel : nat) (s : string) : option (list (string * api.jval)) :=
  match fuel with
  | O => None
  | S fuel' =>
    match s with
    | String c r =>
      if Ascii.eqb c quote then
        match untilQuote r with
        | Some (k, String colon r1) =>
          if Ascii.eqb colon ":"%char then
            match value r1 with
            | Some (v, String sep r2) =>
              if Ascii.eqb sep ","%char then
                match members fuel' r2 with
                | Some l => Some ((k, v) :: l)
                | None => None
                end
              else if Ascii.eqb sep "}"%char then
                match r2 with EmptyString => Some [(k, v)] | _ => None end
              else None
            | _ => None
            end
          else None
        | _ => None
        end
      else None
    | EmptyString => None
    end
  end.

Definition object (s : string) : result (list (string * api.jval)) :=
  let bad := Failure "invalid character looking for beginning of value" in
  if String.eqb s "null" then Success []
  else if String.eqb s "{}" then Success []
  else match s with
       | String c r =>
         if Ascii.eqb c "{"%char then
           match members (String.length r) r with
           | Some l => Success l
           | None => bad
           end
         else bad
       | EmptyString => Failure "unexpected end of JSON input"
       end.

(** A later duplicate of a key wins. *)
Definition field (k : string) (l : list (string * api.jval)) : option api.jval :=
  list_to_map (M := gmap string api.jval) (reverse l) !! k.

Definition stringField (k : string) (l : list (string * api.jval)) : result string :=
  match field k l with
  | None | Some api.JNull => Success ""
  | Some (api.JString v) => Success v
  | Some _ => Failure ("json: cannot unmarshal into Go struct field " +:+ k)
  end.

Definition intField (k : string) (l : list (string * api.jval)) : result Z :=
  match field k l with
  | None | Some api.JNull => Success 0%Z
  | Some (api.JNumber v) => Success v
  | Some _ => Failure ("json: cannot unmarshal into Go struct field " +:+ k)
  end.

Definition boolField (k : string) (l : list (string * api.jval)) : result bool :=
  match field k l with
  | None | Some api.JNull => Success false
  | Some (api.JBool v) => Success v
  | Some _ => Failure ("json: cannot unmarshal into Go struct field " +:+ k)
  end.

Definition rbind {A B} (r : result A) (k : A → result B) : result B :=
  match r with Success a => k a | Failure e => Failure e end.

Definition decode {A} (f : list (string * api.jval) → result A) (msg : bytes) : result A :=
  rbind (object (string_of msg)) f.

Definition jsonLib : api.JsonLib :=
  {| api.Unmarshal_map := decode (fun l => Success (list_to_map (reverse l)));
     api.Unmarshal_res := decode (stringField "res");
     api.Unmarshal_op := decode (stringField "op");
     api.Unmarshal_ready := decode (intField "version");
     api.Unmarshal_IncomingPushMessage := decode (fun l =>
       rbind (stringField "op" l) (fun op =>
       rbind (stringField "path" l) (fun path =>
       rbind (stringField "hash" l) (fun hash =>
       rbind (intField "size" l) (fun size =>
       rbind (intField "ctime" l) (fun ctime =>
       rbind (intField "mtime" l) (fun mtime =>
       rbind (boolField "folder" l) (fun folder =>
       rbind (boolField "deleted" l) (fun deleted =>
       rbind (stringField "device" l) (fun device =>
       rbind (intField "uid" l) (fun uid =>
       Success {| api.Op := op; api.EncryptedPath := path; api.EncryptedHash := hash;
                  api.Size := size; api.Ctime := ctime; api.Mtime := mtime;
                  api.Folder := folder; api.Deleted := deleted;
                  api.Device := device; api.Uid := uid |})))))))))));
     api.Unmarshal_PullHeaderMessage := decode (fun l =>
       rbind (stringField "hash" l) (fun hash =>
       rbind (intField "size" l) (fun size =>
       rbind (intField "pieces" l) (fun pieces =>
       Success {| api.hdr_Hash := hash; api.hdr_Size := size;
                  api.hdr_Pieces := pieces |}))));
     api.Unmarshal_SizeResponse := decode (fun l =>
       rbind (intField "size" l) (fun size =>
       rbind (intField "limit" l) (fun limit => Success (size, limit)))) |}.

End instance.

(** ** Concrete sessions and states *)

Module examples.

Definition vault : api.VaultInfo :=
  {| api.Id := "v1"; api.Name := "notes"; api.Password := "hunter2";
     api.Salt := "pepper"; api.Host := "sync.example" |}.

Definition pw : bytes := bytes_of (api.Password vault).
Definition slt : bytes := bytes_of (api.Salt vault).

(** A fresh context, as [ConnectToVault] builds it, in front of a peer that
    will deliver [inbox]. *)
Definition session (inbox : list bytes) (entropy : string) : api.World :=
  {| api.Vault := vault; api.authToken := "token"; api.keyhash := "kh";
     api.filteredQueue := []; api.ws_inbox := inbox; api.ws_outbox := [];
     api.ws_quota := 16; api.rand_Reader := bytes_of entropy; api.stdout := [] |}.

(** Handshake frames. *)
Definition ackFrame : bytes := instance.frameOf "{'res':'ok'}".
Definition pongFrame : bytes := instance.frameOf "{'op':'pong'}".
Definition pushFrame : bytes :=
  instance.frameOf "{'op':'push','path':'ab12','hash':'cd34','size':5,'ctime':10,'mtime':20,'folder':false,'deleted':false,'device':'phone','uid':3}".
Definition readyFrame : bytes := instance.frameOf "{'op':'ready','version':7}".
Definition sizeFrame : bytes := instance.frameOf "{'size':1,'limit':2}".

Definition pushed : api.IncomingPushMessage :=
  {| api.Op := "push"; api.EncryptedPath := "ab12"; api.EncryptedHash := "cd34";
     api.Size := 5; api.Ctime := 10; api.Mtime := 20; api.Folder := false;
     api.Deleted := false; api.Device := "phone"; api.Uid := 3 |}.

(** A handshake during which a pong arrives before the ready frame. *)
Definition pongDuringHandshake : api.World :=
  session [ackFrame; pongFrame; readyFrame] "".

Definition busyHandshake : api.World :=
  session [ackFrame; pongFrame; pushFrame; readyFrame; sizeFrame] "".

(** A queue holding three frames, read with a matcher for ready frames. *)
Definition queued : api.World :=
  {| api.Vault := vault; api.authToken := "token"; api.keyhash := "kh";
     api.filteredQueue := [pongFrame; readyFrame; pushFrame];
     api.ws_inbox := [sizeFrame]; api.ws_outbox := [];
     api.ws_quota := 16; api.rand_Reader := []; api.stdout := [] |}.

Definition isReady (msg : bytes) : bool :=
  api.jsonMatcher instance.jsonLib (api.opIs "ready") msg.

(** A pull whose header declares 99 bytes while one piece of 33 bytes
    arrives. *)
Definition headerFrame : bytes := instance.frameOf "{'hash':'00','size':99,'pieces':1}".
Definition pieceFrame : bytes := bytes_of "0123456789abhello0000000000000000".

Definition pulling : api.World := session [headerFrame; pieceFrame] "".
Definition pulling1 : api.World := (api.sendMessage (api.MsgPull 5) pulling).2.
Definition pulling2 : api.World :=
  (api.nextMessageWithJsonKeys instance.jsonLib ["hash"; "size"; "pieces"] pulling1).2.
Definition pullHeader : api.PullHeaderMessage :=
  {| api.hdr_Hash := "00"; api.hdr_Size := 99; api.hdr_Pieces := 1 |}.
Definition pulling3 : api.World :=
  (api.readPieces instance.jsonLib 1 []
     (api.print (api.HeaderInfo 5 99 1) pulling2)).2.

(** A push answered as the protocol expects. *)
Definition nextFrame : bytes := instance.frameOf "{'res':'next'}".
Definition okFrame : bytes := instance.frameOf "{'op':'ok'}".
Definition pushing : api.World :=
  session [nextFrame; pushFrame; okFrame] "0123456789abcdefghijklmnopqrstuvwxyzABCD".

Definition pushedContent : bytes := bytes_of "hi".
Definition encryptedContent : bytes :=
  take 12 (api.rand_Reader pushing)
    ++ instance.Seal (take 32 (pw ++ slt ++ replicate 32 Byte.x00))
         (take 12 (api.rand_Reader pushing)) pushedContent.
Definition encryptedPath : bytes :=
  take 12 (drop 12 (api.rand_Reader pushing))
    ++ instance.Seal (take 32 (pw ++ slt ++ replicate 32 Byte.x00))
         (take 12 (drop 12 (api.rand_Reader pushing))) (bytes_of "a.md").
Definition encryptedContentSum : bytes :=
  take 12 (drop 24 (api.rand_Reader pushing))
    ++ instance.Seal (take 32 (pw ++ slt ++ replicate 32 Byte.x00))
         (take 12 (drop 24 (api.rand_Reader pushing)))
         (instance.Sum256 pushedContent).
Definition pushRun : outcome unit * api.World :=
  api.PushFile instance.cryptoLib instance.jsonLib "a.md" "md" 1 2 false false
    pushedContent pushing.

(** Local and remote maps. [both] has the same path as a file on both
    sides, the local one modified later, and a folder on both sides;
    [kindChange] has a path that is a folder locally and a file remotely. *)
Definition remoteFile (mtime : Z) : sync.ObsidianRemoteEntry :=
  {| sync.Uid := 3; sync.EncryptedPath := "ab12"; sync.EncryptedHash := "cd34";
     sync.r_Created := 10; sync.r_Modified := mtime; sync.r_IsFolder := false |}.
Definition remoteFolder : sync.ObsidianRemoteEntry :=
  {| sync.Uid := 4; sync.EncryptedPath := "ef56"; sync.EncryptedHash := "";
     sync.r_Created := 1; sync.r_Modified := 2; sync.r_IsFolder := true |}.
Definition localFile (mtime : Z) : sync.ObsidianLocalEntry :=
  {| sync.Path := "a.md"; sync.Created := 10; sync.Modified := mtime;
     sync.IsFolder := false |}.
Definition localFolder : sync.ObsidianLocalEntry :=
  {| sync.Path := "docs"; sync.Created := 5; sync.Modified := 900;
     sync.IsFolder := true |}.

Definition both : sync.State :=
  {| sync.LocalFiles := {[ "ab12" := localFile 300; "ef56" := localFolder ]};
     sync.RemoteEntries := {[ "ab12" := remoteFile 100; "ef56" := remoteFolder ]};
     sync.LastSync := 50; sync.Size := 0; sync.Limit := 0 |}.

Definition kindChange : sync.State :=
  {| sync.LocalFiles := {[ "ab12" := localFolder ]};
     sync.RemoteEntries := {[ "ab12" := remoteFile 100 ]};
     sync.LastSync := 50; sync.Size := 0; sync.Limit := 0 |}.

Definition noFiles (path : string) : result bytes := Failure "no such file".

End examples.

(** ** Package cmd: choosing the vault and the password

    The terminal is the list of what the calls of [fmt.Scanln] will do, each
    storing a value or not and returning an error or not, and the list of
    what was printed. [api.ListVaults] (an HTTP call), [strconv.Atoi] and
    [sync.Sync] are taken as functions. *)

Module cmd.

Inductive output : Type :=
| VaultChoice (number : Z) (name : string)   (* "%d. %s\n" *)
| Prompt (prompt : string)                   (* fmt.Print(prompt) *)
| ReadError (e : error).                     (* "Error reading input: %s\n" *)

Record scan : Type := {
  stored : option string;
  failed : option error;
}.

Record Terminal : Type := {
  stdin : list scan;
  stdout : list output;
}.

Definition show (o : output) : StM Terminal unit := fun t =>
  (Ok tt, {| stdin := stdin t; stdout := stdout t ++ [o] |}).

(** [fmt.Scanln(value)]: the value afterwards and the error. At the end of
    the input nothing is stored and the error is [EOF]. *)
Definition fmt_Scanln (value : string) : StM Terminal (string * option error) := fun t =>
  match stdin t with
  | [] => (Ok (value, Some "EOF"), t)
  | s :: rest =>
    (Ok (default value (stored s), failed s), {| stdin := rest; stdout := stdout t |})
  end.

Definition promptFor (prompt value : string) : StM Terminal string :=
  (show (Prompt prompt) ;;
   r <- fmt_Scanln value ;;
   match r.2 with
   | Some err => show (ReadError err) ;; ret r.1
   | None => ret r.1
   end)%M.

(** [l[i]], which panics outside [0 <= i < len(l)]. *)
Definition index {A} (l : list A) (i : Z) : outcome A :=
  match l !! Z.to_nat i with
  | Some a => if decide (0 ≤ i)%Z then Ok a else Panic "index out of range"
  | None => Panic "index out of range"
  end.

Section Cmd.
Context (ListVaults : string → result (list api.VaultInfo))
        (strconv_Atoi : string → result Z)
        (Sync : string → api.VaultInfo → string → bool → outcome unit).
Local Open Scope M_scope.

(** [for i, vault := range vaults { fmt.Printf("%d. %s\n", i+1, vault.Name) }] *)
Definition printChoices (vaults : list api.VaultInfo) : StM Terminal unit :=
  forEach (imap (fun i vault => (i, vault)) vaults)
    (fun '(i, vault) => show (VaultChoice (Z.of_nat i + 1) (api.Name vault))).

Definition promptForNeededInfoThenSync (authToken vaultId password : string)
    (daemon : bool) : StM Terminal unit :=
  if decide (authToken = "") then fail "no auth token provided"
  else
    vaultInfo <-
      (if decide (vaultId = "") then
         vaults <- call "error listing vaults: " (ListVaults authToken) ;;
         printChoices vaults ;;
         vaultNum <- promptFor "Select vault: " "" ;;
         vaultNumInt <- call "error parsing vault number: " (strconv_Atoi vaultNum) ;;
         if (vaultNumInt <? 1)%Z || (vaultNumInt >? Z.of_nat (length vaults))%Z then
           fail "invalid vault number"
         else
           lift (index vaults (vaultNumInt - 1))
       else
         vaults <- call "error listing vaults: " (ListVaults authToken) ;;
         match List.find (fun v => bool_decide (api.Id v = vaultId)) vaults with
         | Some v => ret v
         | None => fail "vault not found"
         end) ;;
    password <-
      (if decide (password = "") then
         if decide (api.Password vaultInfo ≠ "") then ret (api.Password vaultInfo)
         else promptFor "Vault Password: " password
       else ret password) ;;
    wrap "error syncing: " (lift (Sync authToken vaultInfo password daemon)).

End Cmd.
End cmd.

(** ** The state a session starts from *)

Module startup.

(** What [Sync] builds between the handshake and its first pass: fresh
    maps, the size and the limit the server reported, and every push of the
    handshake applied in arrival order. *)
Definition initialState (size limit : Z) (pushedFiles : list api.IncomingPushMessage)
  : sync.State :=
  foldl (fun syncState push => sync.UpdateWithPush push syncState)
    {| sync.LocalFiles := ∅; sync.RemoteEntries := ∅;
       sync.LastSync := 0; sync.Size := size; sync.Limit := limit |}
    pushedFiles.

(** The remote entry [UpdateWithPush] stores for a push. *)
Definition entryOf (push : api.IncomingPushMessage) : sync.ObsidianRemoteEntry :=
  {| sync.EncryptedPath := api.EncryptedPath push;
     sync.r_IsFolder := api.Folder push;
     sync.EncryptedHash := api.EncryptedHash push;
     sync.Uid := api.Uid push;
     sync.r_Created := api.Ctime push;
     sync.r_Modified := api.Mtime push |}.

(** The last push of the handshake that names [path], if any. *)
Definition lastPush (path : string) (pushedFiles : list api.IncomingPushMessage)
  : option api.IncomingPushMessage :=
  last (filter (fun push => api.EncryptedPath push = path) pushedFiles).

End startup.

(** ** A first pass and a pull that succeed *)

Module cases.

(** A note sealed as [Encrypt] seals it, under the vault of the examples
    and a fixed nonce. *)
Definition nonce : bytes := bytes_of "0123456789ab".
Definition key : bytes :=
  take 32 (examples.pw ++ examples.slt ++ replicate 32 Byte.x00).
Definition sealed (plaintext : bytes) : bytes :=
  nonce ++ instance.Seal key nonce plaintext.

Definition noteContent : bytes := bytes_of "hello".
Definition notePath : string := instance.EncodeToString (sealed (bytes_of "a.md")).
Definition noteHash : string :=
  instance.EncodeToString
    (sealed (bytes_of (instance.EncodeToString (instance.Sum256 noteContent)))).
Definition notePiece : bytes := sealed noteContent.
Definition noteHeader : bytes := instance.frameOf "{'hash':'00','size':33,'pieces':1}".

Definition remoteNote : sync.ObsidianRemoteEntry :=
  {| sync.Uid := 5; sync.EncryptedPath := notePath; sync.EncryptedHash := noteHash;
     sync.r_Created := 10; sync.r_Modified := 20; sync.r_IsFolder := false |}.

(** The note is known remotely only, and the peer answers the pull. *)
Definition firstSync : sync.State :=
  {| sync.LocalFiles := ∅; sync.RemoteEntries := {[ notePath := remoteNote ]};
     sync.LastSync := 0; sync.Size := 0; sync.Limit := 0 |}.
Definition answering : api.World := examples.session [noteHeader; notePiece] "".
Definition clock : Z := 1700000000000000000.

Definition firstPass : outcome unit * (sync.State * api.World) :=
  sync.SyncFiles instance.cryptoLib instance.jsonLib examples.noFiles clock
    (map_to_list (sync.RemoteEntries firstSync))
    (map_to_list (sync.LocalFiles firstSync)) (firstSync, answering).

(** Both sides hold the same file and the same folder. *)
Definition inSync : sync.State :=
  {| sync.LocalFiles :=
       {[ "ab12" := examples.localFile 100; "ef56" := examples.localFolder ]};
     sync.RemoteEntries :=
       {[ "ab12" := examples.remoteFile 100; "ef56" := examples.remoteFolder ]};
     sync.LastSync := 50; sync.Size := 0; sync.Limit := 0 |}.

(** The pass on [examples.both], whose conflicting path is not the hex form
    of an encryption. *)
Definition conflictPass : outcome unit * (sync.State * api.World) :=
  sync.SyncFiles instance.cryptoLib instance.jsonLib examples.noFiles clock
    (map_to_list (sync.RemoteEntries examples.both))
    (map_to_list (sync.LocalFiles examples.both))
    (examples.both, examples.session [] "").

(** A wait for the size answer behind a pong, and the size query. *)
Definition sizeWait : outcome bytes * api.World :=
  api.nextMessageWithJsonKeys instance.jsonLib ["size"; "limit"]
    (examples.session [examples.pongFrame; examples.sizeFrame] "").
Definition sizeQuery : outcome (Z * Z) * api.World :=
  api.GetSizeConfig instance.jsonLib
    (examples.session [examples.pongFrame; examples.sizeFrame] "").

(** The descriptor of [examples.pushRun]. *)
Definition pushedDescriptor : api.OutgoingPushMessage :=
  {| api.out_Op := "push";
     api.out_Path := instance.EncodeToString examples.encryptedPath;
     api.out_Ext := "md";
     api.out_Hash := instance.EncodeToString examples.encryptedContentSum;
     api.out_Ctime := 1; api.out_Mtime := 2;
     api.out_Folder := false; api.out_Deleted := false;
     api.out_Size := Z.of_nat (length examples.encryptedContent);
     api.out_Pieces := 1 |}.

(** A listing of two vaults, a terminal on which 2 is typed, and a [Sync]
    that succeeds. *)
Definition otherVault : api.VaultInfo :=
  {| api.Id := "v2"; api.Name := "work"; api.Password := "";
     api.Salt := "salt"; api.Host := "sync-2.example" |}.
Definition listed : list api.VaultInfo := [examples.vault; otherVault].
Definition ListVaults (token : string) : result (list api.VaultInfo) := Success listed.
Definition Atoi (s : string) : result Z :=
  match s with
  | EmptyString => Failure "invalid syntax"
  | _ =>
    match instance.digits 0 s with
    | (n, EmptyString) => Success n
    | _ => Failure "invalid syntax"
    end
  end.
Definition Sync (authToken : string) (vault : api.VaultInfo) (password : string)
    (daemon : bool) : outcome unit := Ok tt.
Definition typing : cmd.Terminal :=
  {| cmd.stdin := [ {| cmd.stored := Some "2"; cmd.failed := None |} ];
     cmd.stdout := [] |}.
Definition choosing : outcome unit * cmd.Terminal :=
  cmd.promptForNeededInfoThenSync ListVaults Atoi Sync "token" "" "secret" false typing.


End cases.

(** * Properties *)

(** ** The decision step *)

Module sync_facts.
Import sync.

Section Steps.
Context (s : State).


Lemma remoteStep_extends kv : extends (fun p => remoteStep s p kv).
Proof.
  intros p. destruct kv as [path r]. unfold remoteStep, when.
  destruct (LocalFiles s !! path) as [l|];
    repeat match goal with
           | |- context [if ?b then _ else _] => destruct b
           end;
    simpl; rewrite ?app_nil_r, <- ?app_assoc; repeat split; reflexivity.
Qed.

Lemma localStep_extends kv : extends (fun p => localStep s p kv).
Proof.
  intros p. destruct kv as [path l]. unfold localStep, when.
  destruct (RemoteEntries s !! path) as [r|];
    repeat match goal with
           | |- context [if ?b then _ else _] => destruct b
           end;
    simpl; rewrite ?app_nil_r, <- ?app_assoc; repeat split; reflexivity.
Qed.

(** What a fold of appending steps leaves in a slice: what was there, then
    the contribution of every visited entry. *)
Lemma foldl_extends {A} (step : Plan → A → Plan) (proj : Plan → list string)
      (l : list A) (p : Plan) :
  (∀ a q, proj (step q a) = proj q ++ proj (step emptyPlan a)) →
  proj (foldl step p l) = proj p ++ l ≫= (fun a => proj (step emptyPlan a)).
Proof.
  intros Hstep. revert p. induction l as [|a l IH]; intros p; simpl.
  - by rewrite app_nil_r.
  - rewrite IH, Hstep, <- app_assoc. reflexivity.
Qed.

Lemma elem_of_foldl_extends {A} (step : Plan → A → Plan) (proj : Plan → list string)
      (l : list A) (p : Plan) (x : string) :
  (∀ a q, proj (step q a) = proj q ++ proj (step emptyPlan a)) →
  x ∈ proj (foldl step p l) ↔
  x ∈ proj p ∨ ∃ a, a ∈ l ∧ x ∈ proj (step emptyPlan a).
Proof.
  intros Hstep. rewrite (foldl_extends _ _ _ _ Hstep), elem_of_app, list_elem_of_bind.
  split; (intros [H|(a & H1 & H2)]; [by left | right; by exists a]).
Qed.

(** The local loop adds nothing to the pull, new-folder and conflict
    slices; the remote loop adds nothing to the push slice. *)
Lemma localStep_pull kv : pullPaths (localStep s emptyPlan kv) = [].
Proof.
  destruct kv as [path l]. unfold localStep, when.
  destruct (RemoteEntries s !! path);
    repeat match goal with |- context [if ?b then _ else _] => destruct b end;
    reflexivity.
Qed.

Lemma localStep_newFolder kv : newFolderPaths (localStep s emptyPlan kv) = [].
Proof.
  destruct kv as [path l]. unfold localStep, when.
  destruct (RemoteEntries s !! path);
    repeat match goal with |- context [if ?b then _ else _] => destruct b end;
    reflexivity.
Qed.

Lemma localStep_conflict kv : conflictPaths (localStep s emptyPlan kv) = [].
Proof.
  destruct kv as [path l]. unfold localStep, when.
  destruct (RemoteEntries s !! path);
    repeat match goal with |- context [if ?b then _ else _] => destruct b end;
    reflexivity.
Qed.

Lemma remoteStep_push kv : pushPaths (remoteStep s emptyPlan kv) = [].
Proof.
  destruct kv as [path r]. unfold remoteStep, when.
  destruct (LocalFiles s !! path);
    repeat match goal with |- context [if ?b then _ else _] => destruct b end;
    reflexivity.
Qed.

(** A visited entry is an entry of the map. *)
Lemma rangeOrder_elem {V} (m : gmap string V) order path v :
  rangeOrder m order → (path, v) ∈ order ↔ m !! path = Some v.
Proof.
  unfold rangeOrder. intros Hp. rewrite Hp. apply elem_of_map_to_list.
Qed.


(** A step only ever appends the path it visits. *)
Lemma remoteStep_mentions path r x :
  mentions (remoteStep s emptyPlan (path, r)) x → x = path.
Proof.
  unfold mentions, remoteStep, when.
  destruct (LocalFiles s !! path);
    repeat match goal with |- context [if ?b then _ else _] => destruct b end;
    simpl; rewrite ?elem_of_cons, ?elem_of_nil; tauto.
Qed.

Lemma localStep_mentions path l x :
  mentions (localStep s emptyPlan (path, l)) x → x = path.
Proof.
  unfold mentions, localStep, when.
  destruct (RemoteEntries s !! path);
    repeat match goal with |- context [if ?b then _ else _] => destruct b end;
    simpl; rewrite ?elem_of_cons, ?elem_of_nil; tauto.
Qed.

Context (remoteOrder : list (string * ObsidianRemoteEntry))
        (localOrder : list (string * ObsidianLocalEntry)).

Lemma pullPaths_decide x :
  x ∈ pullPaths (decide_ s remoteOrder localOrder) ↔
  ∃ kv, kv ∈ remoteOrder ∧ x ∈ pullPaths (remoteStep s emptyPlan kv).
Proof.
  unfold decide_.
  rewrite (elem_of_foldl_extends (localStep s) pullPaths)
    by (intros a q; apply (localStep_extends a q)).
  rewrite (elem_of_foldl_extends (remoteStep s) pullPaths)
    by (intros a q; apply (remoteStep_extends a q)).
  simpl. split.
  - intros [[H|H]|(kv & _ & H)]; [by apply elem_of_nil in H | done |].
    rewrite localStep_pull in H. by apply elem_of_nil in H.
  - intros H. left. by right.
Qed.

Lemma newFolderPaths_decide x :
  x ∈ newFolderPaths (decide_ s remoteOrder localOrder) ↔
  ∃ kv, kv ∈ remoteOrder ∧ x ∈ newFolderPaths (remoteStep s emptyPlan kv).
Proof.
  unfold decide_.
  rewrite (elem_of_foldl_extends (localStep s) newFolderPaths)
    by (intros a q; apply (localStep_extends a q)).
  rewrite (elem_of_foldl_extends (remoteStep s) newFolderPaths)
    by (intros a q; apply (remoteStep_extends a q)).
  simpl. split.
  - intros [[H|H]|(kv & _ & H)]; [by apply elem_of_nil in H | done |].
    rewrite localStep_newFolder in H. by apply elem_of_nil in H.
  - intros H. left. by right.
Qed.

Lemma conflictPaths_decide x :
  x ∈ conflictPaths (decide_ s remoteOrder localOrder) ↔
  ∃ kv, kv ∈ remoteOrder ∧ x ∈ conflictPaths (remoteStep s emptyPlan kv).
Proof.
  unfold decide_.
  rewrite (elem_of_foldl_extends (localStep s) conflictPaths)
    by (intros a q; apply (localStep_extends a q)).
  rewrite (elem_of_foldl_extends (remoteStep s) conflictPaths)
    by (intros a q; apply (remoteStep_extends a q)).
  simpl. split.
  - intros [[H|H]|(kv & _ & H)]; [by apply elem_of_nil in H | done |].
    rewrite localStep_conflict in H. by apply elem_of_nil in H.
  - intros H. left. by right.
Qed.

Lemma pushPaths_decide x :
  x ∈ pushPaths (decide_ s remoteOrder localOrder) ↔
  ∃ kv, kv ∈ localOrder ∧ x ∈ pushPaths (localStep s emptyPlan kv).
Proof.
  unfold decide_.
  rewrite (elem_of_foldl_extends (localStep s) pushPaths)
    by (intros a q; apply (localStep_extends a q)).
  rewrite (elem_of_foldl_extends (remoteStep s) pushPaths)
    by (intros a q; apply (remoteStep_extends a q)).
  simpl. split.
  - intros [[H|(kv & _ & H)]|H]; [by apply elem_of_nil in H | | done].
    rewrite remoteStep_push in H. by apply elem_of_nil in H.
  - intros H. by right.
Qed.

Lemma deletePaths_decide x :
  x ∈ deletePaths (decide_ s remoteOrder localOrder) ↔
  (∃ kv, kv ∈ remoteOrder ∧ x ∈ deletePaths (remoteStep s emptyPlan kv)) ∨
  (∃ kv, kv ∈ localOrder ∧ x ∈ deletePaths (localStep s emptyPlan kv)).
Proof.
  unfold decide_.
  rewrite (elem_of_foldl_extends (localStep s) deletePaths)
    by (intros a q; apply (localStep_extends a q)).
  rewrite (elem_of_foldl_extends (remoteStep s) deletePaths)
    by (intros a q; apply (remoteStep_extends a q)).
  simpl. split.
  - intros [[H|H]|H]; [by apply elem_of_nil in H | by left | by right].
  - intros [H|H]; [left; by right | by right].
Qed.

Context (HremoteOrder : rangeOrder (RemoteEntries s) remoteOrder)
        (HlocalOrder : rangeOrder (LocalFiles s) localOrder).

(** With the orders being orders of the two maps, membership in a slice
    is a condition on the two entries of the path. *)
Lemma in_remote_slice (proj : Plan → list string) x :
  (∃ kv, kv ∈ remoteOrder ∧ x ∈ proj (remoteStep s emptyPlan kv)) →
  (∀ p, x ∈ proj p → mentions p x) →
  ∃ r, RemoteEntries s !! x = Some r ∧ x ∈ proj (remoteStep s emptyPlan (x, r)).
Proof.
  intros ([path r] & Hin & Hx) Hproj.
  assert (x = path) as -> by (eapply remoteStep_mentions, Hproj, Hx).
  exists r. split; [by apply (rangeOrder_elem _ remoteOrder) | done].
Qed.

Lemma in_local_slice (proj : Plan → list string) x :
  (∃ kv, kv ∈ localOrder ∧ x ∈ proj (localStep s emptyPlan kv)) →
  (∀ p, x ∈ proj p → mentions p x) →
  ∃ l, LocalFiles s !! x = Some l ∧ x ∈ proj (localStep s emptyPlan (x, l)).
Proof.
  intros ([path l] & Hin & Hx) Hproj.
  assert (x = path) as -> by (eapply localStep_mentions, Hproj, Hx).
  exists l. split; [by apply (rangeOrder_elem _ localOrder) | done].
Qed.

Lemma pull_iff x :
  x ∈ pullPaths (decide_ s remoteOrder localOrder) ↔
  ∃ r, RemoteEntries s !! x = Some r ∧ x ∈ pullPaths (remoteStep s emptyPlan (x, r)).
Proof.
  rewrite pullPaths_decide. split.
  - intros H. apply (in_remote_slice pullPaths); [done | unfold mentions; tauto].
  - intros (r & Hr & Hx). exists (x, r). split; [|done].
    by apply (rangeOrder_elem (RemoteEntries s)).
Qed.

Lemma newFolder_iff x :
  x ∈ newFolderPaths (decide_ s remoteOrder localOrder) ↔
  ∃ r, RemoteEntries s !! x = Some r ∧
       x ∈ newFolderPaths (remoteStep s emptyPlan (x, r)).
Proof.
  rewrite newFolderPaths_decide. split.
  - intros H. apply (in_remote_slice newFolderPaths); [done | unfold mentions; tauto].
  - intros (r & Hr & Hx). exists (x, r). split; [|done].
    by apply (rangeOrder_elem (RemoteEntries s)).
Qed.

Lemma conflict_iff x :
  x ∈ conflictPaths (decide_ s remoteOrder localOrder) ↔
  ∃ r, RemoteEntries s !! x = Some r ∧
       x ∈ conflictPaths (remoteStep s emptyPlan (x, r)).
Proof.
  rewrite conflictPaths_decide. split.
  - intros H. apply (in_remote_slice conflictPaths); [done | unfold mentions; tauto].
  - intros (r & Hr & Hx). exists (x, r). split; [|done].
    by apply (rangeOrder_elem (RemoteEntries s)).
Qed.

Lemma push_iff x :
  x ∈ pushPaths (decide_ s remoteOrder localOrder) ↔
  ∃ l, LocalFiles s !! x = Some l ∧ x ∈ pushPaths (localStep s emptyPlan (x, l)).
Proof.
  rewrite pushPaths_decide. split.
  - intros H. apply (in_local_slice pushPaths); [done | unfold mentions; tauto].
  - intros (l & Hl & Hx). exists (x, l). split; [|done].
    by apply (rangeOrder_elem (LocalFiles s)).
Qed.

Lemma delete_iff x :
  x ∈ deletePaths (decide_ s remoteOrder localOrder) ↔
  (∃ r, RemoteEntries s !! x = Some r ∧
        x ∈ deletePaths (remoteStep s emptyPlan (x, r))) ∨
  (∃ l, LocalFiles s !! x = Some l ∧ x ∈ deletePaths (localStep s emptyPlan (x, l))).
Proof.
  rewrite deletePaths_decide. split.
  - intros [H|H]; [left | right].
    + apply (in_remote_slice deletePaths); [done | unfold mentions; tauto].
    + apply (in_local_slice deletePaths); [done | unfold mentions; tauto].
  - intros [(r & Hr & Hx)|(l & Hl & Hx)]; [left; exists (x, r) | right; exists (x, l)].
    + split; [|done]. by apply (rangeOrder_elem (RemoteEntries s)).
    + split; [|done]. by apply (rangeOrder_elem (LocalFiles s)).
Qed.

End Steps.
End sync_facts.

(** ** UpdateWithPush *)

(** C9. [UpdateWithPush] on a push whose deleted flag is set removes the
    key [EncryptedPath push] from [RemoteEntries]; otherwise it maps that key
    to an entry carrying the uid, hash, creation time, modification time and
    folder flag of the push. In both cases every other key of
    [RemoteEntries], the whole [LocalFiles] map and the fields [LastSync],
    [Size] and [Limit] stay as they were. *)
Theorem C9_UpdateWithPush_frame (s : sync.State) (push : api.IncomingPushMessage) :
  let s' := sync.UpdateWithPush push s in
  (if api.Deleted push
   then sync.RemoteEntries s' !! api.EncryptedPath push = None
   else ∃ e,
       sync.RemoteEntries s' !! api.EncryptedPath push = Some e ∧
       sync.Uid e = api.Uid push ∧
       sync.EncryptedHash e = api.EncryptedHash push ∧
       sync.r_Created e = api.Ctime push ∧
       sync.r_Modified e = api.Mtime push ∧
       sync.r_IsFolder e = api.Folder push ∧
       sync.EncryptedPath e = api.EncryptedPath push) ∧
  (∀ k, k ≠ api.EncryptedPath push →
        sync.RemoteEntries s' !! k = sync.RemoteEntries s !! k) ∧
  sync.LocalFiles s' = sync.LocalFiles s ∧
  sync.LastSync s' = sync.LastSync s ∧
  sync.Size s' = sync.Size s ∧
  sync.Limit s' = sync.Limit s.
Proof.
  unfold sync.UpdateWithPush. destruct (api.Deleted push); simpl.
  - split; [apply lookup_delete_eq|].
    split; [|done]. intros k Hk. by apply lookup_delete_ne.
  - split.
    + eexists. split; [apply lookup_insert_eq|]. simpl. done.
    + split; [|done]. intros k Hk. by apply lookup_insert_ne.
Qed.

(** ** The decision sets *)

(** C10. A path present in both maps with both entries folders is put in
    none of the pull, push, delete, new-folder and conflict slices, whatever
    the creation and modification times. *)
Theorem C10_matching_folders_no_action
    (s : sync.State)
    (remoteOrder : list (string * sync.ObsidianRemoteEntry))
    (localOrder : list (string * sync.ObsidianLocalEntry))
    (path : string) (l : sync.ObsidianLocalEntry) (r : sync.ObsidianRemoteEntry) :
  sync.rangeOrder (sync.RemoteEntries s) remoteOrder →
  sync.rangeOrder (sync.LocalFiles s) localOrder →
  sync.LocalFiles s !! path = Some l →
  sync.RemoteEntries s !! path = Some r →
  sync.IsFolder l = true →
  sync.r_IsFolder r = true →
  let p := sync.decide_ s remoteOrder localOrder in
  (path ∉ sync.pullPaths p) ∧ (path ∉ sync.pushPaths p) ∧
  (path ∉ sync.deletePaths p) ∧ (path ∉ sync.newFolderPaths p) ∧
  (path ∉ sync.conflictPaths p).
Proof.
  intros Hro Hlo Hl Hr Hlf Hrf p. subst p.
  assert (Hstep : sync.remoteStep s sync.emptyPlan (path, r) = sync.emptyPlan).
  { unfold sync.remoteStep. rewrite Hl, Hlf, Hrf. reflexivity. }
  assert (Hstep' : ∀ l', sync.localStep s sync.emptyPlan (path, l') = sync.emptyPlan).
  { intros l'. unfold sync.localStep. by rewrite Hr. }
  repeat split.
  - rewrite (sync_facts.pull_iff s _ _ Hro). intros (r' & Hr' & Hx).
    rewrite Hr in Hr'. injection Hr' as <-. rewrite Hstep in Hx. by apply elem_of_nil in Hx.
  - rewrite (sync_facts.push_iff s _ _ Hlo). intros (l' & _ & Hx).
    rewrite Hstep' in Hx. by apply elem_of_nil in Hx.
  - rewrite (sync_facts.delete_iff s _ _ Hro Hlo). intros [(r' & Hr' & Hx)|(l' & _ & Hx)].
    + rewrite Hr in Hr'. injection Hr' as <-. rewrite Hstep in Hx. by apply elem_of_nil in Hx.
    + rewrite Hstep' in Hx. by apply elem_of_nil in Hx.
  - rewrite (sync_facts.newFolder_iff s _ _ Hro). intros (r' & Hr' & Hx).
    rewrite Hr in Hr'. injection Hr' as <-. rewrite Hstep in Hx. by apply elem_of_nil in Hx.
  - rewrite (sync_facts.conflict_iff s _ _ Hro). intros (r' & Hr' & Hx).
    rewrite Hr in Hr'. injection Hr' as <-. rewrite Hstep in Hx. by apply elem_of_nil in Hx.
Qed.

(** What one remote entry contributes, case by case. *)
Lemma remoteStep_delete_inv (s : sync.State) (x : string) (r : sync.ObsidianRemoteEntry) :
  x ∈ sync.deletePaths (sync.remoteStep s sync.emptyPlan (x, r)) →
  ∃ l, sync.LocalFiles s !! x = Some l ∧ sync.IsFolder l ≠ sync.r_IsFolder r.
Proof.
  unfold sync.remoteStep, sync.when.
  destruct (sync.LocalFiles s !! x) as [l|].
  - intros H. exists l. split; [done|].
    destruct (sync.IsFolder l), (sync.r_IsFolder r); simpl in H; try done;
      repeat match type of H with context [if ?b then _ else _] => destruct b end;
      simpl in H; by apply elem_of_nil in H.
  - destruct (sync.r_IsFolder r); simpl; intros H; by apply elem_of_nil in H.
Qed.

Lemma remoteStep_pull_conflict (s : sync.State) (x : string) (r : sync.ObsidianRemoteEntry) :
  x ∈ sync.pullPaths (sync.remoteStep s sync.emptyPlan (x, r)) →
  x ∈ sync.conflictPaths (sync.remoteStep s sync.emptyPlan (x, r)) →
  False.
Proof.
  unfold sync.remoteStep, sync.when.
  destruct (sync.LocalFiles s !! x) as [l|].
  - rewrite Z.gtb_ltb.
    destruct (sync.IsFolder l), (sync.r_IsFolder r); simpl;
      destruct (Z.ltb_spec (sync.Modified l) (sync.r_Modified r));
      destruct (Z.ltb_spec (sync.r_Modified r) (sync.Modified l));
      simpl; rewrite ?elem_of_nil; try tauto; lia.
  - destruct (sync.r_IsFolder r); simpl; rewrite ?elem_of_nil; tauto.
Qed.

Lemma localStep_present (s : sync.State) (x : string) (l : sync.ObsidianLocalEntry) :
  is_Some (sync.RemoteEntries s !! x) →
  sync.localStep s sync.emptyPlan (x, l) = sync.emptyPlan.
Proof. intros [r Hr]. unfold sync.localStep. by rewrite Hr. Qed.

(** C5, as the code has it. The pull, push and conflict slices are pairwise
    disjoint. The delete slice is not disjoint from the pull slice: a path
    that is a folder locally and a file remotely is put in both (delete,
    then pull); and a path of the delete slice is in the pull or the
    conflict slice only if its local and remote entries differ in kind. *)
Theorem C5_decision_sets_overlap_only_on_kind_change
    (s : sync.State)
    (remoteOrder : list (string * sync.ObsidianRemoteEntry))
    (localOrder : list (string * sync.ObsidianLocalEntry)) :
  sync.rangeOrder (sync.RemoteEntries s) remoteOrder →
  sync.rangeOrder (sync.LocalFiles s) localOrder →
  let p := sync.decide_ s remoteOrder localOrder in
  (∀ x, x ∈ sync.pullPaths p → x ∈ sync.pushPaths p → False) ∧
  (∀ x, x ∈ sync.pullPaths p → x ∈ sync.conflictPaths p → False) ∧
  (∀ x, x ∈ sync.pushPaths p → x ∈ sync.conflictPaths p → False) ∧
  (∀ x, x ∈ sync.deletePaths p →
        x ∈ sync.pullPaths p ∨ x ∈ sync.conflictPaths p →
        ∃ l r, sync.LocalFiles s !! x = Some l ∧
               sync.RemoteEntries s !! x = Some r ∧
               sync.IsFolder l ≠ sync.r_IsFolder r) ∧
  (∀ x l r, sync.LocalFiles s !! x = Some l →
            sync.RemoteEntries s !! x = Some r →
            sync.IsFolder l = true → sync.r_IsFolder r = false →
            x ∈ sync.deletePaths p ∧ x ∈ sync.pullPaths p).
Proof.
  intros Hro Hlo p. subst p.
  split; [|split; [|split; [|split; [|intros x l r Hl Hr Hlf Hrf; split]]]].
  - intros x. rewrite (sync_facts.pull_iff s _ _ Hro), (sync_facts.push_iff s _ _ Hlo).
    intros (r & Hr & _) (l & _ & Hx).
    rewrite localStep_present in Hx by eauto. by apply elem_of_nil in Hx.
  - intros x. rewrite (sync_facts.pull_iff s _ _ Hro), (sync_facts.conflict_iff s _ _ Hro).
    intros (r & Hr & Hp) (r' & Hr' & Hc).
    rewrite Hr in Hr'. injection Hr' as <-. eapply remoteStep_pull_conflict; eauto.
  - intros x. rewrite (sync_facts.push_iff s _ _ Hlo), (sync_facts.conflict_iff s _ _ Hro).
    intros (l & _ & Hx) (r & Hr & _).
    rewrite localStep_present in Hx by eauto. by apply elem_of_nil in Hx.
  - intros x. rewrite (sync_facts.delete_iff s _ _ Hro Hlo),
      (sync_facts.pull_iff s _ _ Hro), (sync_facts.conflict_iff s _ _ Hro).
    intros Hd Hpc.
    assert (∃ r, sync.RemoteEntries s !! x = Some r) as [r Hr].
    { destruct Hpc as [(r & Hr & _)|(r & Hr & _)]; eauto. }
    destruct Hd as [(r' & Hr' & Hx)|(l & _ & Hx)].
    + rewrite Hr in Hr'. injection Hr' as <-.
      apply remoteStep_delete_inv in Hx as (l & Hl & Hkind). eauto.
    + rewrite localStep_present in Hx by eauto. by apply elem_of_nil in Hx.
  - rewrite (sync_facts.delete_iff s _ _ Hro Hlo). left. exists r. split; [done|].
    unfold sync.remoteStep. rewrite Hl, Hlf, Hrf. simpl. apply list_elem_of_here.
  - rewrite (sync_facts.pull_iff s _ _ Hro). exists r. split; [done|].
    unfold sync.remoteStep. rewrite Hl, Hlf, Hrf. simpl. apply list_elem_of_here.
Qed.

(** ** Invariants of effectful runs *)


Section Preserves.
Context {St : Type} (I : St → Prop).

Lemma preserves_ret {A} (a : A) : preserves I (ret a).
Proof. intros st o st' [= <- <-]. done. Qed.

Lemma preserves_fail {A} e : preserves I (@fail St A e).
Proof. intros st o st' [= <- <-]. done. Qed.

Lemma preserves_lift {A} (x : outcome A) : preserves I (lift x).
Proof. intros st o st' [= <- <-]. done. Qed.

Lemma preserves_bind {A B} (m : StM St A) (k : A → StM St B) :
  preserves I m → (∀ a, preserves I (k a)) → preserves I (bind m k).
Proof.
  intros Hm Hk st o st'. unfold bind.
  destruct (m st) as [[a|e|p] st1] eqn:E; intros H HI.
  - eapply Hk; eauto.
  - injection H as <- <-. eauto.
  - injection H as <- <-. eauto.
Qed.

Lemma preserves_wrap {A} prefix (m : StM St A) :
  preserves I m → preserves I (wrap prefix m).
Proof.
  intros Hm st o st'. unfold wrap.
  destruct (m st) as [o1 st1] eqn:E. intros [= <- <-]. eauto.
Qed.

Lemma preserves_call {A} prefix (r : result A) : preserves I (call prefix r).
Proof. apply preserves_wrap, preserves_lift. Qed.

Lemma preserves_forEach {A} (l : list A) (body : A → StM St unit) :
  (∀ x, x ∈ l → preserves I (body x)) → preserves I (forEach l body).
Proof.
  induction l as [|x l IH]; intros Hbody; simpl.
  - apply preserves_ret.
  - apply preserves_bind.
    + apply Hbody, list_elem_of_here.
    + intros _. apply IH. intros y Hy. by apply Hbody, list_elem_of_further.
Qed.
End Preserves.

Section SyncPreserves.
Context (C : CryptoLib) (J : api.JsonLib).
Context (os_ReadFile : string → result bytes) (time_Now_UnixNano : Z).
Context (I : sync.State → Prop).

Lemma preserves_onSocket {A} (m : api.M A) : preserves (sync.onState I) (sync.onSocket m).
Proof.
  intros [s w] o [s' w']. unfold sync.onSocket.
  destruct (m w) as [o1 w1]. intros [= <- <- <-]. done.
Qed.

Lemma preserves_getState : preserves (sync.onState I) sync.getState.
Proof. intros [s w] o [s' w'] [= <- <- <-]. done. Qed.

Lemma preserves_modify f : (∀ s, I s → I (f s)) → preserves (sync.onState I) (sync.modify f).
Proof. intros Hf [s w] o [s' w'] [= <- <- <-]. apply Hf. Qed.

Lemma preserves_decryptPath path : preserves (sync.onState I) (sync.decryptPath C path).
Proof.
  unfold sync.decryptPath.
  apply preserves_bind; [apply preserves_onSocket|intros pw].
  apply preserves_bind; [apply preserves_onSocket|intros slt].
  apply preserves_wrap, preserves_lift.
Qed.

Lemma preserves_showConflict path : preserves (sync.onState I) (sync.showConflict C path).
Proof.
  unfold sync.showConflict.
  apply preserves_bind; [apply preserves_decryptPath|intros d].
  apply preserves_onSocket.
Qed.

Lemma preserves_doPush path :
  preserves (sync.onState I) (sync.doPush C J os_ReadFile path).
Proof.
  unfold sync.doPush.
  apply preserves_bind; [apply preserves_getState|intros s].
  apply preserves_bind; [apply preserves_onSocket|intros _].
  apply preserves_bind; [apply preserves_call|intros contents].
  apply preserves_wrap, preserves_onSocket.
Qed.

Lemma preserves_doDelete path :
  (∀ s, I s → I (sync.set_LocalFiles (delete path (sync.LocalFiles s)) s)) →
  preserves (sync.onState I) (sync.doDelete C path).
Proof.
  intros HI. unfold sync.doDelete.
  apply preserves_bind; [apply preserves_decryptPath|intros d].
  apply preserves_bind; [apply preserves_onSocket|intros _].
  by apply preserves_modify.
Qed.

Lemma preserves_doNewFolder path :
  (∀ s e, I s → I (sync.set_LocalFiles (<[path := e]> (sync.LocalFiles s)) s)) →
  preserves (sync.onState I) (sync.doNewFolder C path).
Proof.
  intros HI. unfold sync.doNewFolder.
  apply preserves_bind; [apply preserves_decryptPath|intros d].
  apply preserves_bind; [apply preserves_onSocket|intros _].
  apply preserves_modify. intros s. apply HI.
Qed.

Lemma preserves_doPull path :
  (∀ s e, I s → I (sync.set_LocalFiles (<[path := e]> (sync.LocalFiles s)) s)) →
  preserves (sync.onState I) (sync.doPull C J path).
Proof.
  intros HI. unfold sync.doPull.
  apply preserves_bind; [apply preserves_decryptPath|intros d].
  apply preserves_bind; [apply preserves_getState|intros s].
  apply preserves_bind; [apply preserves_onSocket|intros _].
  apply preserves_bind; [apply preserves_wrap, preserves_onSocket|intros content].
  apply preserves_bind; [apply preserves_onSocket|intros _].
  apply preserves_modify. intros s0. apply HI.
Qed.
End SyncPreserves.

(** ** Conflicts are flagged and left alone *)

(** C4. A path present in both maps as files, the local one modified
    strictly later than the remote one, is put in the conflict slice and in
    no other slice; the delete, new-folder, pull and push loops therefore
    never visit it, and however the pass ends, the path's [LocalFiles] entry
    and the [RemoteEntries] map are what they were before the pass. *)
Theorem C4_conflict_flagged_and_left_alone
    (C : CryptoLib) (J : api.JsonLib)
    (os_ReadFile : string → result bytes) (time_Now_UnixNano : Z)
    (s : sync.State)
    (remoteOrder : list (string * sync.ObsidianRemoteEntry))
    (localOrder : list (string * sync.ObsidianLocalEntry))
    (path : string) (l : sync.ObsidianLocalEntry) (r : sync.ObsidianRemoteEntry) :
  sync.rangeOrder (sync.RemoteEntries s) remoteOrder →
  sync.rangeOrder (sync.LocalFiles s) localOrder →
  sync.LocalFiles s !! path = Some l →
  sync.RemoteEntries s !! path = Some r →
  sync.IsFolder l = false →
  sync.r_IsFolder r = false →
  (sync.Modified l > sync.r_Modified r)%Z →
  let p := sync.decide_ s remoteOrder localOrder in
  path ∈ sync.conflictPaths p ∧
  (path ∉ sync.pullPaths p) ∧ (path ∉ sync.pushPaths p) ∧
  (path ∉ sync.deletePaths p) ∧ (path ∉ sync.newFolderPaths p) ∧
  ∀ w o s' w',
    sync.SyncFiles C J os_ReadFile time_Now_UnixNano remoteOrder localOrder (s, w)
      = (o, (s', w')) →
    sync.LocalFiles s' !! path = Some l ∧
    sync.RemoteEntries s' !! path = Some r ∧
    sync.RemoteEntries s' = sync.RemoteEntries s.
Proof.
  intros Hro Hlo Hl Hr Hlf Hrf Hnewer p. subst p.
  assert (Hstep : sync.remoteStep s sync.emptyPlan (path, r)
                  = sync.addConflict path sync.emptyPlan).
  { unfold sync.remoteStep, sync.when. rewrite Hl, Hlf, Hrf. simpl.
    rewrite Z.gtb_ltb.
    destruct (Z.ltb_spec (sync.Modified l) (sync.r_Modified r)); [lia|].
    destruct (Z.ltb_spec (sync.r_Modified r) (sync.Modified l)); [done|lia]. }
  assert (Hpull : path ∉ sync.pullPaths (sync.decide_ s remoteOrder localOrder)).
  { rewrite (sync_facts.pull_iff s _ _ Hro). intros (r' & Hr' & Hx).
    rewrite Hr in Hr'. injection Hr' as <-. rewrite Hstep in Hx.
    by apply elem_of_nil in Hx. }
  assert (Hpush : path ∉ sync.pushPaths (sync.decide_ s remoteOrder localOrder)).
  { rewrite (sync_facts.push_iff s _ _ Hlo). intros (l' & _ & Hx).
    rewrite localStep_present in Hx by eauto. by apply elem_of_nil in Hx. }
  assert (Hdel : path ∉ sync.deletePaths (sync.decide_ s remoteOrder localOrder)).
  { rewrite (sync_facts.delete_iff s _ _ Hro Hlo).
    intros [(r' & Hr' & Hx)|(l' & _ & Hx)].
    - rewrite Hr in Hr'. injection Hr' as <-. rewrite Hstep in Hx.
      by apply elem_of_nil in Hx.
    - rewrite localStep_present in Hx by eauto. by apply elem_of_nil in Hx. }
  assert (Hnew : path ∉ sync.newFolderPaths (sync.decide_ s remoteOrder localOrder)).
  { rewrite (sync_facts.newFolder_iff s _ _ Hro). intros (r' & Hr' & Hx).
    rewrite Hr in Hr'. injection Hr' as <-. rewrite Hstep in Hx.
    by apply elem_of_nil in Hx. }
  split; [|repeat (split; [done|])].
  { rewrite (sync_facts.conflict_iff s _ _ Hro). exists r. split; [done|].
    rewrite Hstep. apply list_elem_of_here. }
  intros w o s' w' Hrun.
  set (I := fun st : sync.State =>
              sync.LocalFiles st !! path = Some l ∧
              sync.RemoteEntries st = sync.RemoteEntries s).
  assert (Hins : ∀ q st e, q ≠ path → I st →
            I (sync.set_LocalFiles (<[q := e]> (sync.LocalFiles st)) st)).
  { intros q st e Hq [H1 H2]. split; [|done]. simpl. by rewrite lookup_insert_ne. }
  assert (Hrem : ∀ q st, q ≠ path → I st →
            I (sync.set_LocalFiles (delete q (sync.LocalFiles st)) st)).
  { intros q st Hq [H1 H2]. split; [|done]. simpl. by rewrite lookup_delete_ne. }
  assert (Hkeep : preserves (sync.onState I)
            (sync.execute C J os_ReadFile time_Now_UnixNano
               (sync.decide_ s remoteOrder localOrder))).
  { unfold sync.execute.
    apply preserves_bind; [apply (preserves_onSocket I)|intros _].
    apply preserves_bind.
    { apply preserves_forEach. intros q _. apply (preserves_showConflict C I). }
    intros _. apply preserves_bind.
    { apply preserves_forEach. intros q Hq. apply (preserves_doDelete C I).
      intros st. apply Hrem. intros ->. by apply Hdel. }
    intros _. apply preserves_bind.
    { apply preserves_forEach. intros q Hq. apply (preserves_doNewFolder C I).
      intros st e. apply Hins. intros ->. by apply Hnew. }
    intros _. apply preserves_bind.
    { apply preserves_forEach. intros q Hq. apply (preserves_doPull C J I).
      intros st e. apply Hins. intros ->. by apply Hpull. }
    intros _. apply preserves_bind.
    { apply preserves_forEach. intros q Hq. apply (preserves_doPush C J os_ReadFile I). }
    intros _. apply preserves_bind.
    { apply (preserves_modify I). intros st [H1 H2]. split; done. }
    intros _. apply preserves_bind; [apply (preserves_getState I)|intros st].
    apply (preserves_onSocket I). }
  assert (HI : I s').
  { apply (Hkeep (s, w) o (s', w') Hrun). split; done. }
  destruct HI as [H1 H2]. repeat split; [done| |done]. by rewrite H2.
Qed.

(** ** The match-and-buffer router *)

Module api_facts.
Import api.


Ltac world_eq :=
  unfold afterReads, print, set_ws_inbox, set_filteredQueue, set_rand_Reader, ws_write;
  simpl; rewrite ?app_nil_r, <- ?app_assoc; try reflexivity.

Section Filter.
Context (matcher : bytes → bool).

Lemma scanQueue_found i pre msg post :
  Forall (rejected matcher) pre → matcher msg = true →
  scanQueue matcher i (pre ++ msg :: post) = Some (i + length pre, msg).
Proof.
  intros Hpre Hmsg. revert i. induction Hpre as [|m pre Hm _ IH]; intros i; simpl.
  - rewrite Hmsg. do 2 f_equal. lia.
  - rewrite Hm, IH. do 2 f_equal. lia.
Qed.

Lemma scanQueue_none i q : Forall (rejected matcher) q → scanQueue matcher i q = None.
Proof.
  intros Hq. revert i. induction Hq as [|m q Hm _ IH]; intros i; simpl; [done|].
  by rewrite Hm.
Qed.

Lemma scanQueue_Some i q j msg :
  scanQueue matcher i q = Some (j, msg) →
  ∃ pre post, q = pre ++ msg :: post ∧ Forall (rejected matcher) pre ∧
              matcher msg = true ∧ j = i + length pre.
Proof.
  revert i. induction q as [|m q IH]; intros i; simpl; [done|].
  destruct (matcher m) eqn:Hm.
  - intros H. injection H as Hi Hmsg. subst j msg. exists [], q.
    split; [done|]. split; [constructor|]. split; [done|]. simpl. lia.
  - intros H. apply IH in H as (pre & post & -> & Hpre & Hmsg & ->).
    exists (m :: pre), post.
    split; [done|]. split; [by constructor|]. split; [done|]. simpl. lia.
Qed.

Lemma scanQueue_None i q : scanQueue matcher i q = None → Forall (rejected matcher) q.
Proof.
  revert i. induction q as [|m q IH]; intros i; simpl; [constructor|].
  destruct (matcher m) eqn:Hm; [done|]. intros H. constructor; [done|by eapply IH].
Qed.

(** Each of the three removals yields the queue without position [i]. *)
Lemma removeQueued_spec pre msg post :
  removeQueued (length pre) (pre ++ msg :: post) = pre ++ post.
Proof.
  unfold removeQueued. destruct (decide (length pre = 0)) as [H0|H0].
  - destruct pre; [done|simpl in H0; lia].
  - rewrite length_app. simpl.
    destruct (decide (length pre = length pre + S (length post) - 1)) as [H1|H1].
    + assert (post = []) as -> by (destruct post; [done|simpl in H1; lia]).
      rewrite take_app_length. by rewrite app_nil_r.
    + rewrite take_app_length.
      replace (S (length pre)) with (length pre + 1) by lia.
      by rewrite drop_app_add.
Qed.
Lemma readUntil_match pre msg post turns w :
  Forall (rejected matcher) pre → matcher msg = true →
  ws_inbox w = pre ++ msg :: post →
  length pre < turns →
  readUntil matcher turns w =
    (Ok msg,
     afterReads w pre post ((Received <$> pre) ++ [Received msg; Matched msg])).
Proof.
  intros Hpre Hmsg. revert turns w.
  induction Hpre as [|m pre Hm _ IH]; intros turns w Hin Hturns;
    (destruct turns as [|turns]; [simpl in Hturns; lia|]).
  - simpl. unfold bind, wrap, nextMessage, bind, wrap, ws_ReadMessage.
    rewrite Hin. simpl. rewrite Hmsg. unfold bind, printf, ret. simpl.
    world_eq.
  - simpl. unfold bind, wrap, nextMessage, bind, wrap, ws_ReadMessage.
    rewrite Hin. simpl. rewrite Hm. unfold bind. simpl.
    rewrite (IH turns); [|done|simpl in Hturns; lia].
    world_eq.
Qed.

Lemma readUntil_closed inbox turns w :
  Forall (rejected matcher) inbox →
  ws_inbox w = inbox →
  length inbox < turns →
  readUntil matcher turns w =
    (Err "could not read message: error reading message: read: connection closed",
     afterReads w inbox [] (Received <$> inbox)).
Proof.
  intros Hall. revert turns w.
  induction Hall as [|m inbox Hm _ IH]; intros turns w Hin Hturns;
    (destruct turns as [|turns]; [simpl in Hturns; lia|]).
  - simpl. unfold bind, wrap, nextMessage, bind, wrap, ws_ReadMessage.
    rewrite Hin. simpl. destruct w; simpl in *. subst. world_eq.
  - simpl. unfold bind, wrap, nextMessage, bind, wrap, ws_ReadMessage.
    rewrite Hin. simpl. rewrite Hm. unfold bind. simpl.
    rewrite (IH turns); [|done|simpl in Hturns; lia].
    world_eq.
Qed.

(** The three ways a call can go. *)
Lemma nextMessageMatching_queued w pre msg post :
  filteredQueue w = pre ++ msg :: post →
  Forall (rejected matcher) pre → matcher msg = true →
  nextMessageMatching matcher w =
    (Ok msg, print (Unqueued msg) (set_filteredQueue (pre ++ post) w)).
Proof.
  intros Hq Hpre Hmsg. unfold nextMessageMatching.
  rewrite Hq, (scanQueue_found 0 pre msg post Hpre Hmsg). simpl.
  by rewrite removeQueued_spec.
Qed.

Lemma nextMessageMatching_read w pre msg post :
  Forall (rejected matcher) (filteredQueue w) →
  ws_inbox w = pre ++ msg :: post →
  Forall (rejected matcher) pre → matcher msg = true →
  nextMessageMatching matcher w =
    (Ok msg,
     afterReads w pre post ((Received <$> pre) ++ [Received msg; Matched msg])).
Proof.
  intros Hq Hin Hpre Hmsg. unfold nextMessageMatching.
  rewrite (scanQueue_none 0 _ Hq).
  apply readUntil_match; [done..|].
  rewrite Hin, length_app. simpl. lia.
Qed.

Lemma nextMessageMatching_closed w :
  Forall (rejected matcher) (filteredQueue w) →
  Forall (rejected matcher) (ws_inbox w) →
  nextMessageMatching matcher w =
    (Err "could not read message: error reading message: read: connection closed",
     afterReads w (ws_inbox w) [] (Received <$> ws_inbox w)).
Proof.
  intros Hq Hin. unfold nextMessageMatching.
  rewrite (scanQueue_none 0 _ Hq).
  apply readUntil_closed; [done..|lia].
Qed.

(** A list either has a first accepted element or none. *)
Lemma first_accepted (l : list bytes) :
  Forall (rejected matcher) l ∨
  ∃ pre msg post, l = pre ++ msg :: post ∧ Forall (rejected matcher) pre ∧ matcher msg = true.
Proof.
  induction l as [|m l IH]; [left; constructor|].
  destruct (matcher m) eqn:Hm.
  - right. exists [], m, l. split; [done|]. split; [constructor|done].
  - destruct IH as [IH|(pre & msg & post & -> & Hpre & Hmsg)].
    + left. by constructor.
    + right. exists (m :: pre), msg, post.
      split; [done|]. split; [by constructor|done].
Qed.

Lemma nextMessageMatching_accepts w msg w' :
  nextMessageMatching matcher w = (Ok msg, w') → matcher msg = true.
Proof.
  destruct (first_accepted (filteredQueue w)) as [Hq|(pre & m & post & Hq & Hpre & Hm)].
  - destruct (first_accepted (ws_inbox w)) as [Hi|(pre & m & post & Hi & Hpre & Hm)].
    + rewrite nextMessageMatching_closed by done. done.
    + rewrite (nextMessageMatching_read w pre m post) by done.
      intros [= <- _]. done.
  - rewrite (nextMessageMatching_queued w pre m post) by done.
    intros [= <- _]. done.
Qed.
(** A call touches the queue, the inbox and standard output only. *)
Lemma nextMessageMatching_frame w o w' :
  nextMessageMatching matcher w = (o, w') →
  Vault w' = Vault w ∧ authToken w' = authToken w ∧ keyhash w' = keyhash w ∧
  ws_outbox w' = ws_outbox w ∧ ws_quota w' = ws_quota w ∧
  rand_Reader w' = rand_Reader w.
Proof.
  destruct (first_accepted (filteredQueue w)) as [Hq|(pre & m & post & Hq & Hpre & Hm)].
  - destruct (first_accepted (ws_inbox w)) as [Hi|(pre & m & post & Hi & Hpre & Hm)].
    + rewrite nextMessageMatching_closed by done. intros [= <- <-]. done.
    + rewrite (nextMessageMatching_read w pre m post) by done.
      intros [= <- <-]. done.
  - rewrite (nextMessageMatching_queued w pre m post) by done.
    intros [= <- <-]. done.
Qed.
(** A rejected frame at the head of the inbox might as well have been
    queued already. *)
Lemma nextMessageMatching_skip w f tail :
  Forall (rejected matcher) (filteredQueue w) →
  ws_inbox w = f :: tail →
  rejected matcher f →
  nextMessageMatching matcher w =
  nextMessageMatching matcher (afterReads w [f] tail [Received f]).
Proof.
  intros Hq Hin Hf.
  assert (Hq' : Forall (rejected matcher) (filteredQueue w ++ [f])).
  { apply Forall_app. split; [done|]. by constructor. }
  destruct (first_accepted tail) as [Ht|(pre & m & post & -> & Hpre & Hm)].
  - rewrite nextMessageMatching_closed; [|done|rewrite Hin; by constructor].
    rewrite (nextMessageMatching_closed (afterReads w [f] tail [Received f]))
      by done.
    rewrite Hin. f_equal. world_eq.
  - rewrite (nextMessageMatching_read w (f :: pre) m post);
      [|done|done|by constructor|done].
    rewrite (nextMessageMatching_read (afterReads w [f] (pre ++ m :: post)
               [Received f]) pre m post) by done.
    f_equal. world_eq.
Qed.
End Filter.
End api_facts.

(** C7. If some queued frame satisfies the matcher, [nextMessageMatching]
    returns the first such frame and the queue keeps the other frames in
    their order, the socket being left alone. Otherwise it reads the socket
    frame by frame, returns the first frame that satisfies the matcher and
    has appended the frames read before it, in arrival order, to the end of
    the queue. Every frame it returns satisfies the matcher. *)
Theorem C7_nextMessageMatching_first_match
    (matcher : bytes → bool) (w : api.World) :
  (∀ pre msg post,
     api.filteredQueue w = pre ++ msg :: post →
     Forall (api.rejected matcher) pre →
     matcher msg = true →
     ∃ w', api.nextMessageMatching matcher w = (Ok msg, w') ∧
           api.filteredQueue w' = pre ++ post ∧
           api.ws_inbox w' = api.ws_inbox w ∧
           api.stdout w' = api.stdout w ++ [api.Unqueued msg]) ∧
  (Forall (api.rejected matcher) (api.filteredQueue w) →
   ∀ pre msg post,
     api.ws_inbox w = pre ++ msg :: post →
     Forall (api.rejected matcher) pre →
     matcher msg = true →
     ∃ w', api.nextMessageMatching matcher w = (Ok msg, w') ∧
           api.filteredQueue w' = api.filteredQueue w ++ pre ∧
           api.ws_inbox w' = post ∧
           api.stdout w' = api.stdout w ++ (api.Received <$> pre)
                             ++ [api.Received msg; api.Matched msg]) ∧
  (∀ msg w', api.nextMessageMatching matcher w = (Ok msg, w') → matcher msg = true).
Proof.
  split; [|split].
  - intros pre msg post Hq Hpre Hmsg. eexists. split.
    + by apply api_facts.nextMessageMatching_queued.
    + done.
  - intros Hq pre msg post Hin Hpre Hmsg. eexists. split.
    + by apply api_facts.nextMessageMatching_read.
    + done.
  - intros msg w'. apply api_facts.nextMessageMatching_accepts.
Qed.

(** ** The crypto envelope *)

Module crypto_facts.
Import crypto.

Section Envelope.
Context (C : CryptoLib).
Context (password salt key : bytes) (block : Block C) (aesgcm : AEAD C).
Context (Hkey : scrypt_Key C password salt 32768 8 1 32 = Success key)
        (Hblock : aes_NewCipher C key = Success block)
        (Hgcm : cipher_NewGCM C block = Success aesgcm).

(** The two [copy] calls of [Encrypt] lay out nonce, then ciphertext. *)
Lemma layout (n : nat) (nonce ciphertext : bytes) :
  length nonce = n →
  take n (copy (make (n + length ciphertext)) nonce)
    ++ copy (drop n (copy (make (n + length ciphertext)) nonce)) ciphertext
  = nonce ++ ciphertext.
Proof.
  intros Hn.
  assert (Hfirst : copy (make (n + length ciphertext)) nonce
                   = nonce ++ replicate (length ciphertext) Byte.x00).
  { unfold copy, make. rewrite length_replicate, Hn.
    rewrite (take_ge nonce) by lia. rewrite drop_replicate.
    do 2 f_equal. lia. }
  rewrite Hfirst, take_app_length', drop_app_length' by done.
  unfold copy. rewrite length_replicate, take_ge by lia.
  rewrite drop_replicate, Nat.sub_diag. simpl. by rewrite app_nil_r.
Qed.

Lemma Encrypt_ok (input : bytes) (r : list byte) :
  nonceSize ≤ length r →
  Encrypt C input password salt r =
    (Ok (take nonceSize r ++ gcm_Seal C aesgcm (take nonceSize r) input),
     drop nonceSize r).
Proof.
  intros Hr. unfold Encrypt, deriveKey, io_ReadFull. rewrite Hkey. cbn [of_result].
  destruct (decide (nonceSize ≤ length r)); [|lia].
  rewrite Hblock. cbn [obind of_result]. rewrite Hgcm. cbn [obind of_result].
  f_equal. f_equal.
  apply layout. rewrite length_take. lia.
Qed.

Lemma Decrypt_split (nonce ciphertext : bytes) :
  length nonce = nonceSize →
  Decrypt C (nonce ++ ciphertext) password salt =
    of_result (gcm_Open C aesgcm nonce ciphertext).
Proof.
  intros Hn. unfold Decrypt, deriveKey, slice_to, slice_from.
  rewrite length_app, Hn.
  destruct (decide (nonceSize + length ciphertext = 0)) as [H0|_];
    [unfold nonceSize in H0; lia|].
  rewrite Hkey. cbn [obind of_result]. rewrite Hblock. cbn [obind of_result].
  rewrite Hgcm. cbn [obind of_result].
  destruct (decide (nonceSize ≤ nonceSize + length ciphertext)); [|lia].
  cbn [obind].
  rewrite take_app_length', drop_app_length' by done.
  destruct (gcm_Open C aesgcm nonce ciphertext); reflexivity.
Qed.

Lemma Decrypt_no_panic (encrypted : bytes) :
  length encrypted = 0 ∨ nonceSize ≤ length encrypted →
  ∀ m, Decrypt C encrypted password salt ≠ Panic m.
Proof.
  intros Hlen m. unfold Decrypt, deriveKey, slice_to, slice_from.
  destruct (decide (length encrypted = 0)); [done|].
  destruct Hlen as [?|Hlen]; [done|].
  rewrite Hkey. cbn [obind of_result]. rewrite Hblock. cbn [obind of_result].
  rewrite Hgcm. cbn [obind of_result].
  destruct (decide (nonceSize ≤ length encrypted)); [|lia]. cbn [obind].
  by destruct (gcm_Open C aesgcm _ _).
Qed.

Lemma Decrypt_short (encrypted : bytes) :
  0 < length encrypted < nonceSize →
  Decrypt C encrypted password salt = Panic "slice bounds out of range".
Proof.
  intros [Hpos Hshort]. unfold Decrypt, deriveKey, slice_to.
  destruct (decide (length encrypted = 0)); [lia|].
  rewrite Hkey. cbn [obind of_result]. rewrite Hblock. cbn [obind of_result].
  rewrite Hgcm. cbn [obind of_result].
  destruct (decide (nonceSize ≤ length encrypted)); [lia|]. reflexivity.
Qed.
End Envelope.
End crypto_facts.

(** C2. Whenever key derivation and cipher construction succeed for the
    password and salt, and the AEAD opens what it has sealed under a
    12-byte nonce, then for every payload [p] (empty or not) and every
    random source holding at least 12 bytes [Encrypt] succeeds and
    [Decrypt] of its result is [p]; and two runs whose nonce draws differ
    give two different ciphertexts, both of which decrypt to [p]. *)
Theorem C2_encrypt_decrypt_roundtrip
    (C : CryptoLib) (p password salt key : bytes)
    (block : Block C) (aesgcm : AEAD C) :
  scrypt_Key C password salt 32768 8 1 32 = Success key →
  aes_NewCipher C key = Success block →
  cipher_NewGCM C block = Success aesgcm →
  (∀ nonce, length nonce = crypto.nonceSize →
            gcm_Open C aesgcm nonce (gcm_Seal C aesgcm nonce p) = Success p) →
  (∀ r, crypto.nonceSize ≤ length r →
     ∃ c, (crypto.Encrypt C p password salt r).1 = Ok c ∧
          crypto.Decrypt C c password salt = Ok p) ∧
  (∀ r1 r2, crypto.nonceSize ≤ length r1 → crypto.nonceSize ≤ length r2 →
     take crypto.nonceSize r1 ≠ take crypto.nonceSize r2 →
     ∃ c1 c2, (crypto.Encrypt C p password salt r1).1 = Ok c1 ∧
              (crypto.Encrypt C p password salt r2).1 = Ok c2 ∧
              c1 ≠ c2 ∧
              crypto.Decrypt C c1 password salt = Ok p ∧
              crypto.Decrypt C c2 password salt = Ok p).
Proof.
  intros Hkey Hblock Hgcm Hopen.
  assert (Hone : ∀ r, crypto.nonceSize ≤ length r →
     crypto.Decrypt C
       (take crypto.nonceSize r ++ gcm_Seal C aesgcm (take crypto.nonceSize r) p)
       password salt = Ok p).
  { intros r Hr.
    rewrite (crypto_facts.Decrypt_split C _ _ _ _ _ Hkey Hblock Hgcm)
      by (rewrite length_take; lia).
    rewrite Hopen by (rewrite length_take; lia). reflexivity. }
  split.
  - intros r Hr. eexists.
    rewrite (crypto_facts.Encrypt_ok C _ _ _ _ _ Hkey Hblock Hgcm) by done.
    split; [reflexivity|]. by apply Hone.
  - intros r1 r2 Hr1 Hr2 Hdiff. eexists _, _.
    rewrite !(crypto_facts.Encrypt_ok C _ _ _ _ _ Hkey Hblock Hgcm) by done.
    split; [reflexivity|]. split; [reflexivity|].
    split; [|split; by apply Hone].
    intros Heq. apply Hdiff.
    apply (f_equal (take crypto.nonceSize)) in Heq.
    rewrite !take_app_length' in Heq by (rewrite length_take; lia). done.
Qed.

(** C3, where the code departs from it. On a non-empty input shorter than the
    12-byte nonce, once key derivation and cipher construction have
    succeeded, [Decrypt] neither returns a plaintext nor an error: the
    slice expression that splits off the nonce panics. *)
Theorem C3_Decrypt_panics_below_nonce_size
    (C : CryptoLib) (encrypted password salt key : bytes)
    (block : Block C) (aesgcm : AEAD C) :
  scrypt_Key C password salt 32768 8 1 32 = Success key →
  aes_NewCipher C key = Success block →
  cipher_NewGCM C block = Success aesgcm →
  0 < length encrypted < crypto.nonceSize →
  crypto.Decrypt C encrypted password salt = Panic "slice bounds out of range".
Proof.
  intros Hkey Hblock Hgcm Hlen.
  by apply (crypto_facts.Decrypt_short C _ _ _ _ _ Hkey Hblock Hgcm).
Qed.

(** ** Stepping through a run *)

Section Run.
Context {St : Type}.

Lemma bind_Ok {A B} (m : StM St A) (k : A → StM St B) st a st' :
  m st = (Ok a, st') → bind m k st = k a st'.
Proof. unfold bind. by intros ->. Qed.

Lemma bind_Err {A B} (m : StM St A) (k : A → StM St B) st e st' :
  m st = (Err e, st') → bind m k st = (Err e, st').
Proof. unfold bind. by intros ->. Qed.

Lemma bind_Panic {A B} (m : StM St A) (k : A → StM St B) st p st' :
  m st = (Panic p, st') → bind m k st = (Panic p, st').
Proof. unfold bind. by intros ->. Qed.

Lemma wrap_Ok {A} prefix (m : StM St A) st a st' :
  m st = (Ok a, st') → wrap prefix m st = (Ok a, st').
Proof. unfold wrap. by intros ->. Qed.

Lemma wrap_Err {A} prefix (m : StM St A) st e st' :
  m st = (Err e, st') → wrap prefix m st = (Err (prefix +:+ e), st').
Proof. unfold wrap. by intros ->. Qed.

Lemma wrap_Ok_inv {A} prefix (m : StM St A) st a st' :
  wrap prefix m st = (Ok a, st') → m st = (Ok a, st').
Proof.
  unfold wrap. destruct (m st) as [[x|e|p] st1]; simpl; intros [= <- <-]; done.
Qed.

Lemma bind_call_Success {A B} prefix (a : A) (k : A → StM St B) st :
  bind (call prefix (Success a)) k st = k a st.
Proof. reflexivity. Qed.

Lemma bind_Ok_inv {A B} (m : StM St A) (k : A → StM St B) st b st' :
  bind m k st = (Ok b, st') →
  ∃ a st1, m st = (Ok a, st1) ∧ k a st1 = (Ok b, st').
Proof.
  unfold bind. destruct (m st) as [[a|e|p] st1]; [eauto|done|done].
Qed.
End Run.

(** ** Pull integrity *)

Module pull_facts.
Import api.

Section Pull.
Context (J : JsonLib).


(** What the piece loop returns is what it was given followed by the
    frames it took, each of them one that does not parse as JSON. *)
Lemma readPieces_concat n data w data' w' :
  readPieces J n data w = (Ok data', w') →
  ∃ frames, length frames = n ∧ data' = data ++ concat frames ∧
            Forall (binary J) frames ∧ Vault w' = Vault w.
Proof.
  revert data w. induction n as [|n IH]; intros data w; simpl.
  - intros [= <- <-]. exists []. simpl. by rewrite app_nil_r.
  - intros H. apply bind_Ok_inv in H as (message & w1 & Hmsg & Hrest).
    apply wrap_Ok_inv in Hmsg.
    apply IH in Hrest as (frames & Hlen & -> & Hbin & Hv).
    exists (message :: frames). simpl. rewrite <- app_assoc.
    split; [by rewrite Hlen|]. split; [done|]. split.
    + constructor; [|done].
      apply api_facts.nextMessageMatching_accepts in Hmsg.
      intros m Hm. unfold jsonMatcher in Hmsg. by rewrite Hm in Hmsg.
    + rewrite Hv. by apply api_facts.nextMessageMatching_frame in Hmsg as (-> & _).
Qed.
Context (C : CryptoLib).


Lemma PullFile_after_pieces uid expected w w1 header w2 h data w3 :
  sendMessage (MsgPull uid) w = (Ok tt, w1) →
  nextMessageWithJsonKeys J ["hash"; "size"; "pieces"] w1 = (Ok header, w2) →
  Unmarshal_PullHeaderMessage J header = Success h →
  readPieces J (Z.to_nat (hdr_Pieces h)) []
    (print (HeaderInfo uid (hdr_Size h) (hdr_Pieces h)) w2) = (Ok data, w3) →
  PullFile C J uid expected w = verify C expected (hdr_Size h) data w3.
Proof.
  intros Hsend Hhdr Hh Hdata. unfold PullFile.
  rewrite (bind_Ok _ _ _ _ _ (wrap_Ok _ _ _ _ _ Hsend)).
  rewrite (bind_Ok _ _ _ _ _ (wrap_Ok _ _ _ _ _ Hhdr)).
  rewrite Hh. unfold call at 1, lift at 1. simpl of_result.
  rewrite (bind_Ok _ _ w2 h w2) by reflexivity.
  rewrite (bind_Ok _ _ w2 tt (print (HeaderInfo uid (hdr_Size h) (hdr_Pieces h)) w2))
    by reflexivity.
  rewrite (bind_Ok _ _ _ _ _ Hdata). reflexivity.
Qed.

Lemma verify_size_mismatch expected size data w :
  Z.of_nat (length data) ≠ size →
  verify C expected size data w =
    (Err "decrypted data size does not match size in header", w).
Proof.
  intros Hne. unfold verify. rewrite bool_decide_eq_false_2 by done. reflexivity.
Qed.

Lemma verify_Ok expected size data w content w' :
  verify C expected size data w = (Ok content, w') →
  Z.of_nat (length data) = size ∧
  crypto.Decrypt C data (bytes_of (Password (Vault w))) (bytes_of (Salt (Vault w)))
    = Ok content ∧
  ∃ hx, crypto.DecryptString C expected (bytes_of (Password (Vault w)))
          (bytes_of (Salt (Vault w))) = Ok hx ∧
        hex_DecodeString C hx = Success (sha256_Sum256 C content).
Proof.
  unfold verify. case_bool_decide as Hsize; simpl; [|done].
  unfold bind at 1, password. unfold bind at 1, salt.
  unfold bind at 1, wrap at 1, lift at 1.
  destruct (crypto.Decrypt C data _ _) as [d|e|p]; simpl; [|done..].
  unfold bind at 1, wrap at 1, lift at 1.
  destruct (crypto.DecryptString C expected _ _) as [hx|e|p]; simpl; [|done..].
  unfold bind at 1, call, wrap, lift.
  destruct (hex_DecodeString C hx) as [hb|e] eqn:Hhex; simpl; [|done].
  case_bool_decide as Hsum; simpl; [|done].
  intros [= <- <-]. split; [done|]. split; [done|]. exists hx. by rewrite Hsum.
Qed.

Lemma verify_hash_mismatch expected size data w content hx :
  Z.of_nat (length data) = size →
  crypto.Decrypt C data (bytes_of (Password (Vault w))) (bytes_of (Salt (Vault w)))
    = Ok content →
  crypto.DecryptString C expected (bytes_of (Password (Vault w)))
    (bytes_of (Salt (Vault w))) = Ok hx →
  hex_DecodeString C hx ≠ Success (sha256_Sum256 C content) →
  ∃ e, verify C expected size data w = (Err e, w).
Proof.
  intros Hsize Hdec Hhash Hne. unfold verify.
  rewrite bool_decide_eq_true_2 by done. simpl.
  unfold bind at 1, password. unfold bind at 1, salt.
  unfold bind at 1, wrap at 1, lift at 1. rewrite Hdec. simpl.
  unfold bind at 1, wrap at 1, lift at 1. rewrite Hhash. simpl.
  unfold bind at 1, call, wrap, lift.
  destruct (hex_DecodeString C hx) as [hb|e] eqn:Hhex; simpl; [|eauto].
  rewrite bool_decide_eq_false_2; [simpl; eauto|]. intros <-. done.
Qed.
End Pull.
End pull_facts.

(** C1. Take a pull exchange: the pull request is sent, a header declaring
    size [S] and [N] pieces is received, and [N] binary frames are received,
    [data] being their concatenation. If the length of [data] is not [S],
    [PullFile] returns the size error, and it does so for every
    implementation of the crypto primitives: none of them is consulted. If
    the length is [S], [data] decrypts to [content] and the expected hash
    decrypts to a string that is not the hex form of the SHA-256 of
    [content], [PullFile] returns an error. And [PullFile] returns a
    content only if both checks pass. *)
Theorem C1_PullFile_integrity
    (C : CryptoLib) (J : api.JsonLib) (uid : Z) (expectedEncryptedHash : string)
    (w w1 w2 w3 : api.World) (header data : bytes) (h : api.PullHeaderMessage) :
  api.sendMessage (api.MsgPull uid) w = (Ok tt, w1) →
  api.nextMessageWithJsonKeys J ["hash"; "size"; "pieces"] w1 = (Ok header, w2) →
  api.Unmarshal_PullHeaderMessage J header = Success h →
  api.readPieces J (Z.to_nat (api.hdr_Pieces h)) []
    (api.print (api.HeaderInfo uid (api.hdr_Size h) (api.hdr_Pieces h)) w2)
    = (Ok data, w3) →
  let pw := bytes_of (api.Password (api.Vault w)) in
  let slt := bytes_of (api.Salt (api.Vault w)) in
  (∃ frames, length frames = Z.to_nat (api.hdr_Pieces h) ∧ data = concat frames ∧
             Forall (api.binary J) frames) ∧
  (Z.of_nat (length data) ≠ api.hdr_Size h →
   ∀ C' : CryptoLib,
     api.PullFile C' J uid expectedEncryptedHash w =
       (Err "decrypted data size does not match size in header", w3)) ∧
  (Z.of_nat (length data) = api.hdr_Size h →
   ∀ content hx,
     crypto.Decrypt C data pw slt = Ok content →
     crypto.DecryptString C expectedEncryptedHash pw slt = Ok hx →
     hex_DecodeString C hx ≠ Success (sha256_Sum256 C content) →
     ∃ e, api.PullFile C J uid expectedEncryptedHash w = (Err e, w3)) ∧
  (∀ content w',
     api.PullFile C J uid expectedEncryptedHash w = (Ok content, w') →
     Z.of_nat (length data) = api.hdr_Size h ∧
     crypto.Decrypt C data pw slt = Ok content ∧
     ∃ hx, crypto.DecryptString C expectedEncryptedHash pw slt = Ok hx ∧
           hex_DecodeString C hx = Success (sha256_Sum256 C content)).
Proof.
  intros Hsend Hhdr Hh Hdata pw slt.
  destruct (pull_facts.readPieces_concat J _ _ _ _ _ Hdata)
    as (frames & Hlen & Hcat & Hbin & Hv3).
  assert (Hvault : api.Vault w3 = api.Vault w).
  { rewrite Hv3. simpl.
    apply api_facts.nextMessageMatching_frame in Hhdr as (-> & _).
    clear -Hsend. unfold api.sendMessage, bind, wrap, api.ws_WriteJSON in Hsend.
    destruct (api.ws_quota w); simpl in Hsend; [done|].
    by injection Hsend as <-. }
  split; [by exists frames|].
  split; [|split].
  - intros Hne C'.
    rewrite (pull_facts.PullFile_after_pieces J C' _ _ _ _ _ _ _ _ _ Hsend Hhdr Hh Hdata).
    by apply pull_facts.verify_size_mismatch.
  - intros Hsize content hx Hdec Hhash Hne.
    rewrite (pull_facts.PullFile_after_pieces J C _ _ _ _ _ _ _ _ _ Hsend Hhdr Hh Hdata).
    subst pw slt. rewrite <- Hvault in Hdec, Hhash.
    by eapply pull_facts.verify_hash_mismatch.
  - intros content w'.
    rewrite (pull_facts.PullFile_after_pieces J C _ _ _ _ _ _ _ _ _ Hsend Hhdr Hh Hdata).
    intros H. apply pull_facts.verify_Ok in H. subst pw slt. by rewrite <- Hvault.
Qed.

(** ** Runs related to their start *)


Section Respects.
Context {St : Type} (R : St → St → Prop) `{!PreOrder R}.

Lemma respects_ret {A} (a : A) : respects R (ret a).
Proof. intros st o st' [= <- <-]. reflexivity. Qed.

Lemma respects_fail {A} e : respects R (@fail St A e).
Proof. intros st o st' [= <- <-]. reflexivity. Qed.

Lemma respects_lift {A} (x : outcome A) : respects R (lift x).
Proof. intros st o st' [= <- <-]. reflexivity. Qed.

Lemma respects_bind {A B} (m : StM St A) (k : A → StM St B) :
  respects R m → (∀ a, respects R (k a)) → respects R (bind m k).
Proof.
  intros Hm Hk st o st'. unfold bind.
  destruct (m st) as [[a|e|p] st1] eqn:E; intros H.
  - transitivity st1; [by eapply Hm|by eapply Hk].
  - injection H as <- <-. by eapply Hm.
  - injection H as <- <-. by eapply Hm.
Qed.

Lemma respects_wrap {A} prefix (m : StM St A) :
  respects R m → respects R (wrap prefix m).
Proof.
  intros Hm st o st'. unfold wrap.
  destruct (m st) as [o1 st1] eqn:E. intros [= <- <-]. by eapply Hm.
Qed.

Lemma respects_call {A} prefix (r : result A) : respects R (call prefix r).
Proof. apply respects_wrap, respects_lift. Qed.

Lemma respects_if {A} (b : bool) (m1 m2 : StM St A) :
  respects R m1 → respects R m2 → respects R (if b then m1 else m2).
Proof. by destruct b. Qed.
End Respects.

Module push_facts.
Import api.


#[global] Instance onlyReads_preorder : PreOrder onlyReads.
Proof.
  split.
  - intros w. unfold onlyReads. repeat split. exists []. by rewrite app_nil_r.
  - intros w1 w2 w3 (Hv & Ho & Hq & Hr & t & Ht) (Hv' & Ho' & Hq' & Hr' & t' & Ht').
    unfold onlyReads. rewrite Hv', Ho', Hq', Hr', Ht', Ht. repeat split; try done.
    exists (t ++ t'). by rewrite app_assoc.
Qed.

Section Push.
Context (C : CryptoLib) (J : JsonLib).

Lemma nextMessageMatching_onlyReads matcher :
  respects onlyReads (nextMessageMatching matcher).
Proof.
  intros w o w' H.
  destruct (api_facts.first_accepted matcher (filteredQueue w))
    as [Hq|(pre & m & post & Hq & Hpre & Hm)].
  - destruct (api_facts.first_accepted matcher (ws_inbox w))
      as [Hi|(pre & m & post & Hi & Hpre & Hm)].
    + rewrite api_facts.nextMessageMatching_closed in H by done.
      injection H as <- <-. unfold onlyReads. simpl. eauto 10.
    + rewrite (api_facts.nextMessageMatching_read matcher w pre m post) in H by done.
      injection H as <- <-. unfold onlyReads. simpl. eauto 10.
  - rewrite (api_facts.nextMessageMatching_queued matcher w pre m post) in H by done.
    injection H as <- <-. unfold onlyReads. simpl. eauto 10.
Qed.

(** The line that reports a claimed frame is the last line printed. *)
Lemma nextMessageMatching_claimed matcher w msg w' :
  nextMessageMatching matcher w = (Ok msg, w') →
  ∃ t claimed, stdout w' = stdout w ++ t ++ [claimed] ∧
               (claimed = Unqueued msg ∨ claimed = Matched msg).
Proof.
  intros H.
  destruct (api_facts.first_accepted matcher (filteredQueue w))
    as [Hq|(pre & m & post & Hq & Hpre & Hm)].
  - destruct (api_facts.first_accepted matcher (ws_inbox w))
      as [Hi|(pre & m & post & Hi & Hpre & Hm)].
    + by rewrite api_facts.nextMessageMatching_closed in H.
    + rewrite (api_facts.nextMessageMatching_read matcher w pre m post) in H by done.
      injection H as <- <-. simpl.
      exists ((Received <$> pre) ++ [Received m]), (Matched m).
      split; [|by right]. by rewrite <- !app_assoc.
  - rewrite (api_facts.nextMessageMatching_queued matcher w pre m post) in H by done.
    injection H as <- <-. simpl. exists [], (Unqueued m). split; [done|by left].
Qed.
End Push.
End push_facts.

Section RunMore.
Context {St : Type}.

(** A step that does not succeed ends the run where it stopped. *)
Lemma bind_wrap_stop {A B} prefix (m : StM St A) (k : A → StM St B) st o st' :
  m st = (o, st') → ¬ is_Ok o →
  ∃ o', bind (wrap prefix m) k st = (o', st') ∧ ¬ is_Ok o'.
Proof.
  intros Hm Hno. unfold bind, wrap. rewrite Hm.
  destruct o as [a|e|p]; simpl.
  - destruct Hno. by exists a.
  - eexists. split; [done|]. by intros [? ?].
  - eexists. split; [done|]. by intros [? ?].
Qed.

Lemma bind_wrap_Ok {A B} prefix (m : StM St A) (k : A → StM St B) st a st' :
  m st = (Ok a, st') → bind (wrap prefix m) k st = k a st'.
Proof. intros Hm. by rewrite (bind_Ok _ _ _ _ _ (wrap_Ok _ _ _ _ _ Hm)). Qed.
End RunMore.

(** Ends the run in [Hrun] at a step that [H] shows not to succeed. *)
Ltac stop_in Hrun H :=
  match type of Hrun with
  | bind (wrap ?p ?m) ?k ?st = _ =>
    let o' := fresh "o'" in
    let Heq := fresh "Heq" in
    destruct (bind_wrap_stop p m k st _ _ H) as (o' & Heq & _);
    [by intros [? ?]|];
    rewrite Heq in Hrun; injection Hrun as <- <-
  end.

(** C8. If the three encryptions succeed and the transport accepts a write,
    the first frame [PushFile] writes is a push descriptor whose hash field
    is the hex encoding of the encryption of the SHA-256 digest of the
    unencrypted content, whose size field is the length of the encrypted
    content and whose pieces field is 1. The only other frame it may write
    is the encrypted content, and when it does, standard output shows, right
    before the payload is sent, that a frame whose [res] is [next] was
    claimed. If an encryption fails or the transport accepts no write,
    nothing is written. *)
Theorem C8_PushFile_descriptor_then_payload
    (C : CryptoLib) (J : api.JsonLib)
    (path extension : string) (ctime mtime : Z) (folder deleted : bool)
    (content : bytes) (w : api.World) (o : outcome unit) (w' : api.World) :
  let pw := bytes_of (api.Password (api.Vault w)) in
  let slt := bytes_of (api.Salt (api.Vault w)) in
  let e1 := crypto.Encrypt C content pw slt (api.rand_Reader w) in
  let e2 := crypto.Encrypt C (bytes_of path) pw slt e1.2 in
  let e3 := crypto.Encrypt C (sha256_Sum256 C content) pw slt e2.2 in
  api.PushFile C J path extension ctime mtime folder deleted content w = (o, w') →
  (∀ encryptedContent encryptedPath encryptedContentSum,
     e1.1 = Ok encryptedContent → e2.1 = Ok encryptedPath →
     e3.1 = Ok encryptedContentSum → api.ws_quota w ≠ 0 →
     ∃ desc,
       api.out_Op desc = "push" ∧
       api.out_Path desc = hex_EncodeToString C encryptedPath ∧
       api.out_Hash desc = hex_EncodeToString C encryptedContentSum ∧
       api.out_Size desc = Z.of_nat (length encryptedContent) ∧
       api.out_Pieces desc = 1%Z ∧
       (api.ws_outbox w' = api.ws_outbox w ++ [api.JSONFrame (api.MsgPush desc)] ∨
        (api.ws_outbox w' =
           api.ws_outbox w ++ [api.JSONFrame (api.MsgPush desc);
                               api.BinaryFrame encryptedContent] ∧
         ∃ t1 ack claimed t3 m,
           api.stdout w' =
             api.stdout w ++ [api.Sent (api.JSONFrame (api.MsgPush desc))] ++ t1
               ++ [claimed; api.Sent (api.BinaryFrame encryptedContent)] ++ t3 ∧
           (claimed = api.Unqueued ack ∨ claimed = api.Matched ack) ∧
           api.Unmarshal_map J ack = Success m ∧
           m !! "res" = Some (api.JString "next")))) ∧
  ((¬ is_Ok e1.1 ∨ ¬ is_Ok e2.1 ∨ ¬ is_Ok e3.1 ∨ api.ws_quota w = 0) →
   api.ws_outbox w' = api.ws_outbox w).
Proof.
  intros pw slt e1 e2 e3 Hrun. unfold api.PushFile in Hrun.
  rewrite (bind_Ok _ _ w pw w) in Hrun by reflexivity.
  rewrite (bind_Ok _ _ w slt w) in Hrun by reflexivity.
  (* the three encryptions *)
  assert (He1 : api.Encrypt C content pw slt w = (e1.1, api.set_rand_Reader e1.2 w)).
  { unfold api.Encrypt. fold e1. by destruct e1. }
  destruct (e1.1) as [encryptedContent| |] eqn:E1.
  2,3: stop_in Hrun He1; split; [intros; discriminate|done].
  rewrite (bind_wrap_Ok _ _ _ _ _ _ He1) in Hrun.
  assert (He2 : api.Encrypt C (bytes_of path) pw slt (api.set_rand_Reader e1.2 w)
                = (e2.1, api.set_rand_Reader e2.2 w)).
  { unfold api.Encrypt. simpl. fold pw slt e2. by destruct e2. }
  destruct (e2.1) as [encryptedPath| |] eqn:E2.
  2,3: stop_in Hrun He2; split; [intros; discriminate|done].
  rewrite (bind_wrap_Ok _ _ _ _ _ _ He2) in Hrun.
  assert (He3 : api.Encrypt C (sha256_Sum256 C content) pw slt
                  (api.set_rand_Reader e2.2 w)
                = (e3.1, api.set_rand_Reader e3.2 w)).
  { unfold api.Encrypt. simpl. fold pw slt e3. by destruct e3. }
  destruct (e3.1) as [encryptedContentSum| |] eqn:E3.
  2,3: stop_in Hrun He3; split; [intros; discriminate|done].
  rewrite (bind_wrap_Ok _ _ _ _ _ _ He3) in Hrun.
  set (desc := {| api.out_Op := "push";
                  api.out_Path := hex_EncodeToString C encryptedPath;
                  api.out_Ext := extension;
                  api.out_Hash := hex_EncodeToString C encryptedContentSum;
                  api.out_Ctime := ctime; api.out_Mtime := mtime;
                  api.out_Folder := folder; api.out_Deleted := deleted;
                  api.out_Size := Z.of_nat (length encryptedContent);
                  api.out_Pieces := 1 |}) in Hrun.
  set (w3 := api.set_rand_Reader e3.2 w) in Hrun.
  (* the descriptor *)
  destruct (api.ws_quota w) as [|quota] eqn:Hquota.
  { assert (Hsend : api.sendMessage (api.MsgPush desc) w3
                    = (Err "could not send message: write: connection closed", w3)).
    { unfold api.sendMessage, bind, wrap, api.ws_WriteJSON. simpl. by rewrite Hquota. }
    stop_in Hrun Hsend. split; [intros; congruence|done]. }
  set (w4 := api.print (api.Sent (api.JSONFrame (api.MsgPush desc)))
               (api.ws_write (api.JSONFrame (api.MsgPush desc)) w3)).
  assert (Hsend : api.sendMessage (api.MsgPush desc) w3 = (Ok tt, w4)).
  { unfold api.sendMessage, bind, wrap, api.ws_WriteJSON. simpl. by rewrite Hquota. }
  rewrite (bind_wrap_Ok _ _ _ _ _ _ Hsend) in Hrun.
  split.
  2:{ intros [[]|[[]|[[]|H0]]]; [by eexists..|done]. }
  intros ec ep eh [= <-] [= <-] [= <-] _. exists desc.
  do 5 (split; [reflexivity|]).
  (* the acknowledgment *)
  destruct (api.nextMessageWithJsonValue J "res" "next" w4) as [oa w5] eqn:Hack.
  pose proof (push_facts.nextMessageMatching_onlyReads _ _ _ _ Hack)
    as (_ & Hout5 & Hquota5 & _ & _).
  destruct oa as [ack| |].
  2,3: stop_in Hrun Hack; left; by rewrite Hout5.
  rewrite (bind_wrap_Ok _ _ _ _ _ _ Hack) in Hrun.
  destruct (push_facts.nextMessageMatching_claimed _ _ _ _ Hack)
    as (t1 & claimed & Hlog5 & Hclaimed).
  pose proof (api_facts.nextMessageMatching_accepts _ _ _ _ Hack) as Hacc.
  unfold api.jsonMatcher in Hacc.
  destruct (api.Unmarshal_map J ack) as [m|] eqn:Hm; [|done].
  apply bool_decide_eq_true_1 in Hacc.
  destruct (api.Unmarshal_res J ack) as [nextResponse|e] eqn:Hres.
  2:{ unfold bind at 1, call, wrap, lift in Hrun. simpl in Hrun.
      injection Hrun as <- <-. left. by rewrite Hout5. }
  rewrite (bind_Ok _ _ w5 nextResponse w5) in Hrun by reflexivity.
  case_bool_decide as Hnext; simpl in Hrun.
  2:{ injection Hrun as <- <-. left. by rewrite Hout5. }
  (* the payload *)
  destruct (api.ws_quota w5) as [|quota5] eqn:Hq5.
  { assert (Hbin : api.sendBinary encryptedContent w5
                   = (Err "could not send message: write: connection closed", w5)).
    { unfold api.sendBinary, bind, wrap, api.ws_WriteMessage. by rewrite Hq5. }
    stop_in Hrun Hbin. left. by rewrite Hout5. }
  set (w6 := api.print (api.Sent (api.BinaryFrame encryptedContent))
               (api.ws_write (api.BinaryFrame encryptedContent) w5)).
  assert (Hbin : api.sendBinary encryptedContent w5 = (Ok tt, w6)).
  { unfold api.sendBinary, bind, wrap, api.ws_WriteMessage. by rewrite Hq5. }
  rewrite (bind_wrap_Ok _ _ _ _ _ _ Hbin) in Hrun.
  assert (Hrest : api.onlyReads w6 w').
  { revert Hrun. generalize w6 o w'.
    change (respects api.onlyReads
      (bind (wrap "error reading push response: "
               (api.nextMessageWithJsonValue J "op" "push"))
         (fun response =>
          bind (call "could not unmarshal push response: "
                  (api.Unmarshal_IncomingPushMessage J response))
            (fun _ =>
             bind (wrap "error reading ok response: "
                     (api.nextMessageWithJsonValue J "op" "ok"))
               (fun response =>
                bind (call "could not unmarshal ok response: "
                        (api.Unmarshal_op J response))
                  (fun okResponse =>
                   if negb (bool_decide (okResponse = "ok"))
                   then fail "ok response is not 'ok'" else ret tt)))))).
    apply (respects_bind api.onlyReads); [|intros response].
    { apply (respects_wrap api.onlyReads).
      apply push_facts.nextMessageMatching_onlyReads. }
    apply (respects_bind api.onlyReads);
      [apply (respects_call api.onlyReads)|intros _].
    apply (respects_bind api.onlyReads); [|intros response'].
    { apply (respects_wrap api.onlyReads).
      apply push_facts.nextMessageMatching_onlyReads. }
    apply (respects_bind api.onlyReads);
      [apply (respects_call api.onlyReads)|intros ok].
    apply respects_if;
      [apply (respects_fail api.onlyReads)
      |apply (respects_ret api.onlyReads)]. }
  destruct Hrest as (_ & Hout' & _ & _ & t3 & Hlog').
  right. split.
  - rewrite Hout'. simpl. rewrite Hout5. simpl. by rewrite <- app_assoc.
  - exists t1, ack, claimed, t3, m. split; [|done].
    rewrite Hlog'. simpl. rewrite Hlog5. simpl. by rewrite <- !app_assoc.
Qed.

(** ** The handshake *)

Module init_facts.
Import api.

Section Handshake.
Context (J : JsonLib).


Lemma SendInit_loop_skip turns acc w f tail :
  Forall (api.rejected (awaited J)) (filteredQueue w) →
  ws_inbox w = f :: tail →
  (awaited J) f = false →
  SendInit_loop J (S turns) acc w =
  SendInit_loop J (S turns) acc (api.afterReads w [f] tail [Received f]).
Proof.
  intros Hq Hin Hf. cbn [SendInit_loop].
  unfold bind at 1, wrap at 1. unfold nextMessageMatchingJson.
  change (jsonMatcher J pushOrReady) with (awaited J).
  rewrite (api_facts.nextMessageMatching_skip (awaited J) w f tail Hq Hin Hf).
  reflexivity.
Qed.

Lemma SendInit_loop_runs (v : Z) (ready : bytes) (rest : list bytes)
      (burst : list bytes) :
  readyWith J v ready →
  Forall (fun f => (awaited J) f = true → decodablePush J f) burst →
  ∀ w turns acc,
    Forall (api.rejected (awaited J)) (filteredQueue w) →
    ws_inbox w = burst ++ ready :: rest →
    length burst < turns →
    ∃ w', SendInit_loop J turns acc w =
            (Ok {| RemoteUid := v; PushedFiles := acc ++ pushesOf J burst |}, w') ∧
          filteredQueue w' = filteredQueue w ++ othersOf J burst ∧
          ws_inbox w' = rest ∧
          ws_outbox w' = ws_outbox w.
Proof.
  intros (mr & Hmr & Hnotpush & Hisready & Hv) Hburst.
  assert (Hready : (awaited J) ready = true).
  { unfold awaited, jsonMatcher, pushOrReady. rewrite Hmr, Hisready.
    by rewrite orb_true_r. }
  induction Hburst as [|f burst Hf _ IH]; intros w turns acc Hq Hin Hturns.
  - destruct turns as [|turns]; [simpl in Hturns; lia|].
      cbn [SendInit_loop]. unfold nextMessageMatchingJson.
      change (jsonMatcher J pushOrReady) with (awaited J).
    pose proof (api_facts.nextMessageMatching_read (awaited J) w [] ready rest
                  Hq Hin (Forall_nil_2 _) Hready) as Hnext.
    rewrite (bind_wrap_Ok _ _ _ _ _ _ Hnext).
    rewrite Hmr, bind_call_Success, Hnotpush, Hisready, Hv, bind_call_Success.
    change (pushesOf J []) with (@nil IncomingPushMessage). rewrite app_nil_r.
    eexists. split; [reflexivity|]. simpl. by rewrite !app_nil_r.
  - destruct ((awaited J) f) eqn:Hawaited.
    + destruct (Hf eq_refl) as (m & d & Hm & Hpush & Hd).
      destruct turns as [|turns]; [simpl in Hturns; lia|].
      cbn [SendInit_loop]. unfold nextMessageMatchingJson.
      change (jsonMatcher J pushOrReady) with (awaited J).
      pose proof (api_facts.nextMessageMatching_read (awaited J) w [] f
                    (burst ++ ready :: rest) Hq Hin (Forall_nil_2 _) Hawaited)
        as Hnext.
      change ((Received <$> []) ++ [Received f; Matched f])
        with [Received f; Matched f] in Hnext.
      rewrite (bind_wrap_Ok _ _ _ _ _ _ Hnext).
      rewrite Hm, bind_call_Success, Hpush, Hd, bind_call_Success.
      destruct (IH (api.afterReads w [] (burst ++ ready :: rest)
                      [Received f; Matched f]) turns (acc ++ [d]))
        as (w' & Hrun & Hq' & Hin' & Hout'); [simpl; by rewrite app_nil_r|done|
                                               simpl in Hturns; lia|].
      exists w'. split.
      * rewrite Hrun. unfold pushesOf. simpl. rewrite Hawaited, Hd.
        by rewrite <- app_assoc.
      * rewrite Hq', Hin', Hout'. simpl. unfold othersOf.
        rewrite filter_cons_False by (by rewrite Hawaited).
        by rewrite app_nil_r.
    + destruct turns as [|turns]; [simpl in Hturns; lia|].
      rewrite (SendInit_loop_skip turns acc w f (burst ++ ready :: rest))
        by done.
      destruct (IH (api.afterReads w [f] (burst ++ ready :: rest)
                      [Received f]) (S turns) acc)
        as (w' & Hrun & Hq' & Hin' & Hout');
        [simpl; apply Forall_app; split; [done|by constructor]|done|
         simpl in Hturns; lia|].
      exists w'. split.
      * rewrite Hrun. unfold pushesOf. simpl. by rewrite Hawaited.
      * rewrite Hq', Hin', Hout'. simpl. unfold othersOf.
        rewrite filter_cons_True by done. by rewrite <- app_assoc.
Qed.
End Handshake.
End init_facts.

(** C6, as the code has it. After the init acknowledgment, [SendInit] claims
    only frames whose op is push or ready: the push frames are accumulated in
    arrival order and the first ready frame ends the phase with the server's
    version counter. A frame of any other kind that arrives during the phase
    does not fail the handshake: it is appended to the filtered queue, in
    arrival order, and the handshake goes on. *)
Theorem C6_SendInit_buffers_other_frames
    (J : api.JsonLib) (w : api.World)
    (ack ready : bytes) (burst rest : list bytes) (v : Z)
    (mack : gmap string api.jval) :
  api.ws_quota w ≠ 0 →
  Forall (api.rejected
            (api.jsonMatcher J (fun m => bool_decide (m !! "res" = Some (api.JString "ok")))))
         (api.filteredQueue w) →
  Forall (api.rejected (api.awaited J)) (api.filteredQueue w) →
  api.ws_inbox w = ack :: burst ++ ready :: rest →
  api.Unmarshal_map J ack = Success mack →
  mack !! "res" = Some (api.JString "ok") →
  api.Unmarshal_res J ack = Success "ok" →
  Forall (fun f => api.awaited J f = true → api.decodablePush J f) burst →
  api.readyWith J v ready →
  ∃ w', api.SendInit J w =
          (Ok {| api.RemoteUid := v; api.PushedFiles := api.pushesOf J burst |}, w') ∧
        api.filteredQueue w' = api.filteredQueue w ++ api.othersOf J burst ∧
        api.ws_inbox w' = rest.
Proof.
  intros Hquota Hq_ack Hq Hin Hmack Hres Hdec Hburst Hready.
  unfold api.SendInit.
  set (init := api.MsgInit (api.Id (api.Vault w)) (api.authToken w) (api.keyhash w)
                 0 true "obsidian-sync").
  set (w1 := api.print (api.Sent (api.JSONFrame init)) (api.ws_write (api.JSONFrame init) w)).
  assert (Hsend : api.sendMessage init w = (Ok tt, w1)).
  { unfold api.sendMessage, bind, wrap, api.ws_WriteJSON.
    destruct (api.ws_quota w); [done|reflexivity]. }
  rewrite (bind_wrap_Ok _ _ _ _ _ _ Hsend).
  assert (Hack : api.nextMessageWithJsonValue J "res" "ok" w1 =
                 (Ok ack, api.afterReads w1 [] (burst ++ ready :: rest)
                            [api.Received ack; api.Matched ack])).
  { unfold api.nextMessageWithJsonValue, api.nextMessageMatchingJson.
    apply (api_facts.nextMessageMatching_read _ w1 [] ack (burst ++ ready :: rest));
      [done|done|constructor|].
    unfold api.jsonMatcher. rewrite Hmack. by apply bool_decide_eq_true_2. }
  rewrite (bind_wrap_Ok _ _ _ _ _ _ Hack).
  rewrite Hdec, bind_call_Success. simpl negb. cbv iota.
  destruct (init_facts.SendInit_loop_runs J v ready rest burst Hready Hburst
              (api.afterReads w1 [] (burst ++ ready :: rest)
                 [api.Received ack; api.Matched ack])
              (S (length (api.filteredQueue w ++ [])
                  + length (burst ++ ready :: rest))) [])
    as (w' & Hrun & Hq' & Hin' & _).
  - simpl. by rewrite app_nil_r.
  - reflexivity.
  - rewrite !length_app. simpl. lia.
  - exists w'. split; [exact Hrun|]. split; [|done].
    rewrite Hq'. simpl. by rewrite app_nil_r.
Qed.

(** ** The theorems at concrete inputs *)

Lemma rangeOrder_map_to_list {V} (m : gmap string V) :
  sync.rangeOrder m (map_to_list m).
Proof. unfold sync.rangeOrder. reflexivity. Defined.

(** C9 at the pushed file of the examples, on the state [both]. *)
Lemma C9_UpdateWithPush_frame_witness :
  sync.RemoteEntries (sync.UpdateWithPush examples.pushed examples.both) !! "ef56"
  = Some examples.remoteFolder.
Proof.
  destruct (C9_UpdateWithPush_frame examples.both examples.pushed) as (_ & Hother & _).
  rewrite (Hother "ef56"); [reflexivity|]. vm_compute. discriminate.
Defined.

(** C10 at the folder of [both]. *)
Lemma C10_matching_folders_no_action_witness :
  let p := sync.decide_ examples.both
             (map_to_list (sync.RemoteEntries examples.both))
             (map_to_list (sync.LocalFiles examples.both)) in
  ("ef56" ∉ sync.pullPaths p) ∧ ("ef56" ∉ sync.pushPaths p) ∧
  ("ef56" ∉ sync.deletePaths p) ∧ ("ef56" ∉ sync.newFolderPaths p) ∧
  ("ef56" ∉ sync.conflictPaths p).
Proof.
  apply (C10_matching_folders_no_action examples.both _ _ "ef56"
           examples.localFolder examples.remoteFolder).
  - apply rangeOrder_map_to_list.
  - apply rangeOrder_map_to_list.
  - vm_compute. reflexivity.
  - vm_compute. reflexivity.
  - reflexivity.
  - reflexivity.
Defined.

(** C4 at the file of [both], modified at 300 locally and at 100 remotely. *)
Lemma C4_conflict_flagged_and_left_alone_witness :
  let p := sync.decide_ examples.both
             (map_to_list (sync.RemoteEntries examples.both))
             (map_to_list (sync.LocalFiles examples.both)) in
  "ab12" ∈ sync.conflictPaths p ∧
  ("ab12" ∉ sync.pullPaths p) ∧ ("ab12" ∉ sync.pushPaths p) ∧
  ("ab12" ∉ sync.deletePaths p) ∧ ("ab12" ∉ sync.newFolderPaths p) ∧
  ∀ w o s' w',
    sync.SyncFiles instance.cryptoLib instance.jsonLib examples.noFiles 1700000000000000000
      (map_to_list (sync.RemoteEntries examples.both))
      (map_to_list (sync.LocalFiles examples.both)) (examples.both, w)
      = (o, (s', w')) →
    sync.LocalFiles s' !! "ab12" = Some (examples.localFile 300) ∧
    sync.RemoteEntries s' !! "ab12" = Some (examples.remoteFile 100) ∧
    sync.RemoteEntries s' = sync.RemoteEntries examples.both.
Proof.
  apply (C4_conflict_flagged_and_left_alone instance.cryptoLib instance.jsonLib
           examples.noFiles 1700000000000000000 examples.both _ _ "ab12"
           (examples.localFile 300) (examples.remoteFile 100)).
  - apply rangeOrder_map_to_list.
  - apply rangeOrder_map_to_list.
  - vm_compute. reflexivity.
  - vm_compute. reflexivity.
  - reflexivity.
  - reflexivity.
  - vm_compute. reflexivity.
Defined.


(** C5 as stated fails on [kindChange]: the path is both deleted and
    pulled. *)
Lemma C5_counterexample :
  sync.rangeOrder (sync.RemoteEntries examples.kindChange)
    [("ab12", examples.remoteFile 100)] ∧
  sync.rangeOrder (sync.LocalFiles examples.kindChange)
    [("ab12", examples.localFolder)] ∧
  ¬ sync.pairwiseDisjoint
      (sync.decide_ examples.kindChange
         [("ab12", examples.remoteFile 100)] [("ab12", examples.localFolder)]).
Proof.
  split; [|split].
  - unfold sync.rangeOrder. vm_compute. reflexivity.
  - unfold sync.rangeOrder. vm_compute. reflexivity.
  - intros H. destruct (H "ab12") as (_ & Hpd & _). apply Hpd.
    vm_compute. split; apply list_elem_of_here.
Qed.

(** C5 as amended, at [kindChange]. *)
Lemma C5_decision_sets_overlap_only_on_kind_change_witness :
  let p := sync.decide_ examples.kindChange
             [("ab12", examples.remoteFile 100)] [("ab12", examples.localFolder)] in
  "ab12" ∈ sync.deletePaths p ∧ "ab12" ∈ sync.pullPaths p.
Proof.
  destruct (C5_decision_sets_overlap_only_on_kind_change examples.kindChange
              [("ab12", examples.remoteFile 100)] [("ab12", examples.localFolder)])
    as (_ & _ & _ & _ & Hboth).
  - unfold sync.rangeOrder. vm_compute. reflexivity.
  - unfold sync.rangeOrder. vm_compute. reflexivity.
  - apply (Hboth "ab12" examples.localFolder (examples.remoteFile 100)).
    + vm_compute. reflexivity.
    + vm_compute. reflexivity.
    + reflexivity.
    + reflexivity.
Defined.

(** C7 on a queue of three frames, the second of which is a ready frame. *)
Lemma C7_nextMessageMatching_first_match_witness :
  ∃ w', api.nextMessageMatching examples.isReady examples.queued
          = (Ok examples.readyFrame, w') ∧
        api.filteredQueue w' = [examples.pongFrame] ++ [examples.pushFrame] ∧
        api.ws_inbox w' = api.ws_inbox examples.queued ∧
        api.stdout w' = api.stdout examples.queued ++ [api.Unqueued examples.readyFrame].
Proof.
  apply (proj1 (C7_nextMessageMatching_first_match examples.isReady examples.queued)
           [examples.pongFrame] examples.readyFrame [examples.pushFrame]).
  - reflexivity.
  - constructor; [|constructor]. vm_compute. reflexivity.
  - vm_compute. reflexivity.
Defined.

(** The stand-in cipher opens what it sealed. *)
Lemma instance_Open_Seal (g nonce plaintext : bytes) :
  instance.Open g nonce (instance.Seal g nonce plaintext) = Success plaintext.
Proof.
  unfold instance.Open, instance.Seal.
  assert (Hlen : length (instance.tag g nonce plaintext) = 16)
    by (unfold instance.tag; apply length_replicate).
  rewrite length_app, Hlen.
  destruct (decide (16 ≤ length plaintext + 16)); [|lia].
  replace (length plaintext + 16 - 16) with (length plaintext) by lia.
  rewrite take_app_length, drop_app_length.
  by rewrite decide_True.
Defined.

(** C2 on the stand-in cipher: the empty payload, two random sources that
    start differently. *)
Lemma C2_encrypt_decrypt_roundtrip_witness :
  ∃ c1 c2,
    (crypto.Encrypt instance.cryptoLib [] examples.pw examples.slt
       (bytes_of "0123456789abcdef")).1 = Ok c1 ∧
    (crypto.Encrypt instance.cryptoLib [] examples.pw examples.slt
       (bytes_of "zyxwvutsrqponmlk")).1 = Ok c2 ∧
    c1 ≠ c2 ∧
    crypto.Decrypt instance.cryptoLib c1 examples.pw examples.slt = Ok [] ∧
    crypto.Decrypt instance.cryptoLib c2 examples.pw examples.slt = Ok [].
Proof.
  apply (proj2 (C2_encrypt_decrypt_roundtrip instance.cryptoLib [] examples.pw
                  examples.slt
                  (take 32 (examples.pw ++ examples.slt ++ replicate 32 Byte.x00))
                  (take 32 (examples.pw ++ examples.slt ++ replicate 32 Byte.x00))
                  (take 32 (examples.pw ++ examples.slt ++ replicate 32 Byte.x00))
                  eq_refl eq_refl eq_refl
                  (fun nonce _ => instance_Open_Seal _ nonce []))).
  - vm_compute. lia.
  - vm_compute. lia.
  - vm_compute. discriminate.
Defined.

(** C3 on a one-byte input. *)
Lemma C3_Decrypt_panics_below_nonce_size_witness :
  crypto.Decrypt instance.cryptoLib [Byte.x41] examples.pw examples.slt
  = Panic "slice bounds out of range".
Proof.
  apply (C3_Decrypt_panics_below_nonce_size instance.cryptoLib [Byte.x41]
           examples.pw examples.slt
           (take 32 (examples.pw ++ examples.slt ++ replicate 32 Byte.x00))
           (take 32 (examples.pw ++ examples.slt ++ replicate 32 Byte.x00))
           (take 32 (examples.pw ++ examples.slt ++ replicate 32 Byte.x00))
           eq_refl eq_refl eq_refl).
  vm_compute. lia.
Defined.

(** C1 on a pull whose header declares 99 bytes while 33 arrive: the size
    error. *)
Lemma C1_PullFile_integrity_witness :
  api.PullFile instance.cryptoLib instance.jsonLib 5 "00" examples.pulling =
    (Err "decrypted data size does not match size in header", examples.pulling3).
Proof.
  destruct (C1_PullFile_integrity instance.cryptoLib instance.jsonLib 5 "00"
              examples.pulling examples.pulling1 examples.pulling2 examples.pulling3
              examples.headerFrame examples.pieceFrame examples.pullHeader)
    as (_ & Hsize & _).
  - vm_compute. reflexivity.
  - vm_compute. reflexivity.
  - vm_compute. reflexivity.
  - vm_compute. reflexivity.
  - apply Hsize. vm_compute. discriminate.
Defined.

(** C8 on a push the peer answers as expected. *)
Lemma C8_PushFile_descriptor_then_payload_witness :
  ∃ desc,
    api.out_Op desc = "push" ∧
    api.out_Path desc = instance.EncodeToString examples.encryptedPath ∧
    api.out_Hash desc = instance.EncodeToString examples.encryptedContentSum ∧
    api.out_Size desc = Z.of_nat (length examples.encryptedContent) ∧
    api.out_Pieces desc = 1%Z ∧
    (api.ws_outbox examples.pushRun.2 =
       api.ws_outbox examples.pushing ++ [api.JSONFrame (api.MsgPush desc)] ∨
     (api.ws_outbox examples.pushRun.2 =
        api.ws_outbox examples.pushing ++ [api.JSONFrame (api.MsgPush desc);
                                           api.BinaryFrame examples.encryptedContent] ∧
      ∃ t1 ack claimed t3 m,
        api.stdout examples.pushRun.2 =
          api.stdout examples.pushing ++ [api.Sent (api.JSONFrame (api.MsgPush desc))]
            ++ t1 ++ [claimed; api.Sent (api.BinaryFrame examples.encryptedContent)]
            ++ t3 ∧
        (claimed = api.Unqueued ack ∨ claimed = api.Matched ack) ∧
        api.Unmarshal_map instance.jsonLib ack = Success m ∧
        m !! "res" = Some (api.JString "next"))).
Proof.
  apply (proj1 (C8_PushFile_descriptor_then_payload instance.cryptoLib instance.jsonLib
                  "a.md" "md" 1 2 false false examples.pushedContent examples.pushing
                  examples.pushRun.1 examples.pushRun.2
                  (surjective_pairing examples.pushRun))).
  - vm_compute. reflexivity.
  - vm_compute. reflexivity.
  - vm_compute. reflexivity.
  - vm_compute. discriminate.
Defined.

(** C6 as stated fails when a pong arrives between the acknowledgment and
    the ready frame: the handshake succeeds and the pong is in the queue. *)
Lemma C6_counterexample :
  api.ws_inbox examples.pongDuringHandshake
    = [examples.ackFrame; examples.pongFrame; examples.readyFrame] ∧
  api.awaited instance.jsonLib examples.pongFrame = false ∧
  (api.SendInit instance.jsonLib examples.pongDuringHandshake).1
    = Ok {| api.RemoteUid := 7; api.PushedFiles := [] |} ∧
  api.filteredQueue (api.SendInit instance.jsonLib examples.pongDuringHandshake).2
    = [examples.pongFrame].
Proof. vm_compute. repeat split; reflexivity. Qed.

(** C6 as amended, on a handshake with a pong and a push before the ready
    frame. *)
Lemma C6_SendInit_buffers_other_frames_witness :
  ∃ w', api.SendInit instance.jsonLib examples.busyHandshake =
          (Ok {| api.RemoteUid := 7; api.PushedFiles := [examples.pushed] |}, w') ∧
        api.filteredQueue w' = [examples.pongFrame] ∧
        api.ws_inbox w' = [examples.sizeFrame].
Proof.
  apply (C6_SendInit_buffers_other_frames instance.jsonLib examples.busyHandshake
           examples.ackFrame examples.readyFrame
           [examples.pongFrame; examples.pushFrame] [examples.sizeFrame] 7
           {[ "res" := api.JString "ok" ]}).
  - vm_compute. discriminate.
  - constructor.
  - constructor.
  - reflexivity.
  - vm_compute. reflexivity.
  - vm_compute. reflexivity.
  - vm_compute. reflexivity.
  - constructor; [|constructor; [|constructor]].
    + intros H. vm_compute in H. discriminate.
    + intros _. unfold api.decodablePush.
      eexists _, _. split; [vm_compute; reflexivity|].
      split; vm_compute; reflexivity.
  - unfold api.readyWith. eexists. split; [vm_compute; reflexivity|].
    split; [vm_compute; reflexivity|]. split; vm_compute; reflexivity.
Defined.

(** ** The turn bounds are never exhausted *)

Module bounds.
Import api.

Lemma nextMessageMatching_no_panic matcher w p w' :
  nextMessageMatching matcher w ≠ (Panic p, w').
Proof.
  destruct (api_facts.first_accepted matcher (filteredQueue w))
    as [Hq|(pre & m & post & Hq & Hpre & Hm)].
  - destruct (api_facts.first_accepted matcher (ws_inbox w))
      as [Hi|(pre & m & post & Hi & Hpre & Hm)].
    + by rewrite api_facts.nextMessageMatching_closed.
    + by rewrite (api_facts.nextMessageMatching_read matcher w pre m post).
  - by rewrite (api_facts.nextMessageMatching_queued matcher w pre m post).
Qed.

(** What a successful call leaves to be claimed by the same matcher. *)
Lemma nextMessageMatching_measure matcher w msg w' :
  nextMessageMatching matcher w = (Ok msg, w') →
  length (filter (fun f => matcher f = true) (filteredQueue w')) + length (ws_inbox w')
  < length (filter (fun f => matcher f = true) (filteredQueue w)) + length (ws_inbox w).
Proof.
  assert (Hnone : ∀ l, Forall (api.rejected matcher) l →
                       filter (fun f => matcher f = true) l = []).
  { intros l Hl. induction Hl as [|f l Hf _ IH]; [done|].
    rewrite filter_cons_False; [done|]. unfold api.rejected in Hf. congruence. }
  destruct (api_facts.first_accepted matcher (filteredQueue w))
    as [Hq|(pre & m & post & Hq & Hpre & Hm)].
  - destruct (api_facts.first_accepted matcher (ws_inbox w))
      as [Hi|(pre & m & post & Hi & Hpre & Hm)].
    + by rewrite api_facts.nextMessageMatching_closed.
    + rewrite (api_facts.nextMessageMatching_read matcher w pre m post) by done.
      intros [= <- <-]. simpl. rewrite filter_app, !Hnone by done.
      rewrite Hi, !length_app. simpl. lia.
  - rewrite (api_facts.nextMessageMatching_queued matcher w pre m post) by done.
    intros [= <- <-]. simpl. rewrite Hq, !filter_app, !length_app.
    rewrite (filter_cons_True _ m) by done. simpl. lia.
Qed.

Section Handshake.
Context (J : JsonLib).

Lemma SendInit_loop_enough_turns turns :
∀ acc w p w',
  length (filter (fun f => api.awaited J f = true) (filteredQueue w))
    + length (ws_inbox w) < turns →
  SendInit_loop J turns acc w ≠ (Panic p, w').
Proof.
induction turns as [|turns IH]; intros acc w p w' Hturns; [lia|].
cbn [SendInit_loop]. unfold nextMessageMatchingJson.
change (jsonMatcher J pushOrReady) with (api.awaited J).
destruct (nextMessageMatching (api.awaited J) w) as [[msg|e|p0] w1] eqn:Hnext.
- rewrite (bind_wrap_Ok _ _ _ _ _ _ Hnext).
  apply nextMessageMatching_measure in Hnext.
  destruct (Unmarshal_map J msg) as [data|e]; [|done].
  rewrite bind_call_Success.
  destruct (opIs "push" data).
  + destruct (Unmarshal_IncomingPushMessage J msg) as [d|e]; [|done].
    rewrite bind_call_Success. apply IH. lia.
  + destruct (opIs "ready" data); [|done].
    by destruct (Unmarshal_ready J msg).
- by rewrite (bind_Err _ _ _ _ _ (wrap_Err _ _ _ _ _ Hnext)).
- by apply nextMessageMatching_no_panic in Hnext.
Qed.

Lemma SendInit_no_panic w p w' : SendInit J w ≠ (Panic p, w').
Proof.
unfold SendInit.
set (init := MsgInit _ _ _ _ _ _).
destruct (sendMessage init w) as [[[]|e|p0] w1] eqn:Hsend.
- rewrite (bind_wrap_Ok _ _ _ _ _ _ Hsend).
  destruct (nextMessageWithJsonValue J "res" "ok" w1) as [[ack|e|p0] w2] eqn:Hack.
  + rewrite (bind_wrap_Ok _ _ _ _ _ _ Hack).
    destruct (Unmarshal_res J ack) as [data|e]; [|done].
    rewrite bind_call_Success.
    case_bool_decide; cbn [negb]; [|done].
    apply SendInit_loop_enough_turns.
    pose proof (length_filter (fun f => api.awaited J f = true)
                  (filteredQueue w2)). lia.
  + by rewrite (bind_Err _ _ _ _ _ (wrap_Err _ _ _ _ _ Hack)).
  + by apply nextMessageMatching_no_panic in Hack.
- by rewrite (bind_Err _ _ _ _ _ (wrap_Err _ _ _ _ _ Hsend)).
- unfold sendMessage, bind, wrap, ws_WriteJSON in Hsend.
  destruct (ws_quota w); simpl in Hsend; discriminate.
Qed.
End Handshake.
End bounds.
(** * Further properties *)

(** ** The decision step, entry by entry *)

Module decision.
Import sync.

Section Table.
Context (s : State).

(** What visiting one remote entry appends, by the kind and the times of the
    two entries. *)
Lemma remoteStep_absent x r :
  LocalFiles s !! x = None →
  remoteStep s emptyPlan (x, r) =
    if r_IsFolder r then addNewFolder x emptyPlan else addPull x emptyPlan.
Proof. intros H. unfold remoteStep. by rewrite H. Qed.

Lemma remoteStep_local_folder x l r :
  LocalFiles s !! x = Some l → IsFolder l = true →
  remoteStep s emptyPlan (x, r) =
    if r_IsFolder r then emptyPlan else addPull x (addDelete x emptyPlan).
Proof.
  intros H Hl. unfold remoteStep. rewrite H, Hl. by destruct (r_IsFolder r).
Qed.

Lemma remoteStep_local_file x l r :
  LocalFiles s !! x = Some l → IsFolder l = false →
  remoteStep s emptyPlan (x, r) =
    when (Modified l >? r_Modified r)%Z (addConflict x)
      (when (Modified l <? r_Modified r)%Z (addPull x)
         (if r_IsFolder r then addNewFolder x (addDelete x emptyPlan) else emptyPlan)).
Proof.
  intros H Hl. unfold remoteStep. rewrite H, Hl. by destruct (r_IsFolder r).
Qed.

Lemma localStep_absent x l :
  RemoteEntries s !! x = None →
  localStep s emptyPlan (x, l) =
    when (Created l <? LastSync s)%Z (addDelete x)
      (when (Modified l >? 0)%Z (addPush x) emptyPlan).
Proof. intros H. unfold localStep. by rewrite H. Qed.

Ltac slices :=
  unfold when; cbn;
  rewrite ?elem_of_app, ?elem_of_cons, ?elem_of_nil.

Ltac table :=
  repeat split; intros;
  repeat match goal with
  | H : ∃ _, _ |- _ => destruct H
  | H : _ ∧ _ |- _ => destruct H
  | H : _ ∨ _ |- _ => destruct H
  | H : False |- _ => destruct H
  end; simplify_eq;
  try done; try lia; try congruence; try tauto;
  try (eexists; repeat split; first [eassumption | lia | congruence]).

(** The slices one remote entry contributes to. *)
Lemma remoteStep_table x r :
  (x ∈ pullPaths (remoteStep s emptyPlan (x, r)) ↔
   match LocalFiles s !! x with
   | None => r_IsFolder r = false
   | Some l => if IsFolder l then r_IsFolder r = false
               else (Modified l < r_Modified r)%Z
   end) ∧
  (x ∈ newFolderPaths (remoteStep s emptyPlan (x, r)) ↔
   r_IsFolder r = true ∧
   match LocalFiles s !! x with
   | None => True
   | Some l => IsFolder l = false
   end) ∧
  (x ∈ conflictPaths (remoteStep s emptyPlan (x, r)) ↔
   ∃ l, LocalFiles s !! x = Some l ∧ IsFolder l = false ∧
        (Modified l > r_Modified r)%Z) ∧
  (x ∈ deletePaths (remoteStep s emptyPlan (x, r)) ↔
   ∃ l, LocalFiles s !! x = Some l ∧ IsFolder l ≠ r_IsFolder r).
Proof.
  destruct (LocalFiles s !! x) as [l|] eqn:Hl.
  - destruct (IsFolder l) eqn:Hlf.
    + rewrite (remoteStep_local_folder x l r Hl Hlf).
      destruct (r_IsFolder r) eqn:Hrf; slices; table.
    + rewrite (remoteStep_local_file x l r Hl Hlf). rewrite Z.gtb_ltb.
      destruct (Z.ltb_spec (r_Modified r) (Modified l));
        destruct (Z.ltb_spec (Modified l) (r_Modified r));
        destruct (r_IsFolder r) eqn:Hrf; slices; table.
  - rewrite (remoteStep_absent x r Hl).
    destruct (r_IsFolder r) eqn:Hrf; slices; table.
Qed.

(** The slices one local entry contributes to. *)
Lemma localStep_table x l :
  (x ∈ pushPaths (localStep s emptyPlan (x, l)) ↔
   RemoteEntries s !! x = None ∧ (Modified l > 0)%Z) ∧
  (x ∈ deletePaths (localStep s emptyPlan (x, l)) ↔
   RemoteEntries s !! x = None ∧ (Created l < LastSync s)%Z).
Proof.
  destruct (RemoteEntries s !! x) as [r|] eqn:Hr.
  - unfold localStep. rewrite Hr. slices. table.
  - rewrite (localStep_absent x l Hr). rewrite Z.gtb_ltb.
    destruct (Z.ltb_spec 0 (Modified l));
      destruct (Z.ltb_spec (Created l) (LastSync s)); slices; table.
Qed.

(** The five slices of the decision, entry by entry. *)
Lemma slices_iff remoteOrder localOrder x :
  rangeOrder (RemoteEntries s) remoteOrder →
  rangeOrder (LocalFiles s) localOrder →
  let p := decide_ s remoteOrder localOrder in
  (x ∈ pullPaths p ↔
   ∃ r, RemoteEntries s !! x = Some r ∧
        match LocalFiles s !! x with
        | None => r_IsFolder r = false
        | Some l => if IsFolder l then r_IsFolder r = false
                    else (Modified l < r_Modified r)%Z
        end) ∧
  (x ∈ newFolderPaths p ↔
   ∃ r, RemoteEntries s !! x = Some r ∧ r_IsFolder r = true ∧
        match LocalFiles s !! x with
        | None => True
        | Some l => IsFolder l = false
        end) ∧
  (x ∈ conflictPaths p ↔
   ∃ r l, RemoteEntries s !! x = Some r ∧ LocalFiles s !! x = Some l ∧
          IsFolder l = false ∧ (Modified l > r_Modified r)%Z) ∧
  (x ∈ pushPaths p ↔
   ∃ l, LocalFiles s !! x = Some l ∧ RemoteEntries s !! x = None ∧
        (Modified l > 0)%Z) ∧
  (x ∈ deletePaths p ↔
   ∃ l, LocalFiles s !! x = Some l ∧
        match RemoteEntries s !! x with
        | Some r => IsFolder l ≠ r_IsFolder r
        | None => (Created l < LastSync s)%Z
        end).
Proof.
  intros Hro Hlo p. subst p.
  rewrite (sync_facts.pull_iff s _ _ Hro), (sync_facts.newFolder_iff s _ _ Hro),
    (sync_facts.conflict_iff s _ _ Hro), (sync_facts.push_iff s _ _ Hlo),
    (sync_facts.delete_iff s _ _ Hro Hlo).
  pose proof (remoteStep_table x) as Hremote.
  pose proof (localStep_table x) as Hlocal.
  split; [|split; [|split; [|split]]].
  - split; intros (r & Hr & Hx); exists r; (split; [done|]); by apply Hremote.
  - split; intros (r & Hr & Hx); exists r; (split; [done|]); by apply Hremote.
  - split.
    + intros (r & Hr & Hx). apply Hremote in Hx as (l & Hl & Hx). by exists r, l.
    + intros (r & l & Hr & Hl & Hx). exists r. split; [done|].
      apply Hremote. by exists l.
  - split.
    + intros (l & Hl & Hx). exists l. split; [done|]. by apply Hlocal.
    + intros (l & Hl & Hr & Hx). exists l. split; [done|]. by apply Hlocal.
  - split.
    + intros [(r & Hr & Hx)|(l & Hl & Hx)].
      * apply Hremote in Hx as (l & Hl & Hx). exists l. split; [done|]. by rewrite Hr.
      * apply Hlocal in Hx as [Hr Hx]. exists l. split; [done|]. by rewrite Hr.
    + intros (l & Hl & Hx). destruct (RemoteEntries s !! x) as [r|] eqn:Hr.
      * left. exists r. split; [done|]. apply Hremote. by exists l.
      * right. exists l. split; [done|]. by apply Hlocal.
Qed.

(** *** No path twice *)

Lemma NoDup_contributions {V} (m : gmap string V) (order : list (string * V))
      (f : string * V → list string) :
  rangeOrder m order →
  (∀ kv y, y ∈ f kv → y = kv.1) →
  (∀ kv, NoDup (f kv)) →
  NoDup (order ≫= f).
Proof.
  intros Hord Hkey Hone. apply NoDup_bind.
  - intros [k1 v1] [k2 v2] y H1 H2 Hy1 Hy2.
    apply Hkey in Hy1, Hy2. simpl in *. subst k1 k2.
    apply (sync_facts.rangeOrder_elem m order) in H1, H2; [|done..]. congruence.
  - intros kv _. apply Hone.
  - unfold rangeOrder in Hord. rewrite Hord. apply NoDup_map_to_list.
Qed.

Lemma slice_contributions (proj : Plan → list string) remoteOrder localOrder :
  proj emptyPlan = [] →
  (∀ a q, proj (remoteStep s q a) = proj q ++ proj (remoteStep s emptyPlan a)) →
  (∀ a q, proj (localStep s q a) = proj q ++ proj (localStep s emptyPlan a)) →
  proj (decide_ s remoteOrder localOrder) =
    (remoteOrder ≫= fun kv => proj (remoteStep s emptyPlan kv)) ++
    (localOrder ≫= fun kv => proj (localStep s emptyPlan kv)).
Proof.
  intros Hempty Hr Hl. unfold decide_.
  rewrite (sync_facts.foldl_extends (localStep s) proj) by done.
  rewrite (sync_facts.foldl_extends (remoteStep s) proj) by done.
  by rewrite Hempty.
Qed.

Lemma remoteStep_once kv :
  NoDup (pullPaths (remoteStep s emptyPlan kv)) ∧
  NoDup (newFolderPaths (remoteStep s emptyPlan kv)) ∧
  NoDup (conflictPaths (remoteStep s emptyPlan kv)) ∧
  NoDup (deletePaths (remoteStep s emptyPlan kv)).
Proof.
  destruct kv as [x r]. unfold remoteStep, when.
  destruct (LocalFiles s !! x) as [l|];
    [destruct (IsFolder l), (r_IsFolder r); cbn;
       destruct (Modified l <? r_Modified r)%Z eqn:Hlt;
       destruct (Modified l >? r_Modified r)%Z eqn:Hgt
    | destruct (r_IsFolder r)];
    cbn; repeat split;
    first [apply NoDup_nil_2 | apply NoDup_singleton | idtac].
Qed.

Lemma localStep_once kv :
  NoDup (pushPaths (localStep s emptyPlan kv)) ∧
  NoDup (deletePaths (localStep s emptyPlan kv)).
Proof.
  destruct kv as [x l]. unfold localStep, when.
  destruct (RemoteEntries s !! x);
    [| destruct (Modified l >? r_Modified zeroRemote)%Z;
       destruct (Created l <? LastSync s)%Z];
    cbn; repeat split;
    first [apply NoDup_nil_2 | apply NoDup_singleton].
Qed.

Lemma bind_no_contribution {A} (l : list A) (f : A → list string) :
  (∀ a, f a = []) → l ≫= f = [].
Proof.
  intros Hf. induction l as [|a l IH]; [done|].
  by rewrite bind_cons, Hf, IH.
Qed.

Lemma slices_NoDup remoteOrder localOrder :
  rangeOrder (RemoteEntries s) remoteOrder →
  rangeOrder (LocalFiles s) localOrder →
  let p := decide_ s remoteOrder localOrder in
  NoDup (pullPaths p) ∧ NoDup (newFolderPaths p) ∧ NoDup (conflictPaths p) ∧
  NoDup (pushPaths p) ∧ NoDup (deletePaths p).
Proof.
  intros Hro Hlo p. subst p.
  assert (Hr : ∀ proj : Plan → list string, (∀ p x, x ∈ proj p → mentions p x) →
            (∀ kv, NoDup (proj (remoteStep s emptyPlan kv))) →
            NoDup (remoteOrder ≫= fun kv => proj (remoteStep s emptyPlan kv))).
  { intros proj Hm Hone. apply (NoDup_contributions (RemoteEntries s)); [done| |done].
    intros [k v] y Hy. eapply sync_facts.remoteStep_mentions, Hm, Hy. }
  assert (Hl : ∀ proj : Plan → list string, (∀ p x, x ∈ proj p → mentions p x) →
            (∀ kv, NoDup (proj (localStep s emptyPlan kv))) →
            NoDup (localOrder ≫= fun kv => proj (localStep s emptyPlan kv))).
  { intros proj Hm Hone. apply (NoDup_contributions (LocalFiles s)); [done| |done].
    intros [k v] y Hy. eapply sync_facts.localStep_mentions, Hm, Hy. }
  repeat split.
  - rewrite (slice_contributions pullPaths); [|done|..].
    + rewrite (bind_no_contribution localOrder) by apply sync_facts.localStep_pull.
      rewrite app_nil_r. apply Hr; [unfold mentions; tauto|]. intros kv. apply remoteStep_once.
    + intros a q. apply (sync_facts.remoteStep_extends s a q).
    + intros a q. apply (sync_facts.localStep_extends s a q).
  - rewrite (slice_contributions newFolderPaths); [|done|..].
    + rewrite (bind_no_contribution localOrder) by apply sync_facts.localStep_newFolder.
      rewrite app_nil_r. apply Hr; [unfold mentions; tauto|]. intros kv. apply remoteStep_once.
    + intros a q. apply (sync_facts.remoteStep_extends s a q).
    + intros a q. apply (sync_facts.localStep_extends s a q).
  - rewrite (slice_contributions conflictPaths); [|done|..].
    + rewrite (bind_no_contribution localOrder) by apply sync_facts.localStep_conflict.
      rewrite app_nil_r. apply Hr; [unfold mentions; tauto|]. intros kv. apply remoteStep_once.
    + intros a q. apply (sync_facts.remoteStep_extends s a q).
    + intros a q. apply (sync_facts.localStep_extends s a q).
  - rewrite (slice_contributions pushPaths); [|done|..].
    + rewrite (bind_no_contribution remoteOrder) by apply sync_facts.remoteStep_push.
      apply Hl; [unfold mentions; tauto|]. intros kv. apply localStep_once.
    + intros a q. apply (sync_facts.remoteStep_extends s a q).
    + intros a q. apply (sync_facts.localStep_extends s a q).
  - rewrite (slice_contributions deletePaths); [|done|..].
    + apply NoDup_app. split; [|split].
      * apply Hr; [unfold mentions; tauto|]. intros kv. apply remoteStep_once.
      * intros x Hx Hx'.
        apply list_elem_of_bind in Hx as ([k r] & Hx & Hin).
        apply list_elem_of_bind in Hx' as ([k' l] & Hx' & Hin').
        assert (x = k) as <-
          by (eapply sync_facts.remoteStep_mentions; unfold mentions; eauto 6).
        assert (x = k') as <-
          by (eapply sync_facts.localStep_mentions; unfold mentions; eauto 6).
        apply (sync_facts.rangeOrder_elem (RemoteEntries s) remoteOrder) in Hin; [|done].
        apply localStep_table in Hx' as [Hnone _]. congruence.
      * apply Hl; [unfold mentions; tauto|]. intros kv. apply localStep_once.
    + intros a q. apply (sync_facts.remoteStep_extends s a q).
    + intros a q. apply (sync_facts.localStep_extends s a q).
Qed.

End Table.
End decision.

(** X1. The pull, new-folder, conflict, push and delete slices, read off the two
    entries of a path: whatever the order in which the two maps are visited,
    a path is in a slice exactly when its entries satisfy the condition of
    that slice. *)
Theorem SyncFiles_decision_table
    (s : sync.State)
    (remoteOrder : list (string * sync.ObsidianRemoteEntry))
    (localOrder : list (string * sync.ObsidianLocalEntry)) (x : string) :
  sync.rangeOrder (sync.RemoteEntries s) remoteOrder →
  sync.rangeOrder (sync.LocalFiles s) localOrder →
  let p := sync.decide_ s remoteOrder localOrder in
  (x ∈ sync.pullPaths p ↔
   ∃ r, sync.RemoteEntries s !! x = Some r ∧
        match sync.LocalFiles s !! x with
        | None => sync.r_IsFolder r = false
        | Some l => if sync.IsFolder l then sync.r_IsFolder r = false
                    else (sync.Modified l < sync.r_Modified r)%Z
        end) ∧
  (x ∈ sync.newFolderPaths p ↔
   ∃ r, sync.RemoteEntries s !! x = Some r ∧ sync.r_IsFolder r = true ∧
        match sync.LocalFiles s !! x with
        | None => True
        | Some l => sync.IsFolder l = false
        end) ∧
  (x ∈ sync.conflictPaths p ↔
   ∃ r l, sync.RemoteEntries s !! x = Some r ∧ sync.LocalFiles s !! x = Some l ∧
          sync.IsFolder l = false ∧ (sync.Modified l > sync.r_Modified r)%Z) ∧
  (x ∈ sync.pushPaths p ↔
   ∃ l, sync.LocalFiles s !! x = Some l ∧ sync.RemoteEntries s !! x = None ∧
        (sync.Modified l > 0)%Z) ∧
  (x ∈ sync.deletePaths p ↔
   ∃ l, sync.LocalFiles s !! x = Some l ∧
        match sync.RemoteEntries s !! x with
        | Some r => sync.IsFolder l ≠ sync.r_IsFolder r
        | None => (sync.Created l < sync.LastSync s)%Z
        end).
Proof. apply decision.slices_iff. Qed.

(** X2. No path is listed twice in a slice, and the order in which the two maps
    are visited changes the order within a slice only: for two visiting
    orders the slices are permutations of one another. *)
Theorem SyncFiles_slices_once_and_order_independent
    (s : sync.State)
    (remoteOrder remoteOrder' : list (string * sync.ObsidianRemoteEntry))
    (localOrder localOrder' : list (string * sync.ObsidianLocalEntry)) :
  sync.rangeOrder (sync.RemoteEntries s) remoteOrder →
  sync.rangeOrder (sync.LocalFiles s) localOrder →
  sync.rangeOrder (sync.RemoteEntries s) remoteOrder' →
  sync.rangeOrder (sync.LocalFiles s) localOrder' →
  let p := sync.decide_ s remoteOrder localOrder in
  let p' := sync.decide_ s remoteOrder' localOrder' in
  (NoDup (sync.pullPaths p) ∧ NoDup (sync.newFolderPaths p) ∧
   NoDup (sync.conflictPaths p) ∧ NoDup (sync.pushPaths p) ∧
   NoDup (sync.deletePaths p)) ∧
  sync.pullPaths p ≡ₚ sync.pullPaths p' ∧
  sync.newFolderPaths p ≡ₚ sync.newFolderPaths p' ∧
  sync.conflictPaths p ≡ₚ sync.conflictPaths p' ∧
  sync.pushPaths p ≡ₚ sync.pushPaths p' ∧
  sync.deletePaths p ≡ₚ sync.deletePaths p'.
Proof.
  intros Hro Hlo Hro' Hlo' p p'.
  pose proof (decision.slices_NoDup s _ _ Hro Hlo) as (N1 & N2 & N3 & N4 & N5).
  pose proof (decision.slices_NoDup s _ _ Hro' Hlo') as (N1' & N2' & N3' & N4' & N5').
  split; [done|].
  repeat split; (apply NoDup_Permutation; [done | done |]); intros x;
    pose proof (decision.slices_iff s _ _ x Hro Hlo) as (T1 & T2 & T3 & T4 & T5);
    pose proof (decision.slices_iff s _ _ x Hro' Hlo') as (T1' & T2' & T3' & T4' & T5');
    subst p p'.
  - by rewrite T1, T1'.
  - by rewrite T2, T2'.
  - by rewrite T3, T3'.
  - by rewrite T4, T4'.
  - by rewrite T5, T5'.
Qed.

(** ** What a pass does to the state *)

Module pass_facts.
Import sync.

Section Vault.
Context (C : CryptoLib) (J : api.JsonLib) (v : api.VaultInfo).

(** No function of the session changes the vault it talks to. *)
Lemma Vault_printf l : preserves (fun w => api.Vault w = v) (api.printf l).
Proof. intros w o w' [= <- <-]. done. Qed.

Lemma Vault_sendMessage msg : preserves (fun w => api.Vault w = v) (api.sendMessage msg).
Proof.
  unfold api.sendMessage. apply preserves_bind; [|intros _; apply Vault_printf].
  apply preserves_wrap. intros w o w'. unfold api.ws_WriteJSON.
  destruct (api.ws_quota w); intros [= <- <-]; done.
Qed.

Lemma Vault_sendBinary msg : preserves (fun w => api.Vault w = v) (api.sendBinary msg).
Proof.
  unfold api.sendBinary. apply preserves_bind; [|intros _; apply Vault_printf].
  apply preserves_wrap. intros w o w'. unfold api.ws_WriteMessage.
  destruct (api.ws_quota w); intros [= <- <-]; done.
Qed.

Lemma Vault_nextMessageMatching matcher :
  preserves (fun w => api.Vault w = v) (api.nextMessageMatching matcher).
Proof.
  intros w o w' H Hv.
  apply push_facts.nextMessageMatching_onlyReads in H as [H _]. congruence.
Qed.

Lemma Vault_readPieces n data :
  preserves (fun w => api.Vault w = v) (api.readPieces J n data).
Proof.
  revert data. induction n as [|n IH]; intros data; simpl.
  - apply preserves_ret.
  - apply preserves_bind; [|intros m; apply IH].
    apply preserves_wrap, Vault_nextMessageMatching.
Qed.

Lemma Vault_password : preserves (fun w => api.Vault w = v) api.password.
Proof. intros w o w' [= <- <-]. done. Qed.

Lemma Vault_salt : preserves (fun w => api.Vault w = v) api.salt.
Proof. intros w o w' [= <- <-]. done. Qed.

Lemma Vault_Encrypt input pw slt :
  preserves (fun w => api.Vault w = v) (api.Encrypt C input pw slt).
Proof.
  intros w o w'. unfold api.Encrypt.
  destruct (crypto.Encrypt C input pw slt (api.rand_Reader w)) as [o1 r].
  intros [= <- <-]. done.
Qed.

Lemma Vault_PullFile uid expected :
  preserves (fun w => api.Vault w = v) (api.PullFile C J uid expected).
Proof.
  unfold api.PullFile.
  apply preserves_bind; [apply preserves_wrap, Vault_sendMessage|intros _].
  apply preserves_bind; [apply preserves_wrap, Vault_nextMessageMatching|intros header].
  apply preserves_bind; [apply preserves_call|intros h].
  apply preserves_bind; [apply Vault_printf|intros _].
  apply preserves_bind; [apply Vault_readPieces|intros data].
  destruct (negb _); [apply preserves_fail|].
  apply preserves_bind; [apply Vault_password|intros pw].
  apply preserves_bind; [apply Vault_salt|intros slt].
  apply preserves_bind; [apply preserves_wrap, preserves_lift|intros d].
  apply preserves_bind; [apply preserves_wrap, preserves_lift|intros e].
  apply preserves_bind; [apply preserves_call|intros b].
  destruct (negb _); [apply preserves_fail|apply preserves_ret].
Qed.

Lemma Vault_PushFile path ext ctime mtime folder deleted content :
  preserves (fun w => api.Vault w = v)
    (api.PushFile C J path ext ctime mtime folder deleted content).
Proof.
  unfold api.PushFile.
  apply preserves_bind; [apply Vault_password|intros pw].
  apply preserves_bind; [apply Vault_salt|intros slt].
  apply preserves_bind; [apply preserves_wrap, Vault_Encrypt|intros e1].
  apply preserves_bind; [apply preserves_wrap, Vault_Encrypt|intros e2].
  apply preserves_bind; [apply preserves_wrap, Vault_Encrypt|intros e3].
  apply preserves_bind; [apply preserves_wrap, Vault_sendMessage|intros _].
  apply preserves_bind; [apply preserves_wrap, Vault_nextMessageMatching|intros r1].
  apply preserves_bind; [apply preserves_call|intros n].
  destruct (negb _); [apply preserves_fail|].
  apply preserves_bind; [apply preserves_wrap, Vault_sendBinary|intros _].
  apply preserves_bind; [apply preserves_wrap, Vault_nextMessageMatching|intros r2].
  apply preserves_bind; [apply preserves_call|intros p].
  apply preserves_bind; [apply preserves_wrap, Vault_nextMessageMatching|intros r3].
  apply preserves_bind; [apply preserves_call|intros k].
  destruct (negb _); [apply preserves_fail|apply preserves_ret].
Qed.

End Vault.

Section Pass.
Context (C : CryptoLib) (J : api.JsonLib).
Context (os_ReadFile : string → result bytes) (time_Now_UnixNano : Z).

(** The decrypted form of a path, for the vault of [w]. *)
Lemma decryptPath_Ok path s w dp st' :
  decryptPath C path (s, w) = (Ok dp, st') →
  st' = (s, w) ∧
  crypto.DecryptString C path (bytes_of (api.Password (api.Vault w)))
    (bytes_of (api.Salt (api.Vault w))) = Ok dp.
Proof.
  unfold decryptPath, bind, onSocket, api.password, api.salt, wrap, lift.
  destruct (crypto.DecryptString C path _ _) as [d|e|p]; simpl; intros [= <- <-]; done.
Qed.

Lemma showConflict_Ok path s w st' :
  showConflict C path (s, w) = (Ok tt, st') →
  ∃ dp, crypto.DecryptString C path (bytes_of (api.Password (api.Vault w)))
          (bytes_of (api.Salt (api.Vault w))) = Ok dp ∧
        st' = (s, api.print (api.Conflict dp) w).
Proof.
  unfold showConflict. intros H.
  apply bind_Ok_inv in H as (dp & st1 & Hd & H).
  apply decryptPath_Ok in Hd as [-> Hd]. exists dp. split; [done|].
  cbn in H. by injection H as <-.
Qed.

Lemma doDelete_Ok path s w st' :
  doDelete C path (s, w) = (Ok tt, st') →
  ∃ dp, crypto.DecryptString C path (bytes_of (api.Password (api.Vault w)))
          (bytes_of (api.Salt (api.Vault w))) = Ok dp ∧
        st' = (set_LocalFiles (delete path (LocalFiles s)) s,
               api.print (api.Deleting dp) w).
Proof.
  unfold doDelete. intros H.
  apply bind_Ok_inv in H as (dp & st1 & Hd & H).
  apply decryptPath_Ok in Hd as [-> Hd]. exists dp. split; [done|].
  cbn in H. by injection H as <-.
Qed.

Lemma doNewFolder_Ok path s w st' :
  doNewFolder C path (s, w) = (Ok tt, st') →
  ∃ dp, crypto.DecryptString C path (bytes_of (api.Password (api.Vault w)))
          (bytes_of (api.Salt (api.Vault w))) = Ok dp ∧
        st' = (set_LocalFiles
                 (<[path := {| Path := dp; Created := 0; Modified := 0;
                               IsFolder := true |}]> (LocalFiles s)) s,
               api.print (api.CreatingFolder dp) w).
Proof.
  unfold doNewFolder. intros H.
  apply bind_Ok_inv in H as (dp & st1 & Hd & H).
  apply decryptPath_Ok in Hd as [-> Hd]. exists dp. split; [done|].
  cbn in H. by injection H as <-.
Qed.

Lemma doPull_Ok path s w st' :
  doPull C J path (s, w) = (Ok tt, st') →
  let r := default zeroRemote (RemoteEntries s !! path) in
  ∃ dp content w1,
    crypto.DecryptString C path (bytes_of (api.Password (api.Vault w)))
      (bytes_of (api.Salt (api.Vault w))) = Ok dp ∧
    api.PullFile C J (Uid r) (EncryptedHash r) (api.print (api.Pulling dp (Uid r)) w)
      = (Ok content, w1) ∧
    st' = (set_LocalFiles
             (<[path := {| Path := dp; Created := r_Created r;
                           Modified := r_Modified r;
                           IsFolder := r_IsFolder r |}]> (LocalFiles s)) s,
           api.print (api.Contents dp content) w1).
Proof.
  intros H. cbv zeta. unfold doPull in H.
  set (r := default zeroRemote (RemoteEntries s !! path)) in *.
  apply bind_Ok_inv in H as (dp & st1 & Hd & H).
  apply decryptPath_Ok in Hd as [-> Hd]. exists dp.
  apply bind_Ok_inv in H as (s0 & st1 & Hs & H).
  injection Hs as <- <-.
  apply bind_Ok_inv in H as ([] & st1 & Hp & H).
  cbn in Hp. injection Hp as <-.
  apply bind_Ok_inv in H as (content & [s1 w1] & Hpull & H).
  apply wrap_Ok_inv in Hpull. unfold onSocket in Hpull.
  destruct (api.PullFile C J _ _ _) as [o1 w1'] eqn:Hrun.
  injection Hpull as -> <- ->.
  exists content, w1. split; [done|]. split; [done|].
  cbn in H. by injection H as <-.
Qed.

(** A loop all of whose turns succeed, followed turn by turn: [P] holds of
    the elements visited so far and of the state reached. *)
Lemma forEach_Ok_fold {St A} (body : A → StM St unit) (P : list A → St → Prop)
      (l : list A) (st st' : St) :
  P [] st →
  (∀ visited x st1 st2,
     P visited st1 → body x st1 = (Ok tt, st2) → P (visited ++ [x]) st2) →
  forEach l body st = (Ok tt, st') → P l st'.
Proof.
  intros H0 Hstep.
  enough (∀ pre st, P pre st → forEach l body st = (Ok tt, st') → P (pre ++ l) st')
    as Hgen by (apply (Hgen [] st); done).
  clear st H0. induction l as [|x l IH]; intros pre st Hpre Hrun; simpl in Hrun.
  - injection Hrun as <-. by rewrite app_nil_r.
  - apply bind_Ok_inv in Hrun as ([] & st1 & Hx & Hrun).
    replace (pre ++ x :: l) with ((pre ++ [x]) ++ l) by (by rewrite <- app_assoc).
    apply (IH _ st1); [|done]. by apply (Hstep pre x st).
Qed.

(** A step that stops the run, or lets it go on from a state that still
    satisfies the invariant. *)
Lemma bind_preserves_split {St A B} (I : St → Prop) (m : StM St A) (k : A → StM St B)
      st o st' :
  bind m k st = (o, st') → preserves I m → I st →
  (∃ a st1, I st1 ∧ k a st1 = (o, st')) ∨ (¬ is_Ok o ∧ I st').
Proof.
  unfold bind. intros H Hm HI. destruct (m st) as [[a|e|p] st1] eqn:E.
  - left. exists a, st1. split; [|done]. by apply (Hm st (Ok a) st1).
  - right. injection H as <- <-. split; [by intros [? ?]|]. by apply (Hm st (Err e)).
  - right. injection H as <- <-. split; [by intros [? ?]|]. by apply (Hm st (Panic p)).
Qed.

(** The fields of the receiver that no loop of the pass writes. *)
Lemma doPush_Ok path s w st' o :
  doPush C J os_ReadFile path (s, w) = (o, st') →
  st'.1 = s ∧ api.Vault st'.2 = api.Vault w.
Proof.
  intros H. split.
  - apply (preserves_doPush C J os_ReadFile (fun s1 => s1 = s) path _ _ _ H). done.
  - revert H. unfold doPush.
    assert (Hp : preserves (fun st : State * api.World => api.Vault st.2 = api.Vault w)
                   (doPush C J os_ReadFile path)).
    { unfold doPush.
      apply preserves_bind; [by intros [s1 w1] o1 [s2 w2] [= <- <- <-]|intros s0].
      apply preserves_bind; [by intros [s1 w1] o1 [s2 w2] [= <- <- <-]|intros _].
      apply preserves_bind; [apply preserves_call|intros contents].
      apply preserves_wrap. intros [s1 w1] o1 [s2 w2]. unfold onSocket.
      destruct (api.PushFile _ _ _ _ _ _ _ _ _ w1) as [o2 w3] eqn:E.
      intros [= <- <- <-]. simpl. intros Hv.
      by apply (Vault_PushFile C J (api.Vault w) _ _ _ _ _ _ _ _ _ _ E). }
    intros H. by apply (Hp _ _ _ H).
Qed.

Section Loops.
Context (v : api.VaultInfo).

(** The loops of a pass whose turns all succeeded, one by one: what they
    leave in [LocalFiles], given what was there. *)
Lemma deletes_Ok l s0 w0 s1 w1 :
  forEach l (doDelete C) (s0, w0) = (Ok tt, (s1, w1)) →
  api.Vault w0 = v →
  api.Vault w1 = v ∧
  RemoteEntries s1 = RemoteEntries s0 ∧ LastSync s1 = LastSync s0 ∧
  Size s1 = Size s0 ∧ Limit s1 = Limit s0 ∧
  (∀ x, x ∈ l →
     is_Ok (crypto.DecryptString C x (bytes_of (api.Password v)) (bytes_of (api.Salt v)))) ∧
  ∀ x, LocalFiles s1 !! x = if decide (x ∈ l) then None else LocalFiles s0 !! x.
Proof.
  intros Hrun Hv.
  apply (forEach_Ok_fold (doDelete C)
    (fun visited st =>
       api.Vault st.2 = v ∧
       RemoteEntries st.1 = RemoteEntries s0 ∧ LastSync st.1 = LastSync s0 ∧
       Size st.1 = Size s0 ∧ Limit st.1 = Limit s0 ∧
       (∀ x, x ∈ visited →
          is_Ok (crypto.DecryptString C x (bytes_of (api.Password v))
                   (bytes_of (api.Salt v)))) ∧
       ∀ x, LocalFiles st.1 !! x =
            if decide (x ∈ visited) then None else LocalFiles s0 !! x)
    l (s0, w0) (s1, w1)); [| |done].
  - simpl. repeat split; try done. intros x Hx. by apply elem_of_nil in Hx.
  - intros visited x [sa wa] [sb wb] (Hva & HR & HT & HS & HL & Hdec & Hlook) Hstep.
    simpl in *. apply doDelete_Ok in Hstep as (dp & Hdp & [= -> ->]). simpl.
    rewrite Hva in Hdp. repeat split; try done.
    + intros y [Hy| ->%list_elem_of_singleton]%elem_of_app; [by apply Hdec|by exists dp].
    + intros y. destruct (decide (y = x)) as [->|Hne].
      * rewrite lookup_delete_eq. rewrite decide_True; [done|].
        apply elem_of_app. right. apply list_elem_of_here.
      * rewrite lookup_delete_ne by done. rewrite Hlook.
        destruct (decide (y ∈ visited)) as [Hin|Hnin].
        -- rewrite decide_True; [done|]. apply elem_of_app. by left.
        -- rewrite decide_False; [done|].
           intros [?| ?%list_elem_of_singleton]%elem_of_app; done.
Qed.

(** A loop whose turn on [x] stores, on success, an entry [entry dp] under
    [x], where [dp] is the decrypted path. *)
Lemma inserts_Ok (body : string → SM unit)
      (entry : State → string → string → ObsidianLocalEntry) l s0 w0 s1 w1 :
  (∀ x sa wa st',
     body x (sa, wa) = (Ok tt, st') →
     ∃ dp, crypto.DecryptString C x (bytes_of (api.Password (api.Vault wa)))
             (bytes_of (api.Salt (api.Vault wa))) = Ok dp ∧
           st'.1 = set_LocalFiles (<[x := entry sa x dp]> (LocalFiles sa)) sa ∧
           api.Vault st'.2 = api.Vault wa) →
  (∀ sa sb x dp, RemoteEntries sa = RemoteEntries sb → entry sa x dp = entry sb x dp) →
  forEach l body (s0, w0) = (Ok tt, (s1, w1)) →
  api.Vault w0 = v →
  api.Vault w1 = v ∧
  RemoteEntries s1 = RemoteEntries s0 ∧ LastSync s1 = LastSync s0 ∧
  Size s1 = Size s0 ∧ Limit s1 = Limit s0 ∧
  (∀ x, x ∈ l →
     ∃ dp, crypto.DecryptString C x (bytes_of (api.Password v)) (bytes_of (api.Salt v))
             = Ok dp ∧
           LocalFiles s1 !! x = Some (entry s0 x dp)) ∧
  (∀ x, x ∉ l → LocalFiles s1 !! x = LocalFiles s0 !! x).
Proof.
  intros Hbody Hentry Hrun Hv.
  apply (forEach_Ok_fold body
    (fun visited st =>
       api.Vault st.2 = v ∧
       RemoteEntries st.1 = RemoteEntries s0 ∧ LastSync st.1 = LastSync s0 ∧
       Size st.1 = Size s0 ∧ Limit st.1 = Limit s0 ∧
       (∀ x, x ∈ visited →
          ∃ dp, crypto.DecryptString C x (bytes_of (api.Password v))
                  (bytes_of (api.Salt v)) = Ok dp ∧
                LocalFiles st.1 !! x = Some (entry s0 x dp)) ∧
       (∀ x, x ∉ visited → LocalFiles st.1 !! x = LocalFiles s0 !! x))
    l (s0, w0) (s1, w1)); [| |done].
  - simpl. repeat split; try done. intros x Hx. by apply elem_of_nil in Hx.
  - intros visited x [sa wa] [sb wb] (Hva & HR & HT & HS & HL & Hin & Hout) Hstep.
    simpl in *. apply Hbody in Hstep as (dp & Hdp & Hsb & Hvb). simpl in *.
    subst sb. simpl. rewrite Hva in Hdp, Hvb. repeat split; try done.
    + intros y Hy. destruct (decide (y = x)) as [->|Hne].
      * exists dp. split; [done|]. rewrite lookup_insert_eq.
        f_equal. by apply Hentry.
      * rewrite lookup_insert_ne by done. apply Hin.
        apply elem_of_app in Hy as [Hy| Hy%list_elem_of_singleton]; done.
    + intros y Hy. rewrite lookup_insert_ne.
      * apply Hout. intros Hy'. apply Hy, elem_of_app. by left.
      * intros ->. apply Hy, elem_of_app. right. apply list_elem_of_here.
Qed.

End Loops.

Lemma conflicts_Ok l s0 w0 s1 w1 :
  forEach l (showConflict C) (s0, w0) = (Ok tt, (s1, w1)) →
  s1 = s0 ∧ api.Vault w1 = api.Vault w0 ∧
  ∀ x, x ∈ l →
    is_Ok (crypto.DecryptString C x (bytes_of (api.Password (api.Vault w0)))
             (bytes_of (api.Salt (api.Vault w0)))).
Proof.
  intros Hrun.
  apply (forEach_Ok_fold (showConflict C)
    (fun visited st =>
       st.1 = s0 ∧ api.Vault st.2 = api.Vault w0 ∧
       ∀ x, x ∈ visited →
         is_Ok (crypto.DecryptString C x (bytes_of (api.Password (api.Vault w0)))
                  (bytes_of (api.Salt (api.Vault w0)))))
    l (s0, w0) (s1, w1)); [| |done].
  - simpl. repeat split. intros x Hx. by apply elem_of_nil in Hx.
  - intros visited x [sa wa] [sb wb] (Hs & Hva & Hdec) Hstep. simpl in *.
    apply showConflict_Ok in Hstep as (dp & Hdp & [= -> ->]). simpl.
    rewrite Hva in Hdp. repeat split; try done.
    intros y [Hy| ->%list_elem_of_singleton]%elem_of_app; [by apply Hdec|by exists dp].
Qed.

Lemma pushes_keep l s0 w0 o s1 w1 :
  forEach l (doPush C J os_ReadFile) (s0, w0) = (o, (s1, w1)) →
  s1 = s0 ∧ api.Vault w1 = api.Vault w0.
Proof.
  intros Hrun.
  assert (Hkeep : preserves
            (fun st : State * api.World => st.1 = s0 ∧ api.Vault st.2 = api.Vault w0)
            (forEach l (doPush C J os_ReadFile))).
  { apply preserves_forEach.
    intros x _ [sa wa] o' st' Hstep [Hs Hv]. simpl in *.
    apply doPush_Ok in Hstep as [-> ->]. done. }
  apply (Hkeep _ _ _ Hrun). done.
Qed.

(** A pass all of whose steps succeeded: the receiver it leaves. *)
Lemma execute_Ok p s w s' w' :
  execute C J os_ReadFile time_Now_UnixNano p (s, w) = (Ok tt, (s', w')) →
  RemoteEntries s' = RemoteEntries s ∧ Size s' = Size s ∧ Limit s' = Limit s ∧
  LastSync s' = (time_Now_UnixNano `quot` 1000000)%Z ∧
  api.Vault w' = api.Vault w ∧
  ∀ x,
    (x ∈ conflictPaths p ∨ x ∈ deletePaths p ∨ x ∈ newFolderPaths p ∨ x ∈ pullPaths p →
     is_Ok (crypto.DecryptString C x (bytes_of (api.Password (api.Vault w)))
              (bytes_of (api.Salt (api.Vault w))))) ∧
    (x ∈ pullPaths p →
     ∃ dp, crypto.DecryptString C x (bytes_of (api.Password (api.Vault w)))
             (bytes_of (api.Salt (api.Vault w))) = Ok dp ∧
           LocalFiles s' !! x =
             Some {| Path := dp;
                     Created := r_Created (default zeroRemote (RemoteEntries s !! x));
                     Modified := r_Modified (default zeroRemote (RemoteEntries s !! x));
                     IsFolder := r_IsFolder (default zeroRemote (RemoteEntries s !! x)) |}) ∧
    (x ∉ pullPaths p → x ∈ newFolderPaths p →
     ∃ dp, crypto.DecryptString C x (bytes_of (api.Password (api.Vault w)))
             (bytes_of (api.Salt (api.Vault w))) = Ok dp ∧
           LocalFiles s' !! x =
             Some {| Path := dp; Created := 0; Modified := 0; IsFolder := true |}) ∧
    (x ∉ pullPaths p → x ∉ newFolderPaths p → x ∈ deletePaths p →
     LocalFiles s' !! x = None) ∧
    (x ∉ pullPaths p → x ∉ newFolderPaths p → x ∉ deletePaths p →
     LocalFiles s' !! x = LocalFiles s !! x).
Proof.
  unfold execute. intros H.
  apply bind_Ok_inv in H as ([] & st0 & H0 & H). cbn in H0. injection H0 as <-.
  apply bind_Ok_inv in H as ([] & [s1 w1] & H1 & H).
  apply conflicts_Ok in H1 as (-> & Hv1 & Hc). simpl in Hv1, Hc.
  apply bind_Ok_inv in H as ([] & [s2 w2] & H2 & H).
  apply (deletes_Ok (api.Vault w)) in H2 as (Hv2 & HR2 & HT2 & HS2 & HL2 & Hd & Hdel);
    [|done].
  apply bind_Ok_inv in H as ([] & [s3 w3] & H3 & H).
  apply (inserts_Ok (api.Vault w) (doNewFolder C)
           (fun _ _ dp => {| Path := dp; Created := 0; Modified := 0; IsFolder := true |}))
    in H3 as (Hv3 & HR3 & HT3 & HS3 & HL3 & Hnew & Hnew'); [| |done|done].
  2:{ intros x sa wa st' Hx. apply doNewFolder_Ok in Hx as (dp & Hdp & ->).
      exists dp. done. }
  apply bind_Ok_inv in H as ([] & [s4 w4] & H4 & H).
  apply (inserts_Ok (api.Vault w) (doPull C J)
           (fun sa x dp =>
              {| Path := dp;
                 Created := r_Created (default zeroRemote (RemoteEntries sa !! x));
                 Modified := r_Modified (default zeroRemote (RemoteEntries sa !! x));
                 IsFolder := r_IsFolder (default zeroRemote (RemoteEntries sa !! x)) |}))
    in H4 as (Hv4 & HR4 & HT4 & HS4 & HL4 & Hpull & Hpull'); [| | |done].
  2:{ intros x sa wa st' Hx. apply doPull_Ok in Hx as (dp & content & wb & Hdp & Hrun & ->).
      exists dp. split; [done|]. split; [done|]. simpl.
      by apply (Vault_PullFile C J (api.Vault wa) _ _ _ _ _ Hrun). }
  2:{ intros sa sb x dp Heq. by rewrite Heq. }
  apply bind_Ok_inv in H as ([] & [s5 w5] & H5 & H).
  apply pushes_keep in H5 as [-> Hv5].
  cbn in H. injection H as <- <-. simpl.
  repeat split; try congruence.
  - intros [Hx|[Hx|[Hx|Hx]]].
    + by apply Hc.
    + by apply Hd.
    + destruct (Hnew x Hx) as (dp & -> & _). by exists dp.
    + destruct (Hpull x Hx) as (dp & -> & _). by exists dp.
  - intros Hx. destruct (Hpull x Hx) as (dp & Hdp & Hl). exists dp. split; [done|].
    rewrite Hl. by rewrite HR3, HR2.
  - intros Hx Hx'. rewrite (Hpull' x Hx). by apply Hnew.
  - intros Hx Hx' Hx''. rewrite (Hpull' x Hx), (Hnew' x Hx'), Hdel.
    by rewrite decide_True.
  - intros Hx Hx' Hx''. rewrite (Hpull' x Hx), (Hnew' x Hx'), Hdel.
    by rewrite decide_False.
Qed.

(** However a pass ends: the fields and the paths it leaves alone. *)
Lemma execute_frame p s w o s' w' :
  execute C J os_ReadFile time_Now_UnixNano p (s, w) = (o, (s', w')) →
  RemoteEntries s' = RemoteEntries s ∧ Size s' = Size s ∧ Limit s' = Limit s ∧
  (∀ x, x ∉ deletePaths p → x ∉ newFolderPaths p → x ∉ pullPaths p →
        LocalFiles s' !! x = LocalFiles s !! x) ∧
  (o = Ok tt ∧ LastSync s' = (time_Now_UnixNano `quot` 1000000)%Z ∨
   ¬ is_Ok o ∧ LastSync s' = LastSync s).
Proof.
  set (I := fun st : State =>
    RemoteEntries st = RemoteEntries s ∧ Size st = Size s ∧ Limit st = Limit s ∧
    LastSync st = LastSync s ∧
    ∀ x, x ∉ deletePaths p → x ∉ newFolderPaths p → x ∉ pullPaths p →
         LocalFiles st !! x = LocalFiles s !! x).
  assert (Hins : ∀ q st e, (q ∈ newFolderPaths p ∨ q ∈ pullPaths p) → I st →
            I (set_LocalFiles (<[q := e]> (LocalFiles st)) st)).
  { intros q st e Hq (H1 & H2 & H3 & H4 & H5). repeat split; try done. simpl.
    intros x Hd Hn Hp. rewrite lookup_insert_ne; [by apply H5|].
    intros ->. destruct Hq; done. }
  assert (Hrem : ∀ q st, q ∈ deletePaths p → I st →
            I (set_LocalFiles (delete q (LocalFiles st)) st)).
  { intros q st Hq (H1 & H2 & H3 & H4 & H5). repeat split; try done. simpl.
    intros x Hd Hn Hp. rewrite lookup_delete_ne; [by apply H5|]. by intros ->. }
  assert (HI : I s) by (by repeat split).
  unfold execute. intros H.
  assert (Hstop : ∀ st : State * api.World, ¬ is_Ok o ∧ onState I st → st = (s', w') →
            RemoteEntries s' = RemoteEntries s ∧ Size s' = Size s ∧ Limit s' = Limit s ∧
            (∀ x, x ∉ deletePaths p → x ∉ newFolderPaths p → x ∉ pullPaths p →
                  LocalFiles s' !! x = LocalFiles s !! x) ∧
            (o = Ok tt ∧ LastSync s' = (time_Now_UnixNano `quot` 1000000)%Z ∨
             ¬ is_Ok o ∧ LastSync s' = LastSync s)).
  { intros st [Hno (H1 & H2 & H3 & H4 & H5)] ->. simpl in *.
    repeat split; try done. by right. }
  apply (bind_preserves_split (onState I)) in H as [(a & st1 & HI1 & H)|Hend];
    [|by apply (Hstop (s', w'))|apply (preserves_onSocket I)|done].
  apply (bind_preserves_split (onState I)) in H as [(a1 & st2 & HI2 & H)|Hend];
    [|by apply (Hstop (s', w'))| |done].
  2:{ apply preserves_forEach. intros q _. apply (preserves_showConflict C I). }
  apply (bind_preserves_split (onState I)) in H as [(a2 & st3 & HI3 & H)|Hend];
    [|by apply (Hstop (s', w'))| |done].
  2:{ apply preserves_forEach. intros q Hq. apply (preserves_doDelete C I).
      intros st. by apply Hrem. }
  apply (bind_preserves_split (onState I)) in H as [(a3 & st4 & HI4 & H)|Hend];
    [|by apply (Hstop (s', w'))| |done].
  2:{ apply preserves_forEach. intros q Hq. apply (preserves_doNewFolder C I).
      intros st e. apply Hins. by left. }
  apply (bind_preserves_split (onState I)) in H as [(a4 & st5 & HI5 & H)|Hend];
    [|by apply (Hstop (s', w'))| |done].
  2:{ apply preserves_forEach. intros q Hq. apply (preserves_doPull C J I).
      intros st e. apply Hins. by right. }
  apply (bind_preserves_split (onState I)) in H as [(a5 & st6 & HI6 & H)|Hend];
    [|by apply (Hstop (s', w'))| |done].
  2:{ apply preserves_forEach. intros q Hq. apply (preserves_doPush C J os_ReadFile I). }
  destruct st6 as [s6 w6]. cbn in H. injection H as <- <- <-.
  destruct HI6 as (H1 & H2 & H3 & H4 & H5). simpl in *.
  repeat split; try done. left. done.
Qed.

End Pass.
End pass_facts.

(** X3. However a pass ends, it leaves the remote entries, the size and the
    limit as they were, and the local entry of every path that is in none of
    the delete, new-folder and pull slices. The time of the last pass is
    stamped only when the pass returns without error; it is untouched
    otherwise. *)
Theorem SyncFiles_frame
    (C : CryptoLib) (J : api.JsonLib)
    (os_ReadFile : string → result bytes) (time_Now_UnixNano : Z)
    (s : sync.State)
    (remoteOrder : list (string * sync.ObsidianRemoteEntry))
    (localOrder : list (string * sync.ObsidianLocalEntry))
    (w : api.World) (o : outcome unit) (s' : sync.State) (w' : api.World) :
  sync.SyncFiles C J os_ReadFile time_Now_UnixNano remoteOrder localOrder (s, w)
    = (o, (s', w')) →
  let p := sync.decide_ s remoteOrder localOrder in
  sync.RemoteEntries s' = sync.RemoteEntries s ∧
  sync.Size s' = sync.Size s ∧ sync.Limit s' = sync.Limit s ∧
  (∀ x, x ∉ sync.deletePaths p → x ∉ sync.newFolderPaths p → x ∉ sync.pullPaths p →
        sync.LocalFiles s' !! x = sync.LocalFiles s !! x) ∧
  (o = Ok tt ∧ sync.LastSync s' = (time_Now_UnixNano `quot` 1000000)%Z ∨
   ¬ is_Ok o ∧ sync.LastSync s' = sync.LastSync s).
Proof. intros Hrun. by apply (pass_facts.execute_frame C J os_ReadFile) in Hrun. Qed.

(** X4. A pass that returns without error leaves this local map: a pulled path
    carries the decrypted path and the times and kind of its remote entry, a
    new folder that was not pulled is a folder entry with zero times, a
    deleted path that was not created again is gone, and every other path
    is as before. The remote entries are untouched and the time of the
    last pass is the clock reading in milliseconds. *)
Theorem SyncFiles_success_state
    (C : CryptoLib) (J : api.JsonLib)
    (os_ReadFile : string → result bytes) (time_Now_UnixNano : Z)
    (s : sync.State)
    (remoteOrder : list (string * sync.ObsidianRemoteEntry))
    (localOrder : list (string * sync.ObsidianLocalEntry))
    (w : api.World) (s' : sync.State) (w' : api.World) :
  sync.rangeOrder (sync.RemoteEntries s) remoteOrder →
  sync.rangeOrder (sync.LocalFiles s) localOrder →
  sync.SyncFiles C J os_ReadFile time_Now_UnixNano remoteOrder localOrder (s, w)
    = (Ok tt, (s', w')) →
  let p := sync.decide_ s remoteOrder localOrder in
  let decrypts x dp :=
    crypto.DecryptString C x (bytes_of (api.Password (api.Vault w)))
      (bytes_of (api.Salt (api.Vault w))) = Ok dp in
  sync.RemoteEntries s' = sync.RemoteEntries s ∧
  sync.LastSync s' = (time_Now_UnixNano `quot` 1000000)%Z ∧
  ∀ x,
    (x ∈ sync.pullPaths p →
     ∃ r dp, sync.RemoteEntries s !! x = Some r ∧ decrypts x dp ∧
       sync.LocalFiles s' !! x =
         Some {| sync.Path := dp; sync.Created := sync.r_Created r;
                 sync.Modified := sync.r_Modified r;
                 sync.IsFolder := sync.r_IsFolder r |}) ∧
    (x ∉ sync.pullPaths p → x ∈ sync.newFolderPaths p →
     ∃ dp, decrypts x dp ∧
       sync.LocalFiles s' !! x =
         Some {| sync.Path := dp; sync.Created := 0; sync.Modified := 0;
                 sync.IsFolder := true |}) ∧
    (x ∉ sync.pullPaths p → x ∉ sync.newFolderPaths p → x ∈ sync.deletePaths p →
     sync.LocalFiles s' !! x = None) ∧
    (x ∉ sync.pullPaths p → x ∉ sync.newFolderPaths p → x ∉ sync.deletePaths p →
     sync.LocalFiles s' !! x = sync.LocalFiles s !! x).
Proof.
  intros Hro Hlo Hrun p decrypts.
  apply (pass_facts.execute_Ok C J os_ReadFile) in Hrun
    as (HR & _ & _ & HT & _ & Hx).
  split; [done|]. split; [done|]. intros x.
  destruct (Hx x) as (_ & Hpull & Hnew & Hdel & Hrest).
  split; [|done].
  intros Hin. destruct (Hpull Hin) as (dp & Hdp & Hl).
  apply (decision.slices_iff s _ _ x Hro Hlo) in Hin as (r & Hr & _).
  exists r, dp. rewrite Hr in Hl. done.
Qed.

(** X5. When the two maps agree, a pass has nothing to do: every remote path is
    present locally with the same kind and, for a file, the same
    modification time, and no local path is missing remotely. The pass then
    returns without error, neither reads nor writes the socket, prints the
    empty summary and the completion line, and changes nothing but the
    time of the last pass. *)
Theorem SyncFiles_nothing_to_do
    (C : CryptoLib) (J : api.JsonLib)
    (os_ReadFile : string → result bytes) (time_Now_UnixNano : Z)
    (s : sync.State)
    (remoteOrder : list (string * sync.ObsidianRemoteEntry))
    (localOrder : list (string * sync.ObsidianLocalEntry))
    (w : api.World) :
  sync.rangeOrder (sync.RemoteEntries s) remoteOrder →
  sync.rangeOrder (sync.LocalFiles s) localOrder →
  (∀ x r, sync.RemoteEntries s !! x = Some r →
     ∃ l, sync.LocalFiles s !! x = Some l ∧ sync.IsFolder l = sync.r_IsFolder r ∧
          (sync.IsFolder l = false → sync.Modified l = sync.r_Modified r)) →
  (∀ x l, sync.LocalFiles s !! x = Some l → is_Some (sync.RemoteEntries s !! x)) →
  sync.SyncFiles C J os_ReadFile time_Now_UnixNano remoteOrder localOrder (s, w)
    = (Ok tt,
       (sync.set_LastSync (time_Now_UnixNano `quot` 1000000) s,
        api.print (api.SyncComplete (time_Now_UnixNano `quot` 1000000))
          (api.print (api.Summary 0 0 0 0 0) w))).
Proof.
  intros Hro Hlo Hremote Hlocal.
  assert (Hnone : ∀ l : list string, (∀ x, x ∉ l) → l = []).
  { intros [|a l] Hl; [done|]. destruct (Hl a). apply list_elem_of_here. }
  assert (Hpull : sync.pullPaths (sync.decide_ s remoteOrder localOrder) = []).
  { apply Hnone. intros x Hx.
    apply (decision.slices_iff s _ _ x Hro Hlo) in Hx as (r & Hr & Hx).
    destruct (Hremote x r Hr) as (l & Hl & Hk & Hm). rewrite Hl in Hx.
    destruct (sync.IsFolder l); [congruence|]. specialize (Hm eq_refl). lia. }
  assert (Hnew : sync.newFolderPaths (sync.decide_ s remoteOrder localOrder) = []).
  { apply Hnone. intros x Hx.
    apply (decision.slices_iff s _ _ x Hro Hlo) in Hx as (r & Hr & Hf & Hx).
    destruct (Hremote x r Hr) as (l & Hl & Hk & Hm). rewrite Hl in Hx. congruence. }
  assert (Hconf : sync.conflictPaths (sync.decide_ s remoteOrder localOrder) = []).
  { apply Hnone. intros x Hx.
    apply (decision.slices_iff s _ _ x Hro Hlo) in Hx as (r & l & Hr & Hl & Hf & Hx).
    destruct (Hremote x r Hr) as (l' & Hl' & Hk & Hm).
    assert (l' = l) as -> by congruence. specialize (Hm Hf). lia. }
  assert (Hpush : sync.pushPaths (sync.decide_ s remoteOrder localOrder) = []).
  { apply Hnone. intros x Hx.
    apply (decision.slices_iff s _ _ x Hro Hlo) in Hx as (l & Hl & Hr & _).
    destruct (Hlocal x l Hl) as [r Hr']. congruence. }
  assert (Hdel : sync.deletePaths (sync.decide_ s remoteOrder localOrder) = []).
  { apply Hnone. intros x Hx.
    apply (decision.slices_iff s _ _ x Hro Hlo) in Hx as (l & Hl & Hx).
    destruct (Hlocal x l Hl) as [r Hr]. rewrite Hr in Hx.
    destruct (Hremote x r Hr) as (l' & Hl' & Hk & _).
    assert (l' = l) as -> by congruence. done. }
  unfold sync.SyncFiles, sync.execute.
  rewrite Hpull, Hnew, Hconf, Hpush, Hdel. reflexivity.
Qed.

(** X6. After a pass that returned without error, a second pass over the same
    remote entries has nothing to pull and no folder to create. It reports
    again the conflicts that were not replaced by a folder, pushes again
    every path it pushed and did not delete (a push does not enter the
    remote entries), and deletes the local-only paths created since the
    stamp of the first pass and before its own. *)
Theorem SyncFiles_second_pass
    (C : CryptoLib) (J : api.JsonLib)
    (os_ReadFile : string → result bytes) (time_Now_UnixNano : Z)
    (s : sync.State)
    (remoteOrder remoteOrder' : list (string * sync.ObsidianRemoteEntry))
    (localOrder localOrder' : list (string * sync.ObsidianLocalEntry))
    (w : api.World) (s' : sync.State) (w' : api.World) :
  sync.rangeOrder (sync.RemoteEntries s) remoteOrder →
  sync.rangeOrder (sync.LocalFiles s) localOrder →
  sync.SyncFiles C J os_ReadFile time_Now_UnixNano remoteOrder localOrder (s, w)
    = (Ok tt, (s', w')) →
  sync.rangeOrder (sync.RemoteEntries s') remoteOrder' →
  sync.rangeOrder (sync.LocalFiles s') localOrder' →
  let p := sync.decide_ s remoteOrder localOrder in
  let p' := sync.decide_ s' remoteOrder' localOrder' in
  sync.pullPaths p' = [] ∧
  sync.newFolderPaths p' = [] ∧
  (∀ x, x ∈ sync.conflictPaths p' ↔
        x ∈ sync.conflictPaths p ∧ (x ∉ sync.newFolderPaths p)) ∧
  (∀ x, x ∈ sync.pushPaths p' ↔ x ∈ sync.pushPaths p ∧ (x ∉ sync.deletePaths p)) ∧
  (∀ x, x ∈ sync.deletePaths p' ↔
        ∃ l, sync.LocalFiles s !! x = Some l ∧ sync.RemoteEntries s !! x = None ∧
             (sync.LastSync s ≤ sync.Created l)%Z ∧
             (sync.Created l < time_Now_UnixNano `quot` 1000000)%Z).
Proof.
  intros Hro Hlo Hrun Hro' Hlo' p p'.
  apply (pass_facts.execute_Ok C J os_ReadFile) in Hrun
    as (HR & _ & _ & HT & _ & Heff).
  fold p in Heff.
  assert (Hnone : ∀ l : list string, (∀ x, x ∉ l) → l = []).
  { intros [|a l] Hl; [done|]. destruct (Hl a). apply list_elem_of_here. }
  (* the local entry a path has after the pass, by the slices it was in *)
  assert (Hafter : ∀ x r, sync.RemoteEntries s !! x = Some r →
            match sync.LocalFiles s' !! x with
            | Some l' =>
              (sync.IsFolder l' = sync.r_IsFolder r ∧
               (sync.IsFolder l' = false → sync.Modified l' = sync.r_Modified r)) ∨
              (sync.LocalFiles s !! x = Some l' ∧
               sync.IsFolder l' = sync.r_IsFolder r ∧
               (x ∉ sync.newFolderPaths p) ∧ (x ∉ sync.pullPaths p))
            | None => False
            end).
  { intros x r Hr.
    pose proof (decision.slices_iff s _ _ x Hro Hlo) as (T1 & T2 & T3 & T4 & T5).
    fold p in T1, T2, T3, T4, T5.
    destruct (Heff x) as (_ & Hpull & Hnew & Hdel & Hrest).
    destruct (decide (x ∈ sync.pullPaths p)) as [Hp|Hp].
    { destruct (Hpull Hp) as (dp & _ & ->). rewrite Hr. simpl. left. done. }
    destruct (decide (x ∈ sync.newFolderPaths p)) as [Hn|Hn].
    { destruct (Hnew Hp Hn) as (dp & _ & ->). simpl.
      apply T2 in Hn as (r' & Hr' & Hf & _). left. split; [congruence|done]. }
    destruct (decide (x ∈ sync.deletePaths p)) as [Hd|Hd].
    { exfalso. apply T5 in Hd as (l & Hl & Hk). rewrite Hr in Hk.
      rewrite T1 in Hp. rewrite T2 in Hn.
      destruct (sync.IsFolder l) eqn:Hlf.
      - apply Hp. exists r. split; [done|]. rewrite Hl, Hlf.
        destruct (sync.r_IsFolder r); done.
      - apply Hn. exists r. split; [done|]. rewrite Hl.
        destruct (sync.r_IsFolder r); done. }
    rewrite (Hrest Hp Hn Hd).
    destruct (sync.LocalFiles s !! x) as [l|] eqn:Hl.
    - right. repeat split; try done.
      destruct (decide (sync.IsFolder l = sync.r_IsFolder r)) as [|Hk]; [done|].
      destruct Hd. apply T5. exists l. split; [done|]. by rewrite Hr.
    - destruct (sync.r_IsFolder r) eqn:Hf.
      + apply Hn, T2. exists r. rewrite ?Hl. done.
      + apply Hp, T1. exists r. rewrite ?Hl. done. }
  (* a path without remote entry *)
  assert (Hlocal : ∀ x, sync.RemoteEntries s !! x = None →
            sync.LocalFiles s' !! x =
              if decide (x ∈ sync.deletePaths p) then None else sync.LocalFiles s !! x).
  { intros x Hr.
    pose proof (decision.slices_iff s _ _ x Hro Hlo) as (T1 & T2 & _).
    fold p in T1, T2.
    destruct (Heff x) as (_ & _ & _ & Hdel & Hrest).
    assert (Hp : x ∉ sync.pullPaths p).
    { rewrite T1. intros (r & Hr' & _). congruence. }
    assert (Hn : x ∉ sync.newFolderPaths p).
    { rewrite T2. intros (r & Hr' & _). congruence. }
    destruct (decide (x ∈ sync.deletePaths p)) as [Hd|Hd]; eauto. }
  split; [|split; [|split; [|split]]].
  - apply Hnone. intros x Hx.
    apply (decision.slices_iff s' _ _ x Hro' Hlo') in Hx as (r & Hr & Hx).
    rewrite HR in Hr. specialize (Hafter x r Hr).
    destruct (sync.LocalFiles s' !! x) as [l'|]; [|done].
    destruct Hafter as [[Hk Hm]|(Hl & Hk & Hn & Hp)].
    + destruct (sync.IsFolder l'); [congruence|]. specialize (Hm eq_refl). lia.
    + apply Hp. apply (decision.slices_iff s _ _ x Hro Hlo).
      exists r. split; [done|]. rewrite Hl.
      destruct (sync.IsFolder l'); [congruence|done].
  - apply Hnone. intros x Hx.
    apply (decision.slices_iff s' _ _ x Hro' Hlo') in Hx as (r & Hr & Hf & Hx).
    rewrite HR in Hr. specialize (Hafter x r Hr).
    destruct (sync.LocalFiles s' !! x) as [l'|]; [|done].
    destruct Hafter as [[Hk Hm]|(Hl & Hk & Hn & Hp)]; congruence.
  - intros x.
    pose proof (decision.slices_iff s _ _ x Hro Hlo) as (T1 & T2 & T3 & T4 & T5).
    pose proof (decision.slices_iff s' _ _ x Hro' Hlo') as (T1' & T2' & T3' & T4' & T5').
    fold p in T1, T2, T3, T4, T5. fold p' in T1', T2', T3', T4', T5'.
    rewrite T3', T3. split.
    + intros (r & l' & Hr & Hl' & Hf & Hm). rewrite HR in Hr.
      specialize (Hafter x r Hr). rewrite Hl' in Hafter.
      destruct Hafter as [[Hk Hm']|(Hl & Hk & Hn & Hp)].
      * specialize (Hm' Hf). lia.
      * split; [|done]. by exists r, l'.
    + intros [(r & l & Hr & Hl & Hf & Hm) Hn].
      destruct (Heff x) as (_ & _ & _ & Hdel & Hrest).
      assert (Hp : x ∉ sync.pullPaths p).
      { rewrite T1. intros (r' & Hr' & Hx). rewrite Hl, Hf in Hx.
        assert (r' = r) as -> by congruence. lia. }
      assert (Hd : x ∉ sync.deletePaths p).
      { rewrite T5. intros (l0 & Hl0 & Hx). rewrite Hr in Hx.
        assert (l0 = l) as -> by congruence.
        apply Hn, T2. exists r. split; [done|]. rewrite Hl.
        destruct (sync.r_IsFolder r); [done|congruence]. }
      exists r, l. rewrite HR, (Hrest Hp Hn Hd). done.
  - intros x.
    pose proof (decision.slices_iff s _ _ x Hro Hlo) as (T1 & T2 & T3 & T4 & T5).
    pose proof (decision.slices_iff s' _ _ x Hro' Hlo') as (T1' & T2' & T3' & T4' & T5').
    fold p in T1, T2, T3, T4, T5. fold p' in T1', T2', T3', T4', T5'.
    rewrite T4', T4. rewrite HR. split.
    + intros (l & Hl & Hr & Hm). rewrite (Hlocal x Hr) in Hl.
      destruct (decide (x ∈ sync.deletePaths p)); [done|]. split; [|done]. by exists l.
    + intros [(l & Hl & Hr & Hm) Hd]. exists l. rewrite (Hlocal x Hr).
      rewrite decide_False by done. done.
  - intros x.
    pose proof (decision.slices_iff s _ _ x Hro Hlo) as (T1 & T2 & T3 & T4 & T5).
    pose proof (decision.slices_iff s' _ _ x Hro' Hlo') as (T1' & T2' & T3' & T4' & T5').
    fold p in T1, T2, T3, T4, T5. fold p' in T1', T2', T3', T4', T5'.
    rewrite T5'. rewrite HR, HT. split.
    + intros (l' & Hl' & Hx).
      destruct (sync.RemoteEntries s !! x) as [r|] eqn:Hr.
      * specialize (Hafter x r Hr). rewrite Hl' in Hafter.
        destruct Hafter as [[Hk _]|(_ & Hk & _)]; done.
      * rewrite (Hlocal x Hr) in Hl'.
        destruct (decide (x ∈ sync.deletePaths p)) as [|Hd]; [done|].
        exists l'. repeat split; try done.
        destruct (Z.le_gt_cases (sync.LastSync s) (sync.Created l')) as [|Hlt]; [done|].
        destruct Hd. apply T5. exists l'. split; [done|]. by rewrite ?Hr.
    + intros (l & Hl & Hr & Hge & Hlt). exists l. rewrite Hr, (Hlocal x Hr).
      rewrite decide_False; [done|].
      rewrite T5. intros (l0 & Hl0 & Hx). rewrite Hr in Hx.
      assert (l0 = l) as -> by congruence. lia.
Qed.

(** ** The first pass of a session *)

Module startup_facts.
Import startup.

Lemma initialState_snoc size limit pushes push :
  initialState size limit (pushes ++ [push]) =
  sync.UpdateWithPush push (initialState size limit pushes).
Proof. unfold initialState. by rewrite foldl_app. Qed.

Lemma lastPush_snoc path pushes push :
  lastPush path (pushes ++ [push]) =
  if decide (api.EncryptedPath push = path) then Some push else lastPush path pushes.
Proof.
  unfold lastPush. rewrite filter_app, filter_cons, filter_nil.
  destruct (decide (api.EncryptedPath push = path)).
  - by rewrite last_snoc.
  - by rewrite app_nil_r.
Qed.

Lemma initialState_fields size limit pushes :
  sync.LocalFiles (initialState size limit pushes) = ∅ ∧
  sync.LastSync (initialState size limit pushes) = 0%Z ∧
  sync.Size (initialState size limit pushes) = size ∧
  sync.Limit (initialState size limit pushes) = limit.
Proof.
  induction pushes as [|push pushes IH] using rev_ind; [done|].
  rewrite initialState_snoc. unfold sync.UpdateWithPush.
  destruct (api.Deleted push); simpl; done.
Qed.

Lemma initialState_lookup size limit pushes path :
  sync.RemoteEntries (initialState size limit pushes) !! path =
  match lastPush path pushes with
  | Some push => if api.Deleted push then None else Some (entryOf push)
  | None => None
  end.
Proof.
  induction pushes as [|push pushes IH] using rev_ind; [done|].
  rewrite initialState_snoc, lastPush_snoc. unfold sync.UpdateWithPush.
  destruct (decide (api.EncryptedPath push = path)) as [<-|Hne].
  - destruct (api.Deleted push); simpl.
    + by rewrite lookup_delete_eq.
    + by rewrite lookup_insert_eq.
  - destruct (api.Deleted push); simpl.
    + by rewrite lookup_delete_ne.
    + by rewrite lookup_insert_ne.
Qed.

End startup_facts.

(** X8. The state [Sync] seeds from the pushes of the handshake: for every path
    the last push that names it decides, a deletion removing the entry and
    any other push storing its fields; no local file is known, the time of
    the last pass is zero, and size and limit are those the server
    reported. *)
Theorem Sync_seeds_last_push_per_path
    (size limit : Z) (pushedFiles : list api.IncomingPushMessage) (path : string) :
  let s := startup.initialState size limit pushedFiles in
  sync.RemoteEntries s !! path =
    match startup.lastPush path pushedFiles with
    | Some push => if api.Deleted push then None else Some (startup.entryOf push)
    | None => None
    end ∧
  sync.LocalFiles s = ∅ ∧ sync.LastSync s = 0%Z ∧
  sync.Size s = size ∧ sync.Limit s = limit.
Proof.
  split; [apply startup_facts.initialState_lookup|apply startup_facts.initialState_fields].
Qed.

(** X9. The first pass of a session, on the state seeded from the handshake:
    it pulls exactly the paths whose last push is a file that was not
    deleted, creates exactly those whose last push is a folder that was not
    deleted, and pushes, deletes and flags nothing. *)
Theorem Sync_first_pass_pulls_everything
    (size limit : Z) (pushedFiles : list api.IncomingPushMessage)
    (remoteOrder : list (string * sync.ObsidianRemoteEntry))
    (localOrder : list (string * sync.ObsidianLocalEntry)) :
  let s := startup.initialState size limit pushedFiles in
  sync.rangeOrder (sync.RemoteEntries s) remoteOrder →
  sync.rangeOrder (sync.LocalFiles s) localOrder →
  let p := sync.decide_ s remoteOrder localOrder in
  (∀ x, x ∈ sync.pullPaths p ↔
        ∃ push, startup.lastPush x pushedFiles = Some push ∧
                api.Deleted push = false ∧ api.Folder push = false) ∧
  (∀ x, x ∈ sync.newFolderPaths p ↔
        ∃ push, startup.lastPush x pushedFiles = Some push ∧
                api.Deleted push = false ∧ api.Folder push = true) ∧
  sync.pushPaths p = [] ∧ sync.deletePaths p = [] ∧ sync.conflictPaths p = [].
Proof.
  intros s Hro Hlo p.
  destruct (startup_facts.initialState_fields size limit pushedFiles) as (HL & _).
  fold s in HL.
  assert (Hnone : ∀ l : list string, (∀ x, x ∉ l) → l = []).
  { intros [|a l] Hl; [done|]. destruct (Hl a). apply list_elem_of_here. }
  assert (Hremote : ∀ x r, sync.RemoteEntries s !! x = Some r ↔
            ∃ push, startup.lastPush x pushedFiles = Some push ∧
                    api.Deleted push = false ∧ r = startup.entryOf push).
  { intros x r. unfold s. rewrite startup_facts.initialState_lookup.
    destruct (startup.lastPush x pushedFiles) as [push|].
    - destruct (api.Deleted push) eqn:Hd; split.
      + done.
      + intros (push' & [= <-] & Hd' & _). congruence.
      + intros [= <-]. by exists push.
      + intros (push' & [= <-] & _ & ->). done.
    - split; [done|]. by intros (push & ? & _). }
  repeat split.
  - intros Hx. apply (decision.slices_iff s _ _ x Hro Hlo) in Hx as (r & Hr & Hx).
    rewrite HL, lookup_empty in Hx.
    apply Hremote in Hr as (push & Hlast & Hd & ->). by exists push.
  - intros (push & Hlast & Hd & Hf).
    apply (decision.slices_iff s _ _ x Hro Hlo). exists (startup.entryOf push).
    split; [apply Hremote; by exists push|]. by rewrite HL, lookup_empty.
  - intros Hx. apply (decision.slices_iff s _ _ x Hro Hlo) in Hx as (r & Hr & Hf & _).
    apply Hremote in Hr as (push & Hlast & Hd & ->). by exists push.
  - intros (push & Hlast & Hd & Hf).
    apply (decision.slices_iff s _ _ x Hro Hlo). exists (startup.entryOf push).
    split; [apply Hremote; by exists push|]. split; [done|].
    by rewrite HL, lookup_empty.
  - apply Hnone. intros x Hx.
    apply (decision.slices_iff s _ _ x Hro Hlo) in Hx as (l & Hl & _).
    by rewrite HL, lookup_empty in Hl.
  - apply Hnone. intros x Hx.
    apply (decision.slices_iff s _ _ x Hro Hlo) in Hx as (l & Hl & _).
    by rewrite HL, lookup_empty in Hl.
  - apply Hnone. intros x Hx.
    apply (decision.slices_iff s _ _ x Hro Hlo) in Hx as (r & l & _ & Hl & _).
    by rewrite HL, lookup_empty in Hl.
Qed.

(** ** The pending frames as one stream *)

Module stream_facts.
Import api.

Section Stream.
Context (matcher : bytes → bool).

(** The first accepted frame of a list is where it is. *)
Lemma first_accepted_unique pre1 m1 post1 pre2 m2 post2 :
  pre1 ++ m1 :: post1 = pre2 ++ m2 :: post2 →
  Forall (rejected matcher) pre1 → matcher m1 = true →
  Forall (rejected matcher) pre2 → matcher m2 = true →
  pre1 = pre2 ∧ m1 = m2 ∧ post1 = post2.
Proof.
  revert pre2. induction pre1 as [|a pre1 IH]; intros [|b pre2]; simpl.
  - intros [= -> ->]. done.
  - intros [= -> _] _ Hm1 Hrej _. apply Forall_cons in Hrej as [Hb _].
    unfold rejected in Hb. congruence.
  - intros [= -> _] Hrej _ _ Hm2. apply Forall_cons in Hrej as [Ha _].
    unfold rejected in Ha. congruence.
  - intros [= -> Heq] [_ H1]%Forall_cons Hm1 [_ H2]%Forall_cons Hm2.
    destruct (IH pre2 Heq H1 Hm1 H2 Hm2) as (-> & -> & ->). done.
Qed.

Lemma nextMessageMatching_stream_Ok w pre msg post :
  filteredQueue w ++ ws_inbox w = pre ++ msg :: post →
  Forall (rejected matcher) pre → matcher msg = true →
  ∃ w', nextMessageMatching matcher w = (Ok msg, w') ∧
        filteredQueue w' ++ ws_inbox w' = pre ++ post ∧
        ws_outbox w' = ws_outbox w.
Proof.
  intros Heq Hpre Hmsg.
  destruct (api_facts.first_accepted matcher (filteredQueue w))
    as [Hq|(qpre & m & qpost & Hq & Hqpre & Hm)].
  - destruct (api_facts.first_accepted matcher (ws_inbox w))
      as [Hi|(ipre & m & ipost & Hi & Hipre & Hm)].
    + exfalso. assert (Hall : Forall (rejected matcher) (pre ++ msg :: post)).
      { rewrite <- Heq. by apply Forall_app. }
      apply Forall_app in Hall as [_ [Hrej _]%Forall_cons].
      unfold rejected in Hrej. congruence.
    + rewrite Hi, app_assoc in Heq.
      destruct (first_accepted_unique _ _ _ _ _ _ Heq) as (<- & <- & <-);
        [by apply Forall_app|done..|].
      eexists. split; [by apply api_facts.nextMessageMatching_read|]. done.
  - rewrite Hq, <- app_assoc in Heq. simpl in Heq.
    destruct (first_accepted_unique _ _ _ _ _ _ Heq) as (<- & <- & <-); [done..|].
    eexists. split; [by apply api_facts.nextMessageMatching_queued|].
    simpl. by rewrite <- app_assoc.
Qed.

Lemma nextMessageMatching_stream_Err w :
  Forall (rejected matcher) (filteredQueue w ++ ws_inbox w) →
  ∃ w', nextMessageMatching matcher w =
          (Err "could not read message: error reading message: read: connection closed",
           w') ∧
        filteredQueue w' = filteredQueue w ++ ws_inbox w ∧ ws_inbox w' = [] ∧
        ws_outbox w' = ws_outbox w.
Proof.
  intros [Hq Hi]%Forall_app. eexists.
  split; [by apply api_facts.nextMessageMatching_closed|]. done.
Qed.

End Stream.
End stream_facts.

(** X11. Queue and socket seen as one stream of pending frames, the queue
    first. [nextMessageMatching] takes the first frame of the stream that
    the matcher accepts and leaves the others pending in their order; if
    the matcher accepts no pending frame, the call fails once the
    connection is closed and every frame it read is kept in the queue. No
    frame is dropped or duplicated, and nothing is written. *)
Theorem nextMessageMatching_takes_first_of_stream
    (matcher : bytes → bool) (w : api.World) :
  (∀ pre msg post,
     api.filteredQueue w ++ api.ws_inbox w = pre ++ msg :: post →
     Forall (api.rejected matcher) pre → matcher msg = true →
     ∃ w', api.nextMessageMatching matcher w = (Ok msg, w') ∧
           api.filteredQueue w' ++ api.ws_inbox w' = pre ++ post ∧
           api.ws_outbox w' = api.ws_outbox w) ∧
  (Forall (api.rejected matcher) (api.filteredQueue w ++ api.ws_inbox w) →
   ∃ w', api.nextMessageMatching matcher w =
           (Err "could not read message: error reading message: read: connection closed",
            w') ∧
         api.filteredQueue w' = api.filteredQueue w ++ api.ws_inbox w ∧
         api.ws_inbox w' = [] ∧
         api.ws_outbox w' = api.ws_outbox w).
Proof.
  split.
  - apply stream_facts.nextMessageMatching_stream_Ok.
  - apply stream_facts.nextMessageMatching_stream_Err.
Qed.

(** X12. The typed waits return frames of their type only: a wait for keys
    returns a frame that parses as a JSON object holding every key, a wait
    for a value returns a JSON object holding that string under the key, and
    a wait for a binary frame returns a frame that does not parse as a JSON
    object. *)
Theorem typed_waits_return_their_type
    (J : api.JsonLib) (w w' : api.World) (msg : bytes) :
  (∀ keys,
     api.nextMessageWithJsonKeys J keys w = (Ok msg, w') →
     ∃ m, api.Unmarshal_map J msg = Success m ∧ ∀ key, key ∈ keys → is_Some (m !! key)) ∧
  (∀ key value,
     api.nextMessageWithJsonValue J key value w = (Ok msg, w') →
     ∃ m, api.Unmarshal_map J msg = Success m ∧ m !! key = Some (api.JString value)) ∧
  (api.nextBinaryMessage J w = (Ok msg, w') → api.binary J msg).
Proof.
  split; [|split].
  - intros keys H. apply api_facts.nextMessageMatching_accepts in H.
    unfold api.jsonMatcher in H.
    destruct (api.Unmarshal_map J msg) as [m|e]; [|done].
    exists m. split; [done|]. intros key Hkey.
    rewrite forallb_forall in H. specialize (H key).
    rewrite <- list_elem_of_In in H. apply H in Hkey.
    by apply bool_decide_eq_true in Hkey.
  - intros key value H. apply api_facts.nextMessageMatching_accepts in H.
    unfold api.jsonMatcher in H.
    destruct (api.Unmarshal_map J msg) as [m|e]; [|done].
    exists m. split; [done|]. by apply bool_decide_eq_true in H.
  - intros H. apply api_facts.nextMessageMatching_accepts in H.
    intros m Hm. by rewrite Hm in H.
Qed.

(** ** Requests *)

Module request_facts.
Import api.

Section Requests.
Context (J : JsonLib).

Lemma sendMessage_refused msg w :
  ws_quota w = 0 →
  sendMessage msg w = (Err "could not send message: write: connection closed", w).
Proof. intros Hq. unfold sendMessage, bind, wrap, ws_WriteJSON. by rewrite Hq. Qed.

Lemma sendMessage_accepted msg w :
  ws_quota w ≠ 0 →
  sendMessage msg w = (Ok tt, print (Sent (JSONFrame msg)) (ws_write (JSONFrame msg) w)).
Proof.
  intros Hq. unfold sendMessage, bind, wrap, ws_WriteJSON.
  destruct (ws_quota w); [done|reflexivity].
Qed.

Lemma SendInit_loop_onlyReads turns acc :
  respects onlyReads (SendInit_loop J turns acc).
Proof.
  revert acc. induction turns as [|turns IH]; intros acc; cbn [SendInit_loop].
  - apply (respects_lift onlyReads).
  - apply (respects_bind onlyReads).
    { apply (respects_wrap onlyReads), push_facts.nextMessageMatching_onlyReads. }
    intros response. apply (respects_bind onlyReads); [apply (respects_call onlyReads)|].
    intros data. apply (respects_if onlyReads).
    + apply (respects_bind onlyReads); [apply (respects_call onlyReads)|].
      intros fileData. apply IH.
    + apply (respects_if onlyReads).
      * apply (respects_bind onlyReads); [apply (respects_call onlyReads)|].
        intros readyData. apply (respects_ret onlyReads).
      * apply (respects_fail onlyReads).
Qed.

(** However the handshake ends after an accepted write, one frame was
    written. *)
Lemma SendInit_outbox w o w' :
  ws_quota w ≠ 0 →
  SendInit J w = (o, w') →
  ws_outbox w' =
    ws_outbox w ++
    [JSONFrame (MsgInit (Id (Vault w)) (authToken w) (keyhash w) 0 true "obsidian-sync")].
Proof.
  intros Hq. unfold SendInit.
  rewrite (bind_wrap_Ok _ _ _ _ _ _ (sendMessage_accepted _ w Hq)).
  set (w1 := print _ _).
  assert (Hrest : respects onlyReads
            (bind (wrap "error reading message: "
                     (nextMessageWithJsonValue J "res" "ok"))
               (fun response =>
                  bind (call "error unmarshalling message: "
                          (Unmarshal_res J response))
                    (fun data =>
                       if negb (bool_decide (data = "ok"))
                       then fail ("expected ok message, got " +:+ data)
                       else fun w' =>
                         SendInit_loop J
                           (S (length (filteredQueue w')
                               + length (ws_inbox w'))) [] w')))).
  { apply (respects_bind onlyReads).
    { apply (respects_wrap onlyReads), push_facts.nextMessageMatching_onlyReads. }
    intros response.
    apply (respects_bind onlyReads); [apply (respects_call onlyReads)|].
    intros data. apply (respects_if onlyReads);
      [apply (respects_fail onlyReads)|].
    intros w2 o2 w3 H. by apply SendInit_loop_onlyReads in H. }
  intros H. apply Hrest in H as (_ & Hout & _). rewrite Hout. reflexivity.
Qed.

End Requests.
End request_facts.

(** X13. The handshake request. If the transport refuses the write, [SendInit]
    fails at once and reads nothing. Otherwise, however the handshake ends,
    it has written one frame and no more: the init request carrying the
    vault id, the token and the key hash of the context, with version 0,
    initial set, and the device name obsidian-sync. *)
Theorem SendInit_writes_one_init_request (J : api.JsonLib) (w : api.World) :
  (api.ws_quota w = 0 →
   api.SendInit J w =
     (Err "could not send init message: could not send message: write: connection closed",
      w)) ∧
  (api.ws_quota w ≠ 0 →
   ∀ o w', api.SendInit J w = (o, w') →
     api.ws_outbox w' =
       api.ws_outbox w ++
       [api.JSONFrame (api.MsgInit (api.Id (api.Vault w)) (api.authToken w)
                         (api.keyhash w) 0 true "obsidian-sync")]).
Proof.
  split.
  - intros Hq. unfold api.SendInit.
    unfold bind at 1, wrap at 1.
    by rewrite (request_facts.sendMessage_refused _ w Hq).
  - intros Hq o w'. by apply request_facts.SendInit_outbox.
Qed.

(** X14. The size query. If the transport refuses the write, [GetSizeConfig]
    fails at once and reads nothing. When it returns a size and a limit, it
    has written the size request and nothing else, and the two numbers are
    decoded from a pending frame that parses as a JSON object holding the
    keys size and limit. *)
Theorem GetSizeConfig_request_and_answer (J : api.JsonLib) (w : api.World) :
  (api.ws_quota w = 0 →
   api.GetSizeConfig J w =
     (Err "could not send size message: could not send message: write: connection closed",
      w)) ∧
  (∀ size limit w',
     api.GetSizeConfig J w = (Ok (size, limit), w') →
     api.ws_outbox w' = api.ws_outbox w ++ [api.JSONFrame api.MsgSize] ∧
     ∃ response m,
       response ∈ api.filteredQueue w ++ api.ws_inbox w ∧
       api.Unmarshal_map J response = Success m ∧
       is_Some (m !! "size") ∧ is_Some (m !! "limit") ∧
       api.Unmarshal_SizeResponse J response = Success (size, limit)).
Proof.
  split.
  - intros Hq. unfold api.GetSizeConfig.
    unfold bind at 1, wrap at 1.
    by rewrite (request_facts.sendMessage_refused _ w Hq).
  - intros size limit w' H. unfold api.GetSizeConfig in H.
    apply bind_Ok_inv in H as ([] & w1 & Hsend & H). apply wrap_Ok_inv in Hsend.
    assert (Hq : api.ws_quota w ≠ 0).
    { intros Hq. by rewrite (request_facts.sendMessage_refused _ w Hq) in Hsend. }
    rewrite (request_facts.sendMessage_accepted _ w Hq) in Hsend.
    injection Hsend as <-.
    apply bind_Ok_inv in H as (response & w2 & Hwait & H). apply wrap_Ok_inv in Hwait.
    apply bind_Ok_inv in H as ([sz lim] & w3 & Hdec & H).
    injection H as <- <- <-.
    unfold call, wrap, lift in Hdec.
    destruct (api.Unmarshal_SizeResponse J response) as [[sz' lim']|e] eqn:Hsize;
      simpl in Hdec; [|done].
    injection Hdec as <- <- <-.
    split.
    { apply push_facts.nextMessageMatching_onlyReads in Hwait as (_ & -> & _). done. }
    exists response.
    pose proof Hwait as Hacc. apply api_facts.nextMessageMatching_accepts in Hacc.
    unfold api.jsonMatcher in Hacc.
    destruct (api.Unmarshal_map J response) as [m|e]; [|done].
    exists m. simpl in Hacc.
    apply andb_prop in Hacc as [Hs Hl%andb_prop].
    apply bool_decide_eq_true in Hs. destruct Hl as [Hl%bool_decide_eq_true _].
    repeat split; try done.
    unfold api.nextMessageWithJsonKeys, api.nextMessageMatchingJson in Hwait.
    set (matcher := api.jsonMatcher J _) in Hwait.
    destruct (api_facts.first_accepted matcher
                (api.filteredQueue w ++ api.ws_inbox w))
      as [Hnone|(pre & msg & post & Heq & Hpre & Hmsg)].
    + destruct (stream_facts.nextMessageMatching_stream_Err matcher
                  (api.print (api.Sent (api.JSONFrame api.MsgSize))
                     (api.ws_write (api.JSONFrame api.MsgSize) w)) Hnone)
        as (w'' & Herr & _).
      rewrite Herr in Hwait. done.
    + destruct (stream_facts.nextMessageMatching_stream_Ok matcher
                  (api.print (api.Sent (api.JSONFrame api.MsgSize))
                     (api.ws_write (api.JSONFrame api.MsgSize) w)) pre msg post Heq Hpre Hmsg)
        as (w'' & Hok & _).
      rewrite Hok in Hwait. injection Hwait as -> _.
      rewrite Heq. apply elem_of_app. right. apply list_elem_of_here.
Qed.

(** ** Strings through the envelope *)

Module string_facts.

Lemma string_of_length (b : bytes) : String.length (string_of b) = length b.
Proof.
  unfold string_of, String.string_of_list_byte.
  induction b as [|x b IH]; [done|]. simpl. by rewrite IH.
Qed.

Lemma string_of_bytes_of (s : string) : string_of (bytes_of s) = s.
Proof. apply String.string_of_list_byte_of_string. Qed.

Section Envelope.
Context (C : CryptoLib).
Context (password salt key : bytes) (block : Block C) (aesgcm : AEAD C).
Context (Hkey : scrypt_Key C password salt 32768 8 1 32 = Success key)
        (Hblock : aes_NewCipher C key = Success block)
        (Hgcm : cipher_NewGCM C block = Success aesgcm).

(** What a successful encryption returns. *)
Lemma Encrypt_Ok_inv input r encrypted :
  (crypto.Encrypt C input password salt r).1 = Ok encrypted →
  crypto.nonceSize ≤ length r ∧
  encrypted = take crypto.nonceSize r ++ gcm_Seal C aesgcm (take crypto.nonceSize r) input.
Proof.
  destruct (decide (crypto.nonceSize ≤ length r)) as [Hr|Hr].
  - rewrite (crypto_facts.Encrypt_ok C _ _ _ _ _ Hkey Hblock Hgcm) by done.
    simpl. intros [= <-]. done.
  - unfold crypto.Encrypt, crypto.deriveKey, io_ReadFull. rewrite Hkey. simpl.
    destruct (decide (crypto.nonceSize ≤ length r)); [done|]. done.
Qed.

Context (Hhex : ∀ b, hex_DecodeString C (hex_EncodeToString C b) = Success b).

(** The hex form of an encryption, opened as a string. *)
Lemma DecryptString_hex_Encrypt input r encrypted :
  gcm_Open C aesgcm (take crypto.nonceSize r)
    (gcm_Seal C aesgcm (take crypto.nonceSize r) input) = Success input →
  (crypto.Encrypt C input password salt r).1 = Ok encrypted →
  crypto.DecryptString C (hex_EncodeToString C encrypted) password salt
    = Ok (string_of input).
Proof.
  intros Hopen [Hr ->]%Encrypt_Ok_inv.
  unfold crypto.DecryptString. rewrite Hhex. cbn [obind of_result].
  rewrite (crypto_facts.Decrypt_split C _ _ _ _ _ Hkey Hblock Hgcm)
    by (rewrite length_take; lia).
  by rewrite Hopen.
Qed.

End Envelope.
End string_facts.

(** X15. A string sealed by [Encrypt] and written in hex, as a path is in a
    push descriptor, is read back by [DecryptString]: whenever key
    derivation and cipher construction succeed, the AEAD opens what it
    sealed and hex decoding inverts hex encoding, [DecryptString] of the hex
    form of [Encrypt] of a string returns that string. *)
Theorem DecryptString_reads_back_encrypted_string
    (C : CryptoLib) (s : string) (password salt key : bytes)
    (block : Block C) (aesgcm : AEAD C) :
  scrypt_Key C password salt 32768 8 1 32 = Success key →
  aes_NewCipher C key = Success block →
  cipher_NewGCM C block = Success aesgcm →
  (∀ nonce, length nonce = crypto.nonceSize →
            gcm_Open C aesgcm nonce (gcm_Seal C aesgcm nonce (bytes_of s))
              = Success (bytes_of s)) →
  (∀ b, hex_DecodeString C (hex_EncodeToString C b) = Success b) →
  ∀ r, crypto.nonceSize ≤ length r →
    ∃ c, (crypto.Encrypt C (bytes_of s) password salt r).1 = Ok c ∧
         crypto.DecryptString C (hex_EncodeToString C c) password salt = Ok s.
Proof.
  intros Hkey Hblock Hgcm Hopen Hhex r Hr. eexists. split.
  - by rewrite (crypto_facts.Encrypt_ok C _ _ _ _ _ Hkey Hblock Hgcm).
  - replace (Ok s) with (Ok (string_of (bytes_of s)))
      by (by rewrite string_facts.string_of_bytes_of).
    apply (string_facts.DecryptString_hex_Encrypt C _ _ _ _ _ Hkey Hblock Hgcm Hhex
             _ r).
    + apply Hopen. rewrite length_take. lia.
    + by rewrite (crypto_facts.Encrypt_ok C _ _ _ _ _ Hkey Hblock Hgcm).
Qed.

(** ** What a push uploads and what a pull accepts *)

Module transfer_facts.
Import api.

Section Transfer.
Context (C : CryptoLib) (J : JsonLib).

(** A pull that returns a content has checked it against the expected
    hash. *)
Lemma PullFile_Ok_inv uid expected w content w' :
  PullFile C J uid expected w = (Ok content, w') →
  ∃ data hx,
    crypto.Decrypt C data (bytes_of (Password (Vault w))) (bytes_of (Salt (Vault w)))
      = Ok content ∧
    crypto.DecryptString C expected (bytes_of (Password (Vault w)))
      (bytes_of (Salt (Vault w))) = Ok hx ∧
    hex_DecodeString C hx = Success (sha256_Sum256 C content).
Proof.
  unfold PullFile. intros H.
  apply bind_Ok_inv in H as ([] & w1 & Hsend & H).
  assert (Hv1 : Vault w1 = Vault w).
  { apply wrap_Ok_inv in Hsend.
    by apply (pass_facts.Vault_sendMessage (Vault w) _ _ _ _ Hsend). }
  apply bind_Ok_inv in H as (header & w2 & Hhdr & H).
  assert (Hv2 : Vault w2 = Vault w).
  { apply wrap_Ok_inv in Hhdr.
    by apply (pass_facts.Vault_nextMessageMatching (Vault w) _ _ _ _ Hhdr). }
  apply bind_Ok_inv in H as (h & w2' & Hh & H).
  assert (w2' = w2) as ->.
  { unfold call, wrap, lift in Hh.
    destruct (Unmarshal_PullHeaderMessage J header); simpl in Hh; congruence. }
  apply bind_Ok_inv in H as ([] & w2' & Hprint & H).
  injection Hprint as <-.
  apply bind_Ok_inv in H as (data & w3 & Hdata & H).
  assert (Hv3 : Vault w3 = Vault w).
  { by apply (pass_facts.Vault_readPieces J (Vault w) _ _ _ _ _ Hdata). }
  change (verify C expected (hdr_Size h) data w3 = (Ok content, w')) in H.
  apply pull_facts.verify_Ok in H as (_ & Hdec & hx & Hhx & Hsum).
  exists data, hx. by rewrite <- Hv3.
Qed.

Lemma outbox_nextMessageMatching base matcher :
  preserves (fun w => ∃ t, ws_outbox w = base ++ t) (nextMessageMatching matcher).
Proof.
  intros w o w' H [t Ht].
  apply push_facts.nextMessageMatching_onlyReads in H as (_ & -> & _). by exists t.
Qed.

Lemma outbox_sendBinary base msg :
  preserves (fun w => ∃ t, ws_outbox w = base ++ t) (sendBinary msg).
Proof.
  intros w o w' H [t Ht]. unfold sendBinary, bind, wrap, ws_WriteMessage in H.
  destruct (ws_quota w); simpl in H; injection H as <- <-.
  - by exists t.
  - exists (t ++ [BinaryFrame msg]). simpl. by rewrite Ht, app_assoc.
Qed.

(** The first frame a push writes is its descriptor, whose path and hash
    fields are the hex forms of two encryptions. *)
Lemma PushFile_first_frame path extension ctime mtime folder deleted content
      w o w' f rest :
  PushFile C J path extension ctime mtime folder deleted content w = (o, w') →
  ws_outbox w' = ws_outbox w ++ f :: rest →
  ∃ desc r2 r3 encryptedPath encryptedContentSum,
    f = JSONFrame (MsgPush desc) ∧
    (crypto.Encrypt C (bytes_of path) (bytes_of (Password (Vault w)))
       (bytes_of (Salt (Vault w))) r2).1 = Ok encryptedPath ∧
    (crypto.Encrypt C (sha256_Sum256 C content) (bytes_of (Password (Vault w)))
       (bytes_of (Salt (Vault w))) r3).1 = Ok encryptedContentSum ∧
    out_Path desc = hex_EncodeToString C encryptedPath ∧
    out_Hash desc = hex_EncodeToString C encryptedContentSum.
Proof.
  set (pw := bytes_of (Password (Vault w))).
  set (slt := bytes_of (Salt (Vault w))).
  set (e1 := crypto.Encrypt C content pw slt (rand_Reader w)).
  set (e2 := crypto.Encrypt C (bytes_of path) pw slt e1.2).
  set (e3 := crypto.Encrypt C (sha256_Sum256 C content) pw slt e2.2).
  intros Hrun Hout. unfold PushFile in Hrun.
  assert (Hnothing : ws_outbox w' = ws_outbox w → False).
  { intros Heq. rewrite Heq in Hout. apply (f_equal length) in Hout.
    rewrite length_app in Hout. simpl in Hout. lia. }
  rewrite (bind_Ok _ _ w pw w) in Hrun by reflexivity.
  rewrite (bind_Ok _ _ w slt w) in Hrun by reflexivity.
  assert (He1 : Encrypt C content pw slt w = (e1.1, set_rand_Reader e1.2 w)).
  { unfold Encrypt. fold e1. by destruct e1. }
  destruct (e1.1) as [encryptedContent| |] eqn:E1.
  2,3: stop_in Hrun He1; by destruct Hnothing.
  rewrite (bind_wrap_Ok _ _ _ _ _ _ He1) in Hrun.
  assert (He2 : Encrypt C (bytes_of path) pw slt (set_rand_Reader e1.2 w)
                = (e2.1, set_rand_Reader e2.2 w)).
  { unfold Encrypt. simpl. fold pw slt e2. by destruct e2. }
  destruct (e2.1) as [encryptedPath| |] eqn:E2.
  2,3: stop_in Hrun He2; by destruct Hnothing.
  rewrite (bind_wrap_Ok _ _ _ _ _ _ He2) in Hrun.
  assert (He3 : Encrypt C (sha256_Sum256 C content) pw slt (set_rand_Reader e2.2 w)
                = (e3.1, set_rand_Reader e3.2 w)).
  { unfold Encrypt. simpl. fold pw slt e3. by destruct e3. }
  destruct (e3.1) as [encryptedContentSum| |] eqn:E3.
  2,3: stop_in Hrun He3; by destruct Hnothing.
  rewrite (bind_wrap_Ok _ _ _ _ _ _ He3) in Hrun.
  set (desc := {| out_Op := "push";
                  out_Path := hex_EncodeToString C encryptedPath;
                  out_Ext := extension;
                  out_Hash := hex_EncodeToString C encryptedContentSum;
                  out_Ctime := ctime; out_Mtime := mtime;
                  out_Folder := folder; out_Deleted := deleted;
                  out_Size := Z.of_nat (length encryptedContent);
                  out_Pieces := 1 |}) in Hrun.
  set (w3 := set_rand_Reader e3.2 w) in Hrun.
  destruct (ws_quota w) as [|quota] eqn:Hquota.
  { assert (Hsend : sendMessage (MsgPush desc) w3
                    = (Err "could not send message: write: connection closed", w3)).
    { unfold sendMessage, bind, wrap, ws_WriteJSON. simpl. by rewrite Hquota. }
    stop_in Hrun Hsend. by destruct Hnothing. }
  set (w4 := print (Sent (JSONFrame (MsgPush desc)))
               (ws_write (JSONFrame (MsgPush desc)) w3)).
  assert (Hsend : sendMessage (MsgPush desc) w3 = (Ok tt, w4)).
  { unfold sendMessage, bind, wrap, ws_WriteJSON. simpl. by rewrite Hquota. }
  rewrite (bind_wrap_Ok _ _ _ _ _ _ Hsend) in Hrun.
  assert (Hmore : ∃ t, ws_outbox w' = (ws_outbox w ++ [JSONFrame (MsgPush desc)]) ++ t).
  { match type of Hrun with
    | ?m w4 = _ =>
      assert (Hp : preserves
                (fun w1 => ∃ t, ws_outbox w1
                              = (ws_outbox w ++ [JSONFrame (MsgPush desc)]) ++ t) m)
    end.
    { repeat first
        [ apply outbox_nextMessageMatching
        | apply outbox_sendBinary
        | apply preserves_fail
        | apply preserves_ret
        | apply preserves_lift
        | apply preserves_call
        | apply preserves_wrap
        | apply preserves_bind; [|intros ?]
        | match goal with
          | |- preserves _ (if ?b then _ else _) => destruct b
          end ]. }
    apply (Hp _ _ _ Hrun). exists []. simpl. by rewrite app_nil_r. }
  destruct Hmore as [t Ht]. rewrite Ht, <- app_assoc in Hout.
  apply app_inv_head in Hout. simpl in Hout. injection Hout as <- _.
  exists desc, e1.2, e2.2, encryptedPath, encryptedContentSum.
  repeat split; done.
Qed.

End Transfer.
End transfer_facts.

(** X18. What [PushFile] uploads, read by the rest of the program. Assume key
    derivation and cipher construction succeed for the vault, the AEAD opens
    what it sealed, hex decoding inverts hex encoding and yields one byte
    for two characters, and a digest has 32 bytes. Then the path field of
    the descriptor [PushFile] writes is decrypted by [DecryptString] to the
    path that was pushed. Its hash field, however, seals the 32 raw bytes of
    the digest and not their hex form: [PullFile], which hex-decodes what
    it decrypts, never returns a content when it is given that hash. *)
Theorem PushFile_hash_is_never_accepted_by_PullFile
    (C : CryptoLib) (J : api.JsonLib)
    (path extension : string) (ctime mtime : Z) (folder deleted : bool)
    (content : bytes) (w : api.World) (o : outcome unit) (w' : api.World)
    (desc : api.OutgoingPushMessage) (rest : list api.frame)
    (key : bytes) (block : Block C) (aesgcm : AEAD C) :
  let pw := bytes_of (api.Password (api.Vault w)) in
  let slt := bytes_of (api.Salt (api.Vault w)) in
  scrypt_Key C pw slt 32768 8 1 32 = Success key →
  aes_NewCipher C key = Success block →
  cipher_NewGCM C block = Success aesgcm →
  (∀ nonce p, length nonce = crypto.nonceSize →
              gcm_Open C aesgcm nonce (gcm_Seal C aesgcm nonce p) = Success p) →
  (∀ b, hex_DecodeString C (hex_EncodeToString C b) = Success b) →
  (∀ s b, hex_DecodeString C s = Success b → String.length s = 2 * length b) →
  (∀ b, length (sha256_Sum256 C b) = 32) →
  api.PushFile C J path extension ctime mtime folder deleted content w = (o, w') →
  api.ws_outbox w' = api.ws_outbox w ++ api.JSONFrame (api.MsgPush desc) :: rest →
  crypto.DecryptString C (api.out_Path desc) pw slt = Ok path ∧
  crypto.DecryptString C (api.out_Hash desc) pw slt
    = Ok (string_of (sha256_Sum256 C content)) ∧
  ∀ uid w1 o1 w1',
    api.Vault w1 = api.Vault w →
    api.PullFile C J uid (api.out_Hash desc) w1 = (o1, w1') → ¬ is_Ok o1.
Proof.
  intros pw slt Hkey Hblock Hgcm Hopen Hhex Hhalf Hsum Hrun Hout.
  destruct (transfer_facts.PushFile_first_frame C J _ _ _ _ _ _ _ _ _ _ _ _ Hrun Hout)
    as (d & r2 & r3 & ep & es & [= <-] & Hep & Hes & Hpath & Hhash).
  fold pw slt in Hep, Hes.
  assert (Hp : crypto.DecryptString C (api.out_Path desc) pw slt = Ok path).
  { rewrite Hpath.
    replace (Ok path) with (Ok (string_of (bytes_of path)))
      by (by rewrite string_facts.string_of_bytes_of).
    apply (string_facts.DecryptString_hex_Encrypt C _ _ _ _ _ Hkey Hblock Hgcm Hhex
             _ r2); [|done].
    apply Hopen. rewrite length_take.
    apply (string_facts.Encrypt_Ok_inv C _ _ _ _ _ Hkey Hblock Hgcm) in Hep as [Hr _].
    lia. }
  assert (Hh : crypto.DecryptString C (api.out_Hash desc) pw slt
               = Ok (string_of (sha256_Sum256 C content))).
  { rewrite Hhash.
    apply (string_facts.DecryptString_hex_Encrypt C _ _ _ _ _ Hkey Hblock Hgcm Hhex
             _ r3); [|done].
    apply Hopen. rewrite length_take.
    apply (string_facts.Encrypt_Ok_inv C _ _ _ _ _ Hkey Hblock Hgcm) in Hes as [Hr _].
    lia. }
  split; [done|]. split; [done|].
  intros uid w1 o1 w1' Hv Hpull [got ->].
  apply transfer_facts.PullFile_Ok_inv in Hpull as (data & hx & _ & Hhx & Hdec).
  rewrite Hv in Hhx. fold pw slt in Hhx. rewrite Hh in Hhx. injection Hhx as <-.
  apply Hhalf in Hdec.
  rewrite string_facts.string_of_length, !Hsum in Hdec. lia.
Qed.

(** ** A pull answered as the protocol expects *)

Module exchange_facts.
Import api.

Section Exchange.
Context (C : CryptoLib) (J : JsonLib).

Lemma binary_accepted msg :
  binary J msg →
  match Unmarshal_map J msg with Failure _ => true | Success _ => false end = true.
Proof. intros Hb. destruct (Unmarshal_map J msg) as [m|e] eqn:Hm; [by destruct (Hb m)|done]. Qed.

(** The piece loop in front of the pieces it waits for. *)
Lemma readPieces_takes frames rest :
  Forall (binary J) frames →
  ∀ data w,
    filteredQueue w = [] → ws_inbox w = frames ++ rest →
    ∃ w', readPieces J (length frames) data w = (Ok (data ++ concat frames), w') ∧
          filteredQueue w' = [] ∧ ws_inbox w' = rest ∧
          ws_outbox w' = ws_outbox w ∧ Vault w' = Vault w.
Proof.
  induction 1 as [|f frames Hf _ IH]; intros data w Hq Hin; simpl.
  - exists w. by rewrite app_nil_r.
  - assert (Hnext : nextBinaryMessage J w =
                    (Ok f, afterReads w [] (frames ++ rest) [Received f; Matched f])).
    { unfold nextBinaryMessage.
      apply (api_facts.nextMessageMatching_read _ w [] f (frames ++ rest)).
      - rewrite Hq. constructor.
      - done.
      - constructor.
      - by apply binary_accepted. }
    rewrite (bind_wrap_Ok _ _ _ _ _ _ Hnext).
    destruct (IH (data ++ f) (afterReads w [] (frames ++ rest) [Received f; Matched f]))
      as (w' & Hrun & Hq' & Hin' & Hout' & Hv'); [simpl; by rewrite Hq|done|].
    exists w'. rewrite Hrun, <- app_assoc. done.
Qed.

(** The two checks, passed. *)
Lemma verify_accepts expected size data w content hx :
  Z.of_nat (length data) = size →
  crypto.Decrypt C data (bytes_of (Password (Vault w))) (bytes_of (Salt (Vault w)))
    = Ok content →
  crypto.DecryptString C expected (bytes_of (Password (Vault w)))
    (bytes_of (Salt (Vault w))) = Ok hx →
  hex_DecodeString C hx = Success (sha256_Sum256 C content) →
  verify C expected size data w = (Ok content, w).
Proof.
  intros Hsize Hdec Hhash Hhex. unfold verify.
  rewrite bool_decide_eq_true_2 by done. simpl.
  unfold bind at 1, password. unfold bind at 1, salt.
  unfold bind at 1, wrap at 1, lift at 1. rewrite Hdec. simpl.
  unfold bind at 1, wrap at 1, lift at 1. rewrite Hhash. simpl.
  unfold bind at 1, call, wrap, lift. rewrite Hhex. simpl.
  by rewrite bool_decide_eq_true_2.
Qed.

End Exchange.
End exchange_facts.

(** X16. A pull answered as the protocol expects is accepted. On a context with
    an empty queue whose transport accepts a write, let the peer deliver a
    header with the keys hash, size and pieces, then as many binary frames
    as the header announces, of the total length it announces. If their
    concatenation decrypts to [content] and the expected hash decrypts to
    the hex form of the SHA-256 of [content], then [PullFile] returns
    [content]; it has written the pull request and nothing else, has taken
    the header and the pieces, and has left the frames after them in the
    socket. *)
Theorem PullFile_accepts_a_wellformed_exchange
    (C : CryptoLib) (J : api.JsonLib) (uid : Z) (expectedEncryptedHash : string)
    (w : api.World) (header : bytes) (frames rest : list bytes)
    (m : gmap string api.jval) (h : api.PullHeaderMessage)
    (content : bytes) (hx : string) :
  let pw := bytes_of (api.Password (api.Vault w)) in
  let slt := bytes_of (api.Salt (api.Vault w)) in
  api.ws_quota w ≠ 0 →
  api.filteredQueue w = [] →
  api.ws_inbox w = header :: frames ++ rest →
  api.Unmarshal_map J header = Success m →
  is_Some (m !! "hash") → is_Some (m !! "size") → is_Some (m !! "pieces") →
  api.Unmarshal_PullHeaderMessage J header = Success h →
  api.hdr_Pieces h = Z.of_nat (length frames) →
  Forall (api.binary J) frames →
  api.hdr_Size h = Z.of_nat (length (concat frames)) →
  crypto.Decrypt C (concat frames) pw slt = Ok content →
  crypto.DecryptString C expectedEncryptedHash pw slt = Ok hx →
  hex_DecodeString C hx = Success (sha256_Sum256 C content) →
  ∃ w', api.PullFile C J uid expectedEncryptedHash w = (Ok content, w') ∧
        api.ws_outbox w' = api.ws_outbox w ++ [api.JSONFrame (api.MsgPull uid)] ∧
        api.ws_inbox w' = rest ∧
        api.filteredQueue w' = [].
Proof.
  intros pw slt Hquota Hq Hin Hm Hhash Hsize Hpieces Hh Hn Hbin Hlen Hdec Hexp Hhex.
  set (w1 := api.print (api.Sent (api.JSONFrame (api.MsgPull uid)))
               (api.ws_write (api.JSONFrame (api.MsgPull uid)) w)).
  pose proof (request_facts.sendMessage_accepted (api.MsgPull uid) w Hquota) as Hsend.
  fold w1 in Hsend.
  set (w2 := api.afterReads w1 [] (frames ++ rest)
               [api.Received header; api.Matched header]).
  assert (Hhdr : api.nextMessageWithJsonKeys J ["hash"; "size"; "pieces"] w1
                 = (Ok header, w2)).
  { unfold api.nextMessageWithJsonKeys, api.nextMessageMatchingJson.
    apply (api_facts.nextMessageMatching_read _ w1 [] header (frames ++ rest)).
    - simpl. rewrite Hq. constructor.
    - done.
    - constructor.
    - unfold api.jsonMatcher. rewrite Hm. simpl.
      by rewrite !bool_decide_eq_true_2. }
  destruct (exchange_facts.readPieces_takes J frames rest Hbin []
              (api.print (api.HeaderInfo uid (api.hdr_Size h) (api.hdr_Pieces h)) w2))
    as (w3 & Hdata & Hq3 & Hin3 & Hout3 & Hv3).
  { simpl. by rewrite Hq. }
  { done. }
  assert (Hdata' : api.readPieces J (Z.to_nat (api.hdr_Pieces h)) []
                     (api.print (api.HeaderInfo uid (api.hdr_Size h) (api.hdr_Pieces h)) w2)
                   = (Ok (concat frames), w3)).
  { replace (Z.to_nat (api.hdr_Pieces h)) with (length frames) by (rewrite Hn; lia).
    exact Hdata. }
  exists w3.
  rewrite (pull_facts.PullFile_after_pieces J C _ _ _ _ _ _ _ _ _ Hsend Hhdr Hh Hdata').
  split.
  - apply (exchange_facts.verify_accepts C _ _ _ _ _ hx); [done| | |done].
    + by rewrite Hv3.
    + by rewrite Hv3.
  - rewrite Hout3, Hin3, Hq3. done.
Qed.

(** X7. A pass returns without error only if every path it has to report,
    delete, create or pull is decrypted by [DecryptString] under the
    password and salt of the vault. A path that does not decrypt, and so
    every path on which [DecryptString] fails or panics, ends the pass with
    an error or a panic. *)
Theorem SyncFiles_needs_every_path_to_decrypt
    (C : CryptoLib) (J : api.JsonLib)
    (os_ReadFile : string → result bytes) (time_Now_UnixNano : Z)
    (s : sync.State)
    (remoteOrder : list (string * sync.ObsidianRemoteEntry))
    (localOrder : list (string * sync.ObsidianLocalEntry))
    (w : api.World) (o : outcome unit) (s' : sync.State) (w' : api.World)
    (x : string) :
  let p := sync.decide_ s remoteOrder localOrder in
  x ∈ sync.conflictPaths p ∨ x ∈ sync.deletePaths p ∨
    x ∈ sync.newFolderPaths p ∨ x ∈ sync.pullPaths p →
  ¬ is_Ok (crypto.DecryptString C x (bytes_of (api.Password (api.Vault w)))
             (bytes_of (api.Salt (api.Vault w)))) →
  sync.SyncFiles C J os_ReadFile time_Now_UnixNano remoteOrder localOrder (s, w)
    = (o, (s', w')) →
  ¬ is_Ok o.
Proof.
  intros p Hx Hbad Hrun [[] ->].
  apply (pass_facts.execute_Ok C J os_ReadFile) in Hrun as (_ & _ & _ & _ & _ & Hall).
  destruct (Hall x) as (Hdec & _). by apply Hbad, Hdec.
Qed.

(** X17. A push answered as the protocol expects completes. Assume key
    derivation and cipher construction succeed for the vault, the random
    source holds 36 bytes, the transport accepts two writes, the queue is
    empty, and the peer delivers a frame whose [res] is [next], a push
    frame and a frame whose [op] is [ok]. Then [PushFile] returns without
    error: it has drawn three nonces, written the descriptor and then the
    encrypted content, and taken the three frames. The push frame is
    accepted whatever it echoes. *)
Theorem PushFile_completes_when_acknowledged
    (C : CryptoLib) (J : api.JsonLib)
    (path extension : string) (ctime mtime : Z) (folder deleted : bool)
    (content : bytes) (w : api.World)
    (nextFrame pushFrame okFrame : bytes) (rest : list bytes)
    (m1 m2 m3 : gmap string api.jval) (echo : api.IncomingPushMessage)
    (key : bytes) (block : Block C) (aesgcm : AEAD C) :
  let pw := bytes_of (api.Password (api.Vault w)) in
  let slt := bytes_of (api.Salt (api.Vault w)) in
  let r := api.rand_Reader w in
  scrypt_Key C pw slt 32768 8 1 32 = Success key →
  aes_NewCipher C key = Success block →
  cipher_NewGCM C block = Success aesgcm →
  36 ≤ length r →
  2 ≤ api.ws_quota w →
  api.filteredQueue w = [] →
  api.ws_inbox w = nextFrame :: pushFrame :: okFrame :: rest →
  api.Unmarshal_map J nextFrame = Success m1 →
  m1 !! "res" = Some (api.JString "next") →
  api.Unmarshal_res J nextFrame = Success "next" →
  api.Unmarshal_map J pushFrame = Success m2 →
  m2 !! "op" = Some (api.JString "push") →
  api.Unmarshal_IncomingPushMessage J pushFrame = Success echo →
  api.Unmarshal_map J okFrame = Success m3 →
  m3 !! "op" = Some (api.JString "ok") →
  api.Unmarshal_op J okFrame = Success "ok" →
  let encryptedContent := take 12 r ++ gcm_Seal C aesgcm (take 12 r) content in
  let encryptedPath :=
    take 12 (drop 12 r) ++ gcm_Seal C aesgcm (take 12 (drop 12 r)) (bytes_of path) in
  let encryptedContentSum :=
    take 12 (drop 24 r)
      ++ gcm_Seal C aesgcm (take 12 (drop 24 r)) (sha256_Sum256 C content) in
  let desc :=
    {| api.out_Op := "push";
       api.out_Path := hex_EncodeToString C encryptedPath;
       api.out_Ext := extension;
       api.out_Hash := hex_EncodeToString C encryptedContentSum;
       api.out_Ctime := ctime; api.out_Mtime := mtime;
       api.out_Folder := folder; api.out_Deleted := deleted;
       api.out_Size := Z.of_nat (length encryptedContent);
       api.out_Pieces := 1 |} in
  ∃ w', api.PushFile C J path extension ctime mtime folder deleted content w
          = (Ok tt, w') ∧
        api.ws_outbox w' =
          api.ws_outbox w ++ [api.JSONFrame (api.MsgPush desc);
                              api.BinaryFrame encryptedContent] ∧
        api.ws_inbox w' = rest ∧
        api.filteredQueue w' = [] ∧
        api.rand_Reader w' = drop 36 r.
Proof.
  intros pw slt r Hkey Hblock Hgcm Hr Hquota Hq Hin Hm1 Hres Hnext Hm2 Hop Hecho
    Hm3 Hok Hdone ec ep es desc.
  unfold api.PushFile.
  rewrite (bind_Ok _ _ w pw w) by reflexivity.
  rewrite (bind_Ok _ _ w slt w) by reflexivity.
  assert (He : ∀ input w0, api.Vault w0 = api.Vault w →
            crypto.nonceSize ≤ length (api.rand_Reader w0) →
            api.Encrypt C input pw slt w0 =
              (Ok (take 12 (api.rand_Reader w0)
                     ++ gcm_Seal C aesgcm (take 12 (api.rand_Reader w0)) input),
               api.set_rand_Reader (drop 12 (api.rand_Reader w0)) w0)).
  { intros input w0 Hv Hlen. unfold api.Encrypt.
    by rewrite (crypto_facts.Encrypt_ok C _ _ _ _ _ Hkey Hblock Hgcm). }
  rewrite (bind_wrap_Ok _ _ _ _ _ _ (He content w eq_refl ltac:(unfold crypto.nonceSize; fold r; lia))).
  fold r ec.
  set (wa := api.set_rand_Reader (drop 12 r) w).
  assert (Ha : api.Encrypt C (bytes_of path) pw slt wa =
               (Ok ep, api.set_rand_Reader (drop 24 r) wa)).
  { rewrite (He _ wa eq_refl); simpl.
    - rewrite drop_drop. reflexivity.
    - rewrite length_drop. unfold crypto.nonceSize. lia. }
  rewrite (bind_wrap_Ok _ _ _ _ _ _ Ha).
  set (wb := api.set_rand_Reader (drop 24 r) wa).
  assert (Hb : api.Encrypt C (sha256_Sum256 C content) pw slt wb =
               (Ok es, api.set_rand_Reader (drop 36 r) wb)).
  { rewrite (He _ wb eq_refl); simpl.
    - rewrite drop_drop. reflexivity.
    - rewrite length_drop. unfold crypto.nonceSize. lia. }
  rewrite (bind_wrap_Ok _ _ _ _ _ _ Hb).
  set (wc := api.set_rand_Reader (drop 36 r) wb).
  fold desc.
  assert (Hqc : api.ws_quota wc ≠ 0) by (simpl; lia).
  rewrite (bind_wrap_Ok _ _ _ _ _ _
             (request_facts.sendMessage_accepted (api.MsgPush desc) wc Hqc)).
  set (w1 := api.print _ _).
  assert (H1 : api.nextMessageWithJsonValue J "res" "next" w1 =
               (Ok nextFrame,
                api.afterReads w1 [] (pushFrame :: okFrame :: rest)
                  [api.Received nextFrame; api.Matched nextFrame])).
  { unfold api.nextMessageWithJsonValue, api.nextMessageMatchingJson.
    apply (api_facts.nextMessageMatching_read _ w1 [] nextFrame
             (pushFrame :: okFrame :: rest)).
    - simpl. rewrite Hq. constructor.
    - done.
    - constructor.
    - unfold api.jsonMatcher. rewrite Hm1. by apply bool_decide_eq_true_2. }
  rewrite (bind_wrap_Ok _ _ _ _ _ _ H1).
  set (w2 := api.afterReads w1 _ _ _).
  rewrite Hnext, bind_call_Success.
  rewrite (bool_decide_eq_true_2 ("next" = "next")) by done. cbn [negb].
  assert (H2 : api.sendBinary ec w2 =
               (Ok tt, api.print (api.Sent (api.BinaryFrame ec))
                         (api.ws_write (api.BinaryFrame ec) w2))).
  { unfold api.sendBinary, bind, wrap, api.ws_WriteMessage. simpl.
    destruct (api.ws_quota w) as [|[|q]]; [lia|lia|reflexivity]. }
  rewrite (bind_wrap_Ok _ _ _ _ _ _ H2).
  set (w3 := api.print _ _).
  assert (H3 : api.nextMessageWithJsonValue J "op" "push" w3 =
               (Ok pushFrame,
                api.afterReads w3 [] (okFrame :: rest)
                  [api.Received pushFrame; api.Matched pushFrame])).
  { unfold api.nextMessageWithJsonValue, api.nextMessageMatchingJson.
    apply (api_facts.nextMessageMatching_read _ w3 [] pushFrame (okFrame :: rest)).
    - simpl. rewrite Hq. constructor.
    - done.
    - constructor.
    - unfold api.jsonMatcher. rewrite Hm2. by apply bool_decide_eq_true_2. }
  rewrite (bind_wrap_Ok _ _ _ _ _ _ H3).
  set (w4 := api.afterReads w3 _ _ _).
  rewrite Hecho, bind_call_Success.
  assert (H4 : api.nextMessageWithJsonValue J "op" "ok" w4 =
               (Ok okFrame,
                api.afterReads w4 [] rest
                  [api.Received okFrame; api.Matched okFrame])).
  { unfold api.nextMessageWithJsonValue, api.nextMessageMatchingJson.
    apply (api_facts.nextMessageMatching_read _ w4 [] okFrame rest).
    - simpl. rewrite Hq. constructor.
    - done.
    - constructor.
    - unfold api.jsonMatcher. rewrite Hm3. by apply bool_decide_eq_true_2. }
  rewrite (bind_wrap_Ok _ _ _ _ _ _ H4).
  rewrite Hdone, bind_call_Success.
  rewrite (bool_decide_eq_true_2 ("ok" = "ok")) by done. cbn [negb].
  eexists. split; [reflexivity|]. simpl. rewrite Hq.
  repeat split. by rewrite <- app_assoc.
Qed.

(** ** A push, then a pass *)

Module daemon_facts.
Import sync.

Lemma UpdateWithPush_fields push s :
  LocalFiles (UpdateWithPush push s) = LocalFiles s ∧
  LastSync (UpdateWithPush push s) = LastSync s.
Proof. unfold UpdateWithPush. by destruct (api.Deleted push). Qed.

Lemma UpdateWithPush_other push s y :
  y ≠ api.EncryptedPath push →
  RemoteEntries (UpdateWithPush push s) !! y = RemoteEntries s !! y.
Proof.
  intros Hy. unfold UpdateWithPush. destruct (api.Deleted push); simpl.
  - by rewrite lookup_delete_ne.
  - by rewrite lookup_insert_ne.
Qed.

Lemma UpdateWithPush_own push s :
  RemoteEntries (UpdateWithPush push s) !! api.EncryptedPath push =
  if api.Deleted push then None
  else Some {| EncryptedPath := api.EncryptedPath push;
               r_IsFolder := api.Folder push;
               EncryptedHash := api.EncryptedHash push;
               Uid := api.Uid push;
               r_Created := api.Ctime push;
               r_Modified := api.Mtime push |}.
Proof.
  unfold UpdateWithPush. destruct (api.Deleted push); simpl.
  - by rewrite lookup_delete_eq.
  - by rewrite lookup_insert_eq.
Qed.

End daemon_facts.

(** X10. One turn of the daemon: the push is applied, then a pass decides. The
    push changes the decision at its own path only. At that path, a push
    that is not a deletion is never answered by a push; it is pulled when
    it is a file and the path is unknown locally, a folder locally, or a
    file modified before the pushed time. A pushed deletion is never
    pulled: the local entry, if any, is deleted when it was created before
    the last pass, and pushed back when its modification time is
    positive. *)
Theorem push_then_pass_decision
    (s : sync.State) (push : api.IncomingPushMessage)
    (remoteOrder remoteOrder' : list (string * sync.ObsidianRemoteEntry))
    (localOrder localOrder' : list (string * sync.ObsidianLocalEntry)) :
  let s' := sync.UpdateWithPush push s in
  sync.rangeOrder (sync.RemoteEntries s) remoteOrder →
  sync.rangeOrder (sync.LocalFiles s) localOrder →
  sync.rangeOrder (sync.RemoteEntries s') remoteOrder' →
  sync.rangeOrder (sync.LocalFiles s') localOrder' →
  let p := sync.decide_ s remoteOrder localOrder in
  let p' := sync.decide_ s' remoteOrder' localOrder' in
  let x := api.EncryptedPath push in
  (∀ y, y ≠ x →
     (y ∈ sync.pullPaths p' ↔ y ∈ sync.pullPaths p) ∧
     (y ∈ sync.newFolderPaths p' ↔ y ∈ sync.newFolderPaths p) ∧
     (y ∈ sync.conflictPaths p' ↔ y ∈ sync.conflictPaths p) ∧
     (y ∈ sync.pushPaths p' ↔ y ∈ sync.pushPaths p) ∧
     (y ∈ sync.deletePaths p' ↔ y ∈ sync.deletePaths p)) ∧
  (api.Deleted push = false →
     (x ∉ sync.pushPaths p') ∧
     (x ∈ sync.pullPaths p' ↔
      match sync.LocalFiles s !! x with
      | None => api.Folder push = false
      | Some l => if sync.IsFolder l then api.Folder push = false
                  else (sync.Modified l < api.Mtime push)%Z
      end)) ∧
  (api.Deleted push = true →
     (x ∉ sync.pullPaths p') ∧ (x ∉ sync.newFolderPaths p') ∧
     (x ∉ sync.conflictPaths p') ∧
     (x ∈ sync.deletePaths p' ↔
      ∃ l, sync.LocalFiles s !! x = Some l ∧ (sync.Created l < sync.LastSync s)%Z) ∧
     (x ∈ sync.pushPaths p' ↔
      ∃ l, sync.LocalFiles s !! x = Some l ∧ (sync.Modified l > 0)%Z)).
Proof.
  intros s' Hro Hlo Hro' Hlo' p p' x.
  destruct (daemon_facts.UpdateWithPush_fields push s) as [HL HT].
  fold s' in HL, HT.
  pose proof (daemon_facts.UpdateWithPush_own push s) as Hown. fold s' x in Hown.
  split; [|split].
  - intros y Hy.
    pose proof (daemon_facts.UpdateWithPush_other push s y Hy) as HR. fold s' in HR.
    pose proof (decision.slices_iff s _ _ y Hro Hlo) as (T1 & T2 & T3 & T4 & T5).
    pose proof (decision.slices_iff s' _ _ y Hro' Hlo') as (T1' & T2' & T3' & T4' & T5').
    fold p in T1, T2, T3, T4, T5. fold p' in T1', T2', T3', T4', T5'.
    rewrite T1, T2, T3, T4, T5, T1', T2', T3', T4', T5', HL, HT, HR. done.
  - intros Hd. rewrite Hd in Hown.
    pose proof (decision.slices_iff s' _ _ x Hro' Hlo') as (T1' & _ & _ & T4' & _).
    fold p' in T1', T4'. rewrite T1', T4', HL, Hown. split.
    + intros (l & _ & Hnone & _). done.
    + split.
      * intros (r & [= <-] & Hx). exact Hx.
      * intros Hx. eexists. split; [done|]. exact Hx.
  - intros Hd. rewrite Hd in Hown.
    pose proof (decision.slices_iff s' _ _ x Hro' Hlo') as (T1' & T2' & T3' & T4' & T5').
    fold p' in T1', T2', T3', T4', T5'.
    rewrite T1', T2', T3', T4', T5', HL, HT, Hown.
    split; [by intros (r & ? & _)|].
    split; [by intros (r & ? & _)|].
    split; [by intros (r & l & ? & _)|].
    split.
    + done.
    + split.
      * intros (l & Hl & _ & Hm). by exists l.
      * intros (l & Hl & Hm). by exists l.
Qed.

(** ** Choosing the vault *)

Module cmd_facts.
Import cmd.

Lemma index_in_range {A} (l : list A) (i : Z) :
  (0 ≤ i < Z.of_nat (length l))%Z →
  ∃ a, index l i = Ok a ∧ l !! Z.to_nat i = Some a.
Proof.
  intros Hi. unfold index.
  destruct (l !! Z.to_nat i) as [a|] eqn:Ha.
  - exists a. by rewrite decide_True by lia.
  - apply lookup_ge_None in Ha. lia.
Qed.

Lemma find_first {A} (f : A → bool) (l : list A) (a : A) :
  List.find f l = Some a →
  ∃ pre post, l = pre ++ a :: post ∧ f a = true ∧ Forall (fun b => f b = false) pre.
Proof.
  induction l as [|b l IH]; simpl; [done|].
  destruct (f b) eqn:Hb.
  - intros [= <-]. exists [], l. repeat split; [done|constructor].
  - intros H. destruct (IH H) as (pre & post & -> & Ha & Hpre).
    exists (b :: pre), post. repeat split; [done|by constructor].
Qed.

Lemma find_none {A} (f : A → bool) (l : list A) :
  List.find f l = None → Forall (fun b => f b = false) l.
Proof.
  induction l as [|b l IH]; simpl; [constructor|].
  destruct (f b) eqn:Hb; [done|]. intros H. constructor; [done|by apply IH].
Qed.

Lemma bind_assoc_run {St A B D} (m : StM St A) (k1 : A → StM St B) (k2 : B → StM St D) st :
  bind (bind m k1) k2 st = bind m (fun a => bind (k1 a) k2) st.
Proof. unfold bind. by destruct (m st) as [[a|e|p] st1]. Qed.

(** A prompt returns what the next [Scanln] stores, or the value it was
    given. *)
Lemma promptFor_Ok prompt value t :
  ∃ t', promptFor prompt value t =
          (Ok (match stdin t with
               | [] => value
               | s :: _ => default value (stored s)
               end), t').
Proof.
  unfold promptFor, bind, show, fmt_Scanln. simpl.
  destruct (stdin t) as [|s rest]; simpl; [by eexists|].
  destruct (failed s); simpl; by eexists.
Qed.

Lemma printChoices_Ok vaults t :
  ∃ t', printChoices vaults t = (Ok tt, t') ∧ stdin t' = stdin t.
Proof.
  unfold printChoices. generalize (imap (fun i vault => (i, vault)) vaults).
  intros l. revert t. induction l as [|[i v] l IH]; intros t; simpl.
  - by eexists.
  - unfold bind at 1, show at 1.
    destruct (IH {| stdin := stdin t;
                    stdout := stdout t ++ [VaultChoice (Z.of_nat i + 1) (api.Name v)] |})
      as (t' & Hrun & Hin).
    exists t'. split; [exact Hrun|exact Hin].
Qed.

End cmd_facts.

(** X19. The vault and the password handed to [Sync]. Whatever is typed,
    [promptForNeededInfoThenSync] panics only if [Sync] does: the index it
    reads the list of vaults at is in range. Without an auth token it fails
    before listing the vaults. Otherwise it ends with one of its own errors, or it
    calls [Sync] once and returns its result: with a vault that is an
    element of the list the server returned, unchanged (the vault at the
    typed number, counted from 1, or the first vault with the requested
    id), and with the password given if there is one, else with the
    password stored in that vault if there is one. *)
Theorem promptForNeededInfoThenSync_hands_over_a_listed_vault
    (ListVaults : string → result (list api.VaultInfo))
    (strconv_Atoi : string → result Z)
    (Sync : string → api.VaultInfo → string → bool → outcome unit)
    (authToken vaultId password : string) (daemon : bool)
    (t : cmd.Terminal) (o : outcome unit) (t' : cmd.Terminal) :
  cmd.promptForNeededInfoThenSync ListVaults strconv_Atoi Sync
    authToken vaultId password daemon t = (o, t') →
  (∀ m, o = Panic m → ∃ vaultInfo pw, Sync authToken vaultInfo pw daemon = Panic m) ∧
  (authToken = "" → o = Err "no auth token provided" ∧ t' = t) ∧
  (authToken ≠ "" →
   (∃ e, ListVaults authToken = Failure e ∧ o = Err ("error listing vaults: " +:+ e)) ∨
   ∃ vaults, ListVaults authToken = Success vaults ∧
     ((∃ e, o = Err ("error parsing vault number: " +:+ e)) ∨
      o = Err "invalid vault number" ∨
      (o = Err "vault not found" ∧ vaultId ≠ "" ∧
       Forall (fun v => api.Id v ≠ vaultId) vaults) ∨
      ∃ vaultInfo pw,
        o = owrap "error syncing: " (Sync authToken vaultInfo pw daemon) ∧
        vaultInfo ∈ vaults ∧
        (vaultId = "" →
         ∃ n, strconv_Atoi (match cmd.stdin t with
                            | [] => ""
                            | s :: _ => default "" (cmd.stored s)
                            end) = Success n ∧
              (1 ≤ n ≤ Z.of_nat (length vaults))%Z ∧
              vaults !! Z.to_nat (n - 1) = Some vaultInfo) ∧
        (vaultId ≠ "" →
         ∃ pre post, vaults = pre ++ vaultInfo :: post ∧ api.Id vaultInfo = vaultId ∧
                     Forall (fun v => api.Id v ≠ vaultId) pre) ∧
        (password ≠ "" → pw = password) ∧
        (password = "" → api.Password vaultInfo ≠ "" → pw = api.Password vaultInfo))).
Proof.
  unfold cmd.promptForNeededInfoThenSync. intros Hrun.
  destruct (decide (authToken = "")) as [Htok|Htok].
  { injection Hrun as <- <-. repeat split; try done. }
  (* what follows the choice of the vault *)
  assert (Hrest : ∀ vaultInfo t1,
    bind (if decide (password = "")
          then if decide (api.Password vaultInfo ≠ "")
               then ret (api.Password vaultInfo)
               else cmd.promptFor "Vault Password: " password
          else ret password)
      (fun pw => wrap "error syncing: " (lift (Sync authToken vaultInfo pw daemon))) t1
      = (o, t') →
    ∃ pw, o = owrap "error syncing: " (Sync authToken vaultInfo pw daemon) ∧
          (password ≠ "" → pw = password) ∧
          (password = "" → api.Password vaultInfo ≠ "" → pw = api.Password vaultInfo)).
  { intros vaultInfo t1 H.
    destruct (decide (password = "")) as [Hp|Hp].
    - destruct (decide (api.Password vaultInfo ≠ "")) as [Hv|Hv].
      + injection H as <- <-. exists (api.Password vaultInfo). done.
      + destruct (cmd_facts.promptFor_Ok "Vault Password: " password t1)
          as (t2 & Hpw).
        rewrite (bind_Ok _ _ _ _ _ Hpw) in H. injection H as <- <-.
        eexists. done.
    - injection H as <- <-. exists password. done. }
  assert (Hnopanic : ∀ vaultInfo pw m,
            owrap "error syncing: " (Sync authToken vaultInfo pw daemon) = Panic m →
            ∃ vaultInfo pw, Sync authToken vaultInfo pw daemon = Panic m).
  { intros vaultInfo pw m H. exists vaultInfo, pw.
    by destruct (Sync authToken vaultInfo pw daemon). }
  destruct (ListVaults authToken) as [vaults|e] eqn:Hlist.
  2:{ assert (o = Err ("error listing vaults: " +:+ e)) as ->.
      { destruct (decide (vaultId = "")); by injection Hrun as <- <-. }
      repeat split; try done. intros _. left. by exists e. }
  destruct (decide (vaultId = "")) as [Hid|Hid].
  - (* by number *)
    rewrite cmd_facts.bind_assoc_run, bind_call_Success in Hrun.
    destruct (cmd_facts.printChoices_Ok vaults t) as (t1 & Hprint & Hin1).
    rewrite cmd_facts.bind_assoc_run, (bind_Ok _ _ _ _ _ Hprint) in Hrun.
    destruct (cmd_facts.promptFor_Ok "Select vault: " "" t1) as (t2 & Htyped).
    rewrite Hin1 in Htyped.
    rewrite cmd_facts.bind_assoc_run, (bind_Ok _ _ _ _ _ Htyped) in Hrun.
    rewrite cmd_facts.bind_assoc_run in Hrun.
    destruct (strconv_Atoi _) as [n|e] eqn:Hn.
    2:{ injection Hrun as <- <-. repeat split; try done.
        intros _. right. exists vaults. split; [done|]. left. by exists e. }
    rewrite bind_call_Success in Hrun.
    destruct ((n <? 1)%Z || (n >? Z.of_nat (length vaults))%Z) eqn:Hrange.
    { injection Hrun as <- <-. repeat split; try done.
      intros _. right. exists vaults. split; [done|]. right. by left. }
    apply orb_false_elim in Hrange as [Hlow Hhigh].
    apply Z.ltb_ge in Hlow. rewrite Z.gtb_ltb in Hhigh. apply Z.ltb_ge in Hhigh.
    destruct (cmd_facts.index_in_range vaults (n - 1)) as (v & Hv & Hlook); [lia|].
    rewrite (bind_Ok _ _ t2 v t2) in Hrun by (unfold lift; by rewrite Hv).
    apply Hrest in Hrun as (pw & -> & Hpw1 & Hpw2).
    split; [apply Hnopanic|]. split; [done|].
    intros _. right. exists vaults. split; [done|]. do 3 right.
    exists v, pw. repeat split; try done.
    + by eapply list_elem_of_lookup_2.
    + intros _. exists n. repeat split; (done || lia).
  - (* by id *)
    rewrite cmd_facts.bind_assoc_run, bind_call_Success in Hrun.
    destruct (List.find _ vaults) as [v|] eqn:Hfind.
    + apply cmd_facts.find_first in Hfind as (pre & post & -> & Hv & Hpre).
      apply bool_decide_eq_true in Hv.
      rewrite (bind_Ok _ _ t v t) in Hrun by reflexivity.
      apply Hrest in Hrun as (pw & -> & Hpw1 & Hpw2).
      split; [apply Hnopanic|]. split; [done|].
      intros _. right. eexists. split; [done|]. do 3 right.
      exists v, pw. repeat split; try done.
      * apply elem_of_app. right. apply list_elem_of_here.
      * intros _. exists pre, post. repeat split; try done.
        eapply Forall_impl; [exact Hpre|]. intros b Hb. simpl in Hb.
        by apply bool_decide_eq_false in Hb.
    + injection Hrun as <- <-. apply cmd_facts.find_none in Hfind.
      repeat split; try done.
      intros _. right. exists vaults. split; [done|]. right. right. left.
      repeat split; try done.
      eapply Forall_impl; [exact Hfind|]. intros b Hb. simpl in Hb.
      by apply bool_decide_eq_false in Hb.
Qed.

(** ** The two passwords of a session *)


(** ** The further properties at concrete inputs *)

Lemma rangeOrder_reverse {V} (m : gmap string V) :
  sync.rangeOrder m (reverse (map_to_list m)).
Proof. unfold sync.rangeOrder. apply reverse_Permutation. Defined.

Lemma firstPass_Ok :
  cases.firstPass = (Ok tt, (cases.firstPass.2.1, cases.firstPass.2.2)).
Proof.
  assert (H : cases.firstPass.1 = Ok tt) by (vm_compute; reflexivity).
  destruct cases.firstPass as [o [s w]]. simpl in *. by subst.
Defined.

(** The stand-in hex codec. *)
Lemma instance_hex_byte (x : byte) :
  instance.hexval (instance.hexchar (Byte.to_N x / 16)) = Some (Byte.to_N x / 16)%N ∧
  instance.hexval (instance.hexchar (Byte.to_N x mod 16)) = Some (Byte.to_N x mod 16)%N ∧
  Byte.of_N (16 * (Byte.to_N x / 16) + Byte.to_N x mod 16) = Some x.
Proof. destruct x; vm_compute; repeat split; reflexivity. Qed.

Lemma instance_hex_roundtrip (b : bytes) :
  instance.DecodeString (instance.EncodeToString b) = Success b.
Proof.
  induction b as [|x b IH]; [done|].
  destruct (instance_hex_byte x) as (Hh & Hl & Hx).
  cbn [instance.EncodeToString instance.DecodeString].
  by rewrite Hh, Hl, Hx, IH.
Qed.

Lemma instance_hex_half (s : string) (b : bytes) :
  instance.DecodeString s = Success b → String.length s = 2 * length b.
Proof.
  enough (H : ∀ s,
            (∀ b, instance.DecodeString s = Success b → String.length s = 2 * length b) ∧
            (∀ a b, instance.DecodeString (String a s) = Success b →
                    String.length (String a s) = 2 * length b))
    by apply H.
  clear s b. induction s as [|c s [IH1 IH2]].
  - split; [by intros b [= <-]|]. intros a b H. simpl in H. done.
  - split; [apply IH2|]. intros a b H.
    cbn [instance.DecodeString] in H.
    destruct (instance.hexval a), (instance.hexval c); try done.
    destruct (Byte.of_N _) as [x|]; destruct (instance.DecodeString s) as [t|e] eqn:Ht;
      try done.
    injection H as <-. simpl. rewrite (IH1 t eq_refl). lia.
Qed.

Lemma instance_Sum256_length (b : bytes) : length (instance.Sum256 b) = 32.
Proof. unfold instance.Sum256. rewrite length_app, length_replicate. done. Qed.

(** The decision table at the conflicting file of [examples.both]. *)
Lemma SyncFiles_decision_table_witness :
  "ab12" ∈ sync.conflictPaths
             (sync.decide_ examples.both
                (map_to_list (sync.RemoteEntries examples.both))
                (map_to_list (sync.LocalFiles examples.both))).
Proof.
  destruct (SyncFiles_decision_table examples.both
              (map_to_list (sync.RemoteEntries examples.both))
              (map_to_list (sync.LocalFiles examples.both)) "ab12"
              (rangeOrder_map_to_list _) (rangeOrder_map_to_list _))
    as (_ & _ & Hconflict & _).
  apply Hconflict. exists (examples.remoteFile 100), (examples.localFile 300).
  repeat split; vm_compute; reflexivity.
Defined.

(** The slices of [examples.both] for the two maps visited forwards and
    backwards. *)
Lemma SyncFiles_slices_once_and_order_independent_witness :
  NoDup (sync.conflictPaths
           (sync.decide_ examples.both
              (map_to_list (sync.RemoteEntries examples.both))
              (map_to_list (sync.LocalFiles examples.both)))) ∧
  sync.conflictPaths
    (sync.decide_ examples.both
       (map_to_list (sync.RemoteEntries examples.both))
       (map_to_list (sync.LocalFiles examples.both)))
  ≡ₚ sync.conflictPaths
       (sync.decide_ examples.both
          (reverse (map_to_list (sync.RemoteEntries examples.both)))
          (reverse (map_to_list (sync.LocalFiles examples.both)))).
Proof.
  destruct (SyncFiles_slices_once_and_order_independent examples.both
              (map_to_list (sync.RemoteEntries examples.both))
              (reverse (map_to_list (sync.RemoteEntries examples.both)))
              (map_to_list (sync.LocalFiles examples.both))
              (reverse (map_to_list (sync.LocalFiles examples.both)))
              (rangeOrder_map_to_list _) (rangeOrder_map_to_list _)
              (rangeOrder_reverse _) (rangeOrder_reverse _))
    as ((_ & _ & Hnodup & _) & _ & _ & Hperm & _).
  split; [exact Hnodup|exact Hperm].
Defined.

(** The frame on the pass over [examples.both], which panics on the
    conflicting path. *)
Lemma SyncFiles_frame_witness :
  sync.RemoteEntries cases.conflictPass.2.1 = sync.RemoteEntries examples.both ∧
  sync.LastSync cases.conflictPass.2.1 = 50%Z.
Proof.
  destruct (SyncFiles_frame instance.cryptoLib instance.jsonLib examples.noFiles
              cases.clock examples.both
              (map_to_list (sync.RemoteEntries examples.both))
              (map_to_list (sync.LocalFiles examples.both)) (examples.session [] "")
              cases.conflictPass.1 cases.conflictPass.2.1 cases.conflictPass.2.2)
    as (HR & _ & _ & _ & [[Hok _]|[_ HT]]).
  - unfold cases.conflictPass. by destruct (sync.SyncFiles _ _ _ _ _ _ _) as [o [s w]].
  - vm_compute in Hok. discriminate.
  - split; [exact HR|exact HT].
Defined.

(** The state after the first pass of [cases.firstSync]: the note is
    mirrored. *)
Lemma SyncFiles_success_state_witness :
  sync.LocalFiles cases.firstPass.2.1 !! cases.notePath =
    Some {| sync.Path := "a.md"; sync.Created := 10; sync.Modified := 20;
            sync.IsFolder := false |} ∧
  sync.LastSync cases.firstPass.2.1 = 1700000000000%Z.
Proof.
  destruct (SyncFiles_success_state instance.cryptoLib instance.jsonLib examples.noFiles
              cases.clock cases.firstSync
              (map_to_list (sync.RemoteEntries cases.firstSync))
              (map_to_list (sync.LocalFiles cases.firstSync)) cases.answering
              cases.firstPass.2.1 cases.firstPass.2.2
              (rangeOrder_map_to_list _) (rangeOrder_map_to_list _) firstPass_Ok)
    as (_ & HT & Hpaths).
  split; [|exact HT].
  destruct (Hpaths cases.notePath) as (Hpull & _).
  destruct Hpull as (r & dp & Hr & Hdp & ->).
  { vm_compute. apply list_elem_of_here. }
  vm_compute in Hr. injection Hr as <-.
  vm_compute in Hdp. injection Hdp as <-.
  reflexivity.
Defined.

(** A pass over [cases.inSync]. *)
Lemma SyncFiles_nothing_to_do_witness :
  sync.SyncFiles instance.cryptoLib instance.jsonLib examples.noFiles cases.clock
    (map_to_list (sync.RemoteEntries cases.inSync))
    (map_to_list (sync.LocalFiles cases.inSync))
    (cases.inSync, examples.session [] "")
  = (Ok tt,
     (sync.set_LastSync (cases.clock `quot` 1000000) cases.inSync,
      api.print (api.SyncComplete (cases.clock `quot` 1000000))
        (api.print (api.Summary 0 0 0 0 0) (examples.session [] "")))).
Proof.
  apply (SyncFiles_nothing_to_do instance.cryptoLib instance.jsonLib examples.noFiles
           cases.clock cases.inSync
           (map_to_list (sync.RemoteEntries cases.inSync))
           (map_to_list (sync.LocalFiles cases.inSync)) (examples.session [] "")
           (rangeOrder_map_to_list _) (rangeOrder_map_to_list _)).
  - intros x r Hr. simpl in Hr.
    apply lookup_insert_Some in Hr as [[<- <-]|[Hne Hr]].
    + exists (examples.localFile 100). repeat split.
    + apply lookup_singleton_Some in Hr as [<- <-].
      exists examples.localFolder. repeat split. done.
  - intros x l Hl. simpl in Hl.
    apply lookup_insert_Some in Hl as [[<- <-]|[Hne Hl]].
    + by eexists.
    + apply lookup_singleton_Some in Hl as [<- <-]. by eexists.
Defined.

(** The pass after the first pass of [cases.firstSync] pulls nothing. *)
Lemma SyncFiles_second_pass_witness :
  sync.pullPaths
    (sync.decide_ cases.firstPass.2.1
       (map_to_list (sync.RemoteEntries cases.firstPass.2.1))
       (map_to_list (sync.LocalFiles cases.firstPass.2.1))) = [].
Proof.
  destruct (SyncFiles_second_pass instance.cryptoLib instance.jsonLib examples.noFiles
              cases.clock cases.firstSync
              (map_to_list (sync.RemoteEntries cases.firstSync))
              (map_to_list (sync.RemoteEntries cases.firstPass.2.1))
              (map_to_list (sync.LocalFiles cases.firstSync))
              (map_to_list (sync.LocalFiles cases.firstPass.2.1)) cases.answering
              cases.firstPass.2.1 cases.firstPass.2.2
              (rangeOrder_map_to_list _) (rangeOrder_map_to_list _) firstPass_Ok
              (rangeOrder_map_to_list _) (rangeOrder_map_to_list _))
    as (Hpull & _).
  exact Hpull.
Defined.

(** The first pass after a handshake that pushed one file. *)
Lemma Sync_first_pass_pulls_everything_witness :
  "ab12" ∈ sync.pullPaths
             (sync.decide_ (startup.initialState 1 2 [examples.pushed])
                (map_to_list
                   (sync.RemoteEntries (startup.initialState 1 2 [examples.pushed])))
                (map_to_list
                   (sync.LocalFiles (startup.initialState 1 2 [examples.pushed])))).
Proof.
  destruct (Sync_first_pass_pulls_everything 1 2 [examples.pushed]
              (map_to_list (sync.RemoteEntries (startup.initialState 1 2 [examples.pushed])))
              (map_to_list (sync.LocalFiles (startup.initialState 1 2 [examples.pushed])))
              (rangeOrder_map_to_list _) (rangeOrder_map_to_list _))
    as (Hpull & _).
  apply Hpull. exists examples.pushed. repeat split.
Defined.

(** The stream of [examples.queued], read with a matcher for ready
    frames. *)
Lemma nextMessageMatching_takes_first_of_stream_witness :
  ∃ w', api.nextMessageMatching examples.isReady examples.queued
          = (Ok examples.readyFrame, w') ∧
        api.filteredQueue w' ++ api.ws_inbox w'
          = [examples.pongFrame] ++ [examples.pushFrame; examples.sizeFrame] ∧
        api.ws_outbox w' = api.ws_outbox examples.queued.
Proof.
  apply (proj1 (nextMessageMatching_takes_first_of_stream examples.isReady
                  examples.queued)
           [examples.pongFrame] examples.readyFrame
           [examples.pushFrame; examples.sizeFrame]).
  - reflexivity.
  - constructor; [|constructor]. vm_compute. reflexivity.
  - vm_compute. reflexivity.
Defined.

(** The frame a wait for the keys size and limit returns. *)
Lemma typed_waits_return_their_type_witness :
  ∃ m, api.Unmarshal_map instance.jsonLib examples.sizeFrame = Success m ∧
       ∀ key, key ∈ ["size"; "limit"] → is_Some (m !! key).
Proof.
  apply (proj1 (typed_waits_return_their_type instance.jsonLib
                  (examples.session [examples.pongFrame; examples.sizeFrame] "")
                  cases.sizeWait.2 examples.sizeFrame)
           ["size"; "limit"]).
  assert (H : cases.sizeWait.1 = Ok examples.sizeFrame) by (vm_compute; reflexivity).
  unfold cases.sizeWait in *.
  destruct (api.nextMessageWithJsonKeys _ _ _) as [o w]. simpl in *. by subst.
Defined.

(** The frame [SendInit] writes on [examples.busyHandshake]. *)
Lemma SendInit_writes_one_init_request_witness :
  api.ws_outbox (api.SendInit instance.jsonLib examples.busyHandshake).2 =
    [api.JSONFrame (api.MsgInit "v1" "token" "kh" 0 true "obsidian-sync")].
Proof.
  apply (proj2 (SendInit_writes_one_init_request instance.jsonLib examples.busyHandshake)
           ltac:(vm_compute; discriminate)
           (api.SendInit instance.jsonLib examples.busyHandshake).1).
  by destruct (api.SendInit instance.jsonLib examples.busyHandshake).
Defined.

(** The size query answered behind a pong. *)
Lemma GetSizeConfig_request_and_answer_witness :
  api.ws_outbox cases.sizeQuery.2 = [api.JSONFrame api.MsgSize].
Proof.
  destruct (proj2 (GetSizeConfig_request_and_answer instance.jsonLib
                     (examples.session [examples.pongFrame; examples.sizeFrame] ""))
              1%Z 2%Z cases.sizeQuery.2) as [Hout _].
  - assert (H : cases.sizeQuery.1 = Ok (1%Z, 2%Z)) by (vm_compute; reflexivity).
    unfold cases.sizeQuery in *.
    destruct (api.GetSizeConfig _ _) as [o w]. simpl in *. by subst.
  - exact Hout.
Defined.

(** A path through the stand-in cipher and back. *)
Lemma DecryptString_reads_back_encrypted_string_witness :
  ∃ c, (crypto.Encrypt instance.cryptoLib (bytes_of "a.md") examples.pw examples.slt
          (bytes_of "0123456789ab")).1 = Ok c ∧
       crypto.DecryptString instance.cryptoLib (instance.EncodeToString c)
         examples.pw examples.slt = Ok "a.md".
Proof.
  apply (DecryptString_reads_back_encrypted_string instance.cryptoLib "a.md"
           examples.pw examples.slt cases.key cases.key cases.key
           eq_refl eq_refl eq_refl
           (fun nonce _ => instance_Open_Seal _ nonce _)
           instance_hex_roundtrip).
  vm_compute. lia.
Defined.

(** The descriptor of [examples.pushRun]: its path decrypts, its hash is
    refused by a pull. *)
Lemma PushFile_hash_is_never_accepted_by_PullFile_witness :
  crypto.DecryptString instance.cryptoLib (api.out_Path cases.pushedDescriptor)
    examples.pw examples.slt = Ok "a.md" ∧
  ∀ o1 w1',
    api.PullFile instance.cryptoLib instance.jsonLib 5
      (api.out_Hash cases.pushedDescriptor) cases.answering = (o1, w1') →
    ¬ is_Ok o1.
Proof.
  destruct (PushFile_hash_is_never_accepted_by_PullFile instance.cryptoLib
              instance.jsonLib "a.md" "md" 1 2 false false examples.pushedContent
              examples.pushing examples.pushRun.1 examples.pushRun.2
              cases.pushedDescriptor [api.BinaryFrame examples.encryptedContent]
              cases.key cases.key cases.key
              eq_refl eq_refl eq_refl
              (fun nonce p _ => instance_Open_Seal _ nonce p)
              instance_hex_roundtrip instance_hex_half instance_Sum256_length
              (surjective_pairing examples.pushRun))
    as (Hpath & _ & Hpull).
  - vm_compute. reflexivity.
  - split; [exact Hpath|]. intros o1 w1'. apply Hpull. reflexivity.
Defined.

(** The pull of the note of [cases.firstSync]. *)
Lemma PullFile_accepts_a_wellformed_exchange_witness :
  ∃ w', api.PullFile instance.cryptoLib instance.jsonLib 5 cases.noteHash cases.answering
          = (Ok cases.noteContent, w') ∧
        api.ws_outbox w' = [] ++ [api.JSONFrame (api.MsgPull 5)] ∧
        api.ws_inbox w' = [] ∧
        api.filteredQueue w' = [].
Proof.
  apply (PullFile_accepts_a_wellformed_exchange instance.cryptoLib instance.jsonLib 5
           cases.noteHash cases.answering cases.noteHeader [cases.notePiece] []
           {[ "hash" := api.JString "00"; "size" := api.JNumber 33;
              "pieces" := api.JNumber 1 ]}
           {| api.hdr_Hash := "00"; api.hdr_Size := 33; api.hdr_Pieces := 1 |}
           cases.noteContent
           (instance.EncodeToString (instance.Sum256 cases.noteContent))).
  - vm_compute. discriminate.
  - reflexivity.
  - reflexivity.
  - vm_compute. reflexivity.
  - by eexists.
  - by eexists.
  - by eexists.
  - vm_compute. reflexivity.
  - reflexivity.
  - constructor; [|constructor]. intros m Hm. vm_compute in Hm. discriminate.
  - vm_compute. reflexivity.
  - vm_compute. reflexivity.
  - vm_compute. reflexivity.
  - vm_compute. reflexivity.
Defined.

(** The pass over [examples.both] does not return without error: its
    conflicting path does not decrypt. *)
Lemma SyncFiles_needs_every_path_to_decrypt_witness :
  "ab12" ∈ sync.conflictPaths
             (sync.decide_ examples.both
                (map_to_list (sync.RemoteEntries examples.both))
                (map_to_list (sync.LocalFiles examples.both))) ∧
  ¬ is_Ok cases.conflictPass.1.
Proof.
  split; [vm_compute; apply list_elem_of_here|].
  apply (SyncFiles_needs_every_path_to_decrypt instance.cryptoLib instance.jsonLib
           examples.noFiles cases.clock examples.both
           (map_to_list (sync.RemoteEntries examples.both))
           (map_to_list (sync.LocalFiles examples.both)) (examples.session [] "")
           cases.conflictPass.1 cases.conflictPass.2.1 cases.conflictPass.2.2 "ab12").
  - left. vm_compute. apply list_elem_of_here.
  - intros [dp H]. vm_compute in H. discriminate.
  - unfold cases.conflictPass. by destruct (sync.SyncFiles _ _ _ _ _ _ _) as [o [s w]].
Defined.

(** The push of [examples.pushing]. *)
Lemma PushFile_completes_when_acknowledged_witness :
  ∃ w', api.PushFile instance.cryptoLib instance.jsonLib "a.md" "md" 1 2 false false
          examples.pushedContent examples.pushing = (Ok tt, w') ∧
        api.ws_outbox w' =
          [] ++ [api.JSONFrame (api.MsgPush cases.pushedDescriptor);
                 api.BinaryFrame examples.encryptedContent] ∧
        api.ws_inbox w' = [] ∧
        api.filteredQueue w' = [] ∧
        api.rand_Reader w' = bytes_of "ABCD".
Proof.
  eapply (PushFile_completes_when_acknowledged instance.cryptoLib instance.jsonLib
            "a.md" "md" 1 2 false false examples.pushedContent examples.pushing
            examples.nextFrame examples.pushFrame examples.okFrame []
            {[ "res" := api.JString "next" ]} _ {[ "op" := api.JString "ok" ]}
            examples.pushed cases.key cases.key cases.key
            eq_refl eq_refl eq_refl).
  - vm_compute. lia.
  - vm_compute. lia.
  - reflexivity.
  - reflexivity.
  - vm_compute. reflexivity.
  - reflexivity.
  - vm_compute. reflexivity.
  - vm_compute. reflexivity.
  - vm_compute. reflexivity.
  - vm_compute. reflexivity.
  - vm_compute. reflexivity.
  - reflexivity.
  - vm_compute. reflexivity.
Defined.

(** A push of the file of [examples.both], then the decision. *)
Lemma push_then_pass_decision_witness :
  ("ab12" ∉ sync.pushPaths
              (sync.decide_ (sync.UpdateWithPush examples.pushed examples.both)
                 (map_to_list
                    (sync.RemoteEntries
                       (sync.UpdateWithPush examples.pushed examples.both)))
                 (map_to_list
                    (sync.LocalFiles
                       (sync.UpdateWithPush examples.pushed examples.both))))) ∧
  ("ef56" ∈ sync.pullPaths
              (sync.decide_ (sync.UpdateWithPush examples.pushed examples.both)
                 (map_to_list
                    (sync.RemoteEntries
                       (sync.UpdateWithPush examples.pushed examples.both)))
                 (map_to_list
                    (sync.LocalFiles
                       (sync.UpdateWithPush examples.pushed examples.both))))
   ↔ "ef56" ∈ sync.pullPaths
               (sync.decide_ examples.both
                  (map_to_list (sync.RemoteEntries examples.both))
                  (map_to_list (sync.LocalFiles examples.both)))).
Proof.
  destruct (push_then_pass_decision examples.both examples.pushed
              (map_to_list (sync.RemoteEntries examples.both))
              (map_to_list
                 (sync.RemoteEntries (sync.UpdateWithPush examples.pushed examples.both)))
              (map_to_list (sync.LocalFiles examples.both))
              (map_to_list
                 (sync.LocalFiles (sync.UpdateWithPush examples.pushed examples.both)))
              (rangeOrder_map_to_list _) (rangeOrder_map_to_list _)
              (rangeOrder_map_to_list _) (rangeOrder_map_to_list _))
    as (Hother & Hfile & _).
  split.
  - apply Hfile. reflexivity.
  - apply (Hother "ef56"). vm_compute. discriminate.
Defined.

(** The second of two listed vaults, chosen by number. *)
Lemma promptForNeededInfoThenSync_hands_over_a_listed_vault_witness :
  ∃ vaultInfo pw,
    cases.choosing.1 =
      owrap "error syncing: " (cases.Sync "token" vaultInfo pw false) ∧
    vaultInfo ∈ cases.listed ∧
    cases.listed !! 1 = Some vaultInfo ∧
    pw = "secret".
Proof.
  destruct (promptForNeededInfoThenSync_hands_over_a_listed_vault
              cases.ListVaults cases.Atoi cases.Sync "token" "" "secret" false
              cases.typing cases.choosing.1 cases.choosing.2
              (surjective_pairing cases.choosing))
    as (_ & _ & Hchoice).
  destruct (Hchoice ltac:(discriminate))
    as [(e & He & _)|(vaults & Hv & [(e & He)|[He|[(He & _)|Hsync]]])].
  - discriminate He.
  - vm_compute in He. discriminate.
  - vm_compute in He. discriminate.
  - vm_compute in He. discriminate.
  - injection Hv as <-.
    destruct Hsync as (v & pw & Ho & Hin & Hnum & _ & Hpw & _).
    exists v, pw. split; [exact Ho|]. split; [exact Hin|]. split.
    + destruct (Hnum eq_refl) as (n & Hn & _ & Hlook).
      vm_compute in Hn. injection Hn as <-. exact Hlook.
    + apply Hpw. discriminate.
Defined.

